(** * Medi-diagnose: the Grad-CAM engine and the overlay renderer

    A shallow embedding of [backend/app/cam.py] (class [GradCAM]) and of the
    overlay half of [backend/app/utils.py], with the properties the
    specification states about them.

    Numbers.  The tensors of the engine hold [fnum] values: the value of a
    finite float32 as a rational, and the three non-finite IEEE values kept
    apart, so that [torch.isfinite], NaN propagation and division by zero
    behave as they do in the code.  Addition, multiplication and division
    round their exact result to binary32 (nearest, ties to even, overflow to
    infinity, gradual underflow); the literal [1e-12] enters as its float32
    value.  The two reductions of the combination step, [torch.mean] and
    [torch.sum], accumulate in an order that the library chooses: they are
    functions of the runtime, whose result is stored as float32.  The
    renderer only ever computes on 8-bit intensities and on a 256-entry
    lookup table, so there the float32 and float64 operations are the
    bit-exact ones of [SpecFloat].

    Objects.  A Python value lists the attributes that the walk over a model
    can tell apart; every other attribute a value has (class attributes,
    methods, the attributes every object has) is looked up in the
    runtime. *)

From Stdlib Require Import String Ascii Bool Arith ZArith QArith Qround Qpower.
From Stdlib Require Import Lia Lqa List.
From Stdlib.Strings Require Import Byte.
From Stdlib Require Import SpecFloat DecimalString.
Import ListNotations.
Close Scope Q_scope.

Set Implicit Arguments.
Set Warnings "-register-all".

(* ===================================================================== *)
(** ** Python exceptions and outcomes                                     *)
(* ===================================================================== *)

Inductive PyExc : Type :=
| ValueError (msg : string)
| IndexError
| RuntimeError
| AttributeError
| TypeError.

(** A computation either returns or raises. *)
Definition Res (A : Type) : Type := (PyExc + A)%type.

Definition res_bind {A B} (r : Res A) (k : A -> Res B) : Res B :=
  match r with
  | inl e => inl e
  | inr a => k a
  end.

(* ===================================================================== *)
(** ** Tensor elements                                                    *)
(* ===================================================================== *)

Module Num.

Local Open Scope Q_scope.

Inductive fnum : Type :=
| Fin (q : Q)
| PInf
| NInf
| NaN.

Definition Qltb (a b : Q) : bool := negb (Qle_bool b a).
Definition Qzero (a : Q) : bool := Qeq_bool a 0.

Definition zero : fnum := Fin 0.

Definition isfinite (x : fnum) : bool :=
  match x with Fin _ => true | _ => false end.

Definition pow2 (e : Z) : Q := 2 ^ e.

(** The binary exponent of a positive rational: the [k] with
    [2^k <= q < 2^(k+1)]. *)
Definition ilog2 (q : Q) : Z :=
  let k := (Z.log2 (Qnum q) - Z.log2 (Zpos (Qden q)))%Z in
  if Qle_bool (pow2 k) q then k else (k - 1)%Z.

(** The nearest integer, a tie going to the even one. *)
Definition round_half_even (q : Q) : Z :=
  let f := Qfloor q in
  match Qcompare (q - inject_Z f) (1 # 2) with
  | Lt => f
  | Gt => (f + 1)%Z
  | Eq => if Z.even f then f else (f + 1)%Z
  end.

(** A positive rational rounded to binary32: 24 bits of precision, the
    spacing never finer than that of the subnormal numbers, [2^-149];
    [None] when the rounded value reaches [2^128]. *)
Definition round32_pos (a : Q) : option Q :=
  let e := Z.max (ilog2 a - 23) (-149) in
  let m := round_half_even (a / pow2 e) in
  let r := inject_Z m * pow2 e in
  if Qle_bool (pow2 128) r then None else Some (Qred r).

(** The float32 nearest to a rational, an overflow giving infinity. *)
Definition round32 (q : Q) : fnum :=
  match Qnum q with
  | Z0 => Fin 0
  | Zpos _ => match round32_pos q with Some r => Fin r | None => PInf end
  | Zneg _ => match round32_pos (- q) with Some r => Fin (- r) | None => NInf end
  end.

(** A value stored in a float32 tensor. *)
Definition cast32 (x : fnum) : fnum :=
  match x with
  | Fin q => round32 q
  | _ => x
  end.

(** [1e-12], the literal of the normalisation step, as the arithmetic of a
    float32 tensor takes it. *)
Definition eps : fnum := round32 (1 # 1000000000000).

Definition fadd (x y : fnum) : fnum :=
  match x, y with
  | NaN, _ | _, NaN => NaN
  | PInf, NInf | NInf, PInf => NaN
  | PInf, _ | _, PInf => PInf
  | NInf, _ | _, NInf => NInf
  | Fin a, Fin b => round32 (a + b)
  end.

(** Sign of a finite value: [Lt], [Eq] or [Gt] against zero. *)
Definition Qsgn (a : Q) : comparison := (Qnum a ?= 0)%Z.

Definition inf_of (pos : bool) : fnum := if pos then PInf else NInf.

Definition fmul (x y : fnum) : fnum :=
  match x, y with
  | NaN, _ | _, NaN => NaN
  | Fin a, Fin b => round32 (a * b)
  | PInf, PInf | NInf, NInf => PInf
  | PInf, NInf | NInf, PInf => NInf
  | PInf, Fin b | Fin b, PInf =>
      match Qsgn b with Eq => NaN | Gt => PInf | Lt => NInf end
  | NInf, Fin b | Fin b, NInf =>
      match Qsgn b with Eq => NaN | Gt => NInf | Lt => PInf end
  end.

(** Division; a zero divisor counts as [+0]. *)
Definition fdiv (x y : fnum) : fnum :=
  match x, y with
  | NaN, _ | _, NaN => NaN
  | Fin a, Fin b =>
      if Qzero b
      then match Qsgn a with Eq => NaN | Gt => PInf | Lt => NInf end
      else round32 (a / b)
  | Fin _, (PInf | NInf) => Fin 0
  | (PInf | NInf), (PInf | NInf) => NaN
  | PInf, Fin b => match Qsgn b with Lt => NInf | _ => PInf end
  | NInf, Fin b => match Qsgn b with Lt => PInf | _ => NInf end
  end.

(** [x < y]; false as soon as one side is NaN. *)
Definition fltb (x y : fnum) : bool :=
  match x, y with
  | NaN, _ | _, NaN => false
  | Fin a, Fin b => Qltb a b
  | NInf, NInf | PInf, PInf => false
  | NInf, _ => true
  | _, PInf => true
  | _, NInf => false
  | PInf, _ => false
  end.

(** [torch.relu]: the floor at zero, NaN passing through. *)
Definition relu (x : fnum) : fnum :=
  match x with
  | NaN => NaN
  | _ => if fltb x zero then zero else x
  end.

(** The binary maximum of a [max] reduction, NaN passing through. *)
Definition fmaximum (x y : fnum) : fnum :=
  match x, y with
  | NaN, _ | _, NaN => NaN
  | _, _ => if fltb x y then y else x
  end.

(** [0 <= x <= 1] for a finite [x]. *)
Definition in_unit (x : fnum) : Prop :=
  match x with
  | Fin q => 0 <= q /\ q <= 1
  | _ => False
  end.

(** Equality of values, rationals compared as numbers. *)
Definition feq (x y : fnum) : Prop :=
  match x, y with
  | Fin a, Fin b => a == b
  | PInf, PInf | NInf, NInf | NaN, NaN => True
  | _, _ => False
  end.

(** The positive values of the format: [k * 2^e] with fewer than 24 bits
    in [k] and no exponent below that of the subnormal numbers. *)
Definition on_grid (f : Q) : Prop :=
  exists k e, f == inject_Z k * pow2 e /\ (-149 <= e)%Z /\ (0 < k < 2 ^ 24)%Z.

End Num.
Import Num.

(* ===================================================================== *)
(** ** Tensors and arrays                                                 *)
(* ===================================================================== *)

(** A tensor is its shape and its elements in row-major order. *)
Record Tensor (A : Type) : Type := mkTensor {
  shape : list nat;
  data : list A
}.

Definition numel (s : list nat) : nat := fold_right Nat.mul 1 s.

Definition dim {A} (t : Tensor A) : nat := length (shape t).

Definition wf_tensor {A} (t : Tensor A) : Prop :=
  length (data t) = numel (shape t).

(** [t[0]]: the first slice along the leading axis. *)
Definition index0 {A} (t : Tensor A) : Res (Tensor A) :=
  match shape t with
  | [] => inl IndexError
  | n :: rest =>
      if n =? 0 then inl IndexError
      else inr (mkTensor rest (firstn (numel rest) (data t)))
  end.

(** [n] consecutive runs of [k] elements. *)
Fixpoint chunks {A} (n k : nat) (l : list A) : list (list A) :=
  match n with
  | 0 => []
  | S n' => firstn k l :: chunks n' k (skipn k l)
  end.

Fixpoint zip_with {A B C} (f : A -> B -> C) (l : list A) (m : list B) : list C :=
  match l, m with
  | a :: l', b :: m' => f a b :: zip_with f l' m'
  | _, _ => []
  end.

(* ===================================================================== *)
(** ** The model: a tree of Python objects                                *)
(* ===================================================================== *)

(** The classes of [torch.nn] modules the engine tells apart: only
    [isinstance(module, nn.Conv2d)] is ever asked. *)
Inductive ModuleClass : Type :=
| Conv2d
| Sequential
| BatchNorm2d
| ReLU
| Linear
| CustomModule (cls : string).

(** A Python value as an attribute walk sees it.  A module has an identity
    ([id], what Python's [is] compares), its training flag, its registered
    sub-modules [_modules] in registration order (an entry may be [None]),
    and the attributes it lists besides (parameters, buffers, plain
    instance attributes). *)
Inductive PyVal : Type :=
| PyNone
| PyObj (attrs : list (string * PyVal))
| PyModule (id : nat) (cls : ModuleClass) (training : bool)
           (_modules : list (string * PyVal))
           (attrs : list (string * PyVal)).

Fixpoint assoc (name : string) (l : list (string * PyVal)) : option PyVal :=
  match l with
  | [] => None
  | (k, v) :: l' => if String.eqb k name then Some v else assoc name l'
  end.

(** The attributes a value lists, a module's own before its registered
    sub-modules. *)
Definition listed_attr (o : PyVal) (name : string) : option PyVal :=
  match o with
  | PyNone => None
  | PyObj attrs => assoc name attrs
  | PyModule _ _ _ mods attrs =>
      match assoc name attrs with
      | Some v => Some v
      | None => assoc name mods
      end
  end.

Definition is_module (o : PyVal) : bool :=
  match o with PyModule _ _ _ _ _ => true | _ => false end.

Definition is_conv2d (o : PyVal) : bool :=
  match o with PyModule _ Conv2d _ _ _ => true | _ => false end.

Definition is_none (o : PyVal) : bool :=
  match o with PyNone => true | _ => false end.

(** [name.split(sep)] for a one-character separator. *)
Fixpoint split (sep : ascii) (s : string) : list string :=
  match s with
  | EmptyString => [EmptyString]
  | String c s' =>
      if Ascii.eqb c sep then EmptyString :: split sep s'
      else match split sep s' with
           | [] => [String c EmptyString]
           | p :: ps => String c p :: ps
           end
  end.

Definition dot : ascii := "."%char.

(** [prefix + ('.' if prefix else '') + name] *)
Definition sub_prefix (prefix name : string) : string :=
  match prefix with
  | EmptyString => name
  | _ => (prefix ++ "." ++ name)%string
  end.

(** [nn.Module.named_modules(memo, prefix)]: the module itself, then its
    registered sub-modules depth first in registration order; a module
    already met (same identity) is not listed again and [None] entries are
    skipped.  Returns the listing and the updated memo. *)
Fixpoint named_modules_memo (m : PyVal) (prefix : string) (memo : list nat)
  {struct m} : list (string * PyVal) * list nat :=
  match m with
  | PyModule id _ _ mods _ =>
      if existsb (Nat.eqb id) memo then ([], memo)
      else
        let fix over (cs : list (string * PyVal)) (memo : list nat)
          {struct cs} : list (string * PyVal) * list nat :=
          match cs with
          | [] => ([], memo)
          | (name, c) :: cs' =>
              let '(out1, memo1) :=
                named_modules_memo c (sub_prefix prefix name) memo in
              let '(out2, memo2) := over cs' memo1 in
              (out1 ++ out2, memo2)
          end in
        let '(out, memo') := over mods (id :: memo) in
        ((prefix, m) :: out, memo')
  | _ => ([], memo)
  end.

Definition named_modules (m : PyVal) : list (string * PyVal) :=
  fst (named_modules_memo m EmptyString []).

(** [nn.Module.eval()]: [train(False)] on the module and, recursively, on
    every registered sub-module. *)
Fixpoint eval (m : PyVal) : PyVal :=
  match m with
  | PyModule id cls _ mods attrs =>
      PyModule id cls false (map (fun p => (fst p, eval (snd p))) mods) attrs
  | other => other
  end.

(** Every module of the [_modules] tree is in inference mode. *)
Fixpoint all_eval (m : PyVal) : bool :=
  match m with
  | PyModule _ _ training mods _ =>
      negb training && forallb (fun p => all_eval (snd p)) mods
  | _ => true
  end.

(* ===================================================================== *)
(** ** The world outside the engine                                       *)
(* ===================================================================== *)

(** What the calls change besides the engine itself: the lines printed and
    the forward hooks attached to modules.  A hook entry is the id of its
    [RemovableHandle] and the identity of the module it is attached to. *)
Record World : Type := mkWorld {
  stdout : list string;
  forward_hooks : list (nat * nat);
  next_handle : nat
}.

Definition print (line : string) (w : World) : World :=
  mkWorld (stdout w ++ [line]) (forward_hooks w) (next_handle w).

(** Number of forward hooks attached to the module of identity [mid]. *)
Definition hooks_on (mid : nat) (w : World) : nat :=
  length (filter (fun h => snd h =? mid) (forward_hooks w)).

(** Handle ids are handed out increasingly. *)
Definition handles_fresh (w : World) : Prop :=
  Forall (fun h => fst h < next_handle w) (forward_hooks w).

(** What the autograd runtime does in the forward pass of one call: the
    outputs the hooked module produces, in order, each with its
    [requires_grad] flag, and then the scores or the exception the model's
    own code raises. *)
Record ForwardRun : Type := mkForwardRun {
  hook_outputs : list (Tensor fnum * bool);
  forward_result : Res (Tensor fnum)
}.

(** And in the backward pass: the gradients delivered to the tensor hooks
    that fire, in order, and whether [backward] raises. *)
Record BackwardRun : Type := mkBackwardRun {
  hook_grads : list (Tensor fnum);
  backward_result : Res unit
}.

(** The runtime.  Model, hooked module and input decide the forward pass;
    the class index seeds the backward pass.  [torch_sum] and [torch_mean]
    are the library's reductions of a run of values, in whatever order it
    accumulates them.  [py_attr] is Python's lookup of the attributes that
    a value has without listing them: class attributes, methods and the
    attributes every object has, [None] included. *)
Record Runtime : Type := mkRuntime {
  run_forward : PyVal -> PyVal -> Tensor fnum -> ForwardRun;
  run_backward : PyVal -> PyVal -> Tensor fnum -> nat -> BackwardRun;
  torch_sum : list fnum -> fnum;
  torch_mean : list fnum -> fnum;
  py_attr : PyVal -> string -> option PyVal
}.

(** [getattr(o, name)]; [None] stands for [AttributeError].  On a module
    the listed attributes come first and [nn.Module.__getattr__] then
    consults the registered sub-modules; torch registers nothing under a
    name the object already has. *)
Definition py_getattr (rt : Runtime) (o : PyVal) (name : string)
  : option PyVal :=
  match listed_attr o name with
  | Some v => Some v
  | None => py_attr rt o name
  end.

Definition hasattr (rt : Runtime) (o : PyVal) (name : string) : bool :=
  match py_getattr rt o name with Some _ => true | None => false end.

Definition string_of_nat (n : nat) : string :=
  NilEmpty.string_of_uint (Nat.to_uint n).

Fixpoint join (sep : string) (l : list string) : string :=
  match l with
  | [] => EmptyString
  | [x] => x
  | x :: l' => (x ++ sep ++ join sep l')%string
  end.

(** How a shape prints: [torch.Size([1, 2, 3, 4])]. *)
Definition string_of_shape (s : list nat) : string :=
  ("torch.Size([" ++ join ", " (map string_of_nat s) ++ "])")%string.

(** Is [x] taken as larger than the running maximum [best]?  NaN counts as
    the largest value. *)
Definition beats (x best : fnum) : bool :=
  match x, best with
  | _, NaN => false
  | NaN, _ => true
  | _, _ => fltb best x
  end.

Fixpoint argmax_from (l : list fnum) (i : nat) (best : fnum) (bi : nat) : nat :=
  match l with
  | [] => bi
  | x :: l' =>
      if beats x best then argmax_from l' (S i) x i
      else argmax_from l' (S i) best bi
  end.

(** [int(torch.argmax(logits, dim=1).item())]: [dim=1] must exist and be
    non-empty, and [item()] wants a single element. *)
Definition argmax_item (logits : Tensor fnum) : Res Z :=
  match shape logits with
  | n :: c :: rest =>
      if c =? 0 then inl IndexError
      else if numel (n :: rest) =? 1 then
        match data logits with
        | [] => inl RuntimeError
        | x :: l => inr (Z.of_nat (argmax_from l 1 x 0))
        end
      else inl RuntimeError
  | _ => inl IndexError
  end.

(** The column [logits[:, k]] exists: [-c <= k < c]; returns the index
    counted from the front. *)
Definition select_class (logits : Tensor fnum) (k : Z) : Res nat :=
  match shape logits with
  | _ :: c :: _ =>
      let c' := Z.of_nat c in
      if (0 <=? k)%Z && (k <? c')%Z then inr (Z.to_nat k)
      else if (- c' <=? k)%Z && (k <? 0)%Z then inr (Z.to_nat (k + c'))
      else inl IndexError
  | _ => inl IndexError
  end.

(* ===================================================================== *)
(** ** The combination and the normalisation                              *)
(* ===================================================================== *)

(** [torch.mean(t, dim=(1, 2))] on a 3-dimensional tensor: one value per
    leading index, the library's mean of that plane. *)
Definition mean_dim12 (rt : Runtime) (t : Tensor fnum) : Res (list fnum) :=
  match shape t with
  | [c; h; w] =>
      inr (map (fun plane => cast32 (torch_mean rt plane))
               (chunks c (h * w) (data t)))
  | _ => inl IndexError
  end.

(** [weights[:, None, None] * acts]: a [(cw, 1, 1)] tensor broadcast against
    a [(c, h, w)] one.  The result is the list of its planes. *)
Definition scale_planes (weights : list fnum) (t : Tensor fnum)
  : Res (nat * nat * list (list fnum)) :=
  match shape t with
  | [c; h; w] =>
      let planes := chunks c (h * w) (data t) in
      let cw := length weights in
      if cw =? c then
        inr (h, w, zip_with (fun wt p => map (fmul wt) p) weights planes)
      else if cw =? 1 then
        inr (h, w, map (fun p => map (fmul (hd NaN weights)) p) planes)
      else if c =? 1 then
        inr (h, w, map (fun wt => map (fmul wt) (hd [] planes)) weights)
      else inl RuntimeError
  | _ => inl IndexError
  end.

(** [torch.sum(planes, dim=0)]: at each of the [k] positions, the library's
    sum of the values the planes hold there. *)
Definition sum_dim0 (rt : Runtime) (k : nat) (planes : list (list fnum))
  : list fnum :=
  map (fun p => cast32 (torch_sum rt (map (fun plane => nth p plane NaN) planes)))
      (seq 0 k).

(** Lines 131-138 of [get_cam]: batch index 0, channel weights, weighted
    sum, rectifier. *)
Definition weighted_relu_map (rt : Runtime) (acts grads : Tensor fnum)
  : Res (Tensor fnum) :=
  res_bind (index0 acts) (fun acts0 =>
  res_bind (index0 grads) (fun grads0 =>
  res_bind (mean_dim12 rt grads0) (fun weights =>
  res_bind (scale_planes weights acts0) (fun '(h, w, planes) =>
  let cam := sum_dim0 rt (h * w) planes in
  inr (mkTensor [h; w] (map relu cam)))))).

(** [cam.max()]: fails on an empty tensor. *)
Definition tensor_max (l : list fnum) : Res fnum :=
  match l with
  | [] => inl RuntimeError
  | x :: l' => inr (fold_left fmaximum l' x)
  end.

(** Lines 141-146 of [get_cam]. *)
Definition normalize (cam : Tensor fnum) : Res (Tensor fnum) :=
  if forallb isfinite (data cam) then
    res_bind (tensor_max (data cam)) (fun m =>
    if fltb zero m then
      res_bind (tensor_max (data cam)) (fun m' =>
      inr (mkTensor (shape cam) (map (fun x => fdiv x (fadd m' eps)) (data cam))))
    else
      inr (mkTensor (shape cam) (map (fun _ => zero) (data cam))))
  else
    inr (mkTensor (shape cam) (map (fun _ => zero) (data cam))).

(* ===================================================================== *)
(** ** Pillow images                                                      *)
(* ===================================================================== *)

Module PIL.

(** An image in one of the three modes the renderer meets; [size] is
    (width, height) and the pixels are in row-major order. *)
Inductive Image : Type :=
| L (size : nat * nat) (px : list byte)
| RGB (size : nat * nat) (px : list (byte * byte * byte))
| RGBA (size : nat * nat) (px : list (byte * byte * byte * byte)).

Definition size (im : Image) : nat * nat :=
  match im with L s _ | RGB s _ | RGBA s _ => s end.

Definition mode (im : Image) : string :=
  match im with L _ _ => "L" | RGB _ _ => "RGB" | RGBA _ _ => "RGBA" end.

Definition size_eqb (a b : nat * nat) : bool :=
  (fst a =? fst b) && (snd a =? snd b).

Definition b2z (b : byte) : Z := Z.of_N (Byte.to_N b).

Definition z2b (z : Z) : byte :=
  match Byte.of_N (Z.to_N (z mod 256)) with
  | Some b => b
  | None => x00
  end.

(** [Image.new("L", size, color)] *)
Definition new_L (sz : nat * nat) (color : byte) : Image :=
  L sz (repeat color (fst sz * snd sz)).

(** [im.convert("RGB")] *)
Definition convert_RGB (im : Image) : Image :=
  match im with
  | L s px => RGB s (map (fun v => (v, v, v)) px)
  | RGB s px => RGB s px
  | RGBA s px => RGB s (map (fun '(r, g, b, _) => (r, g, b)) px)
  end.

(** [im.convert("RGBA")] *)
Definition convert_RGBA (im : Image) : Image :=
  match im with
  | L s px => RGBA s (map (fun v => (v, v, v, xff)) px)
  | RGB s px => RGBA s (map (fun '(r, g, b) => (r, g, b, xff)) px)
  | RGBA s px => RGBA s px
  end.

Fixpoint zip4 {A} (r g b a : list A) : list (A * A * A * A) :=
  match r, g, b, a with
  | x :: r', y :: g', z :: b', t :: a' => (x, y, z, t) :: zip4 r' g' b' a'
  | _, _, _, _ => []
  end.

(** [Image.merge("RGBA", (r, g, b, a))]: four [L] bands of one size. *)
Definition merge_RGBA (r g b a : Image) : Res Image :=
  match r, g, b, a with
  | L s pr, L sg pg, L sb pb, L sa pa =>
      if size_eqb s sg && size_eqb s sb && size_eqb s sa
      then inr (RGBA s (zip4 pr pg pb pa))
      else inl (ValueError "size mismatch")
  | _, _, _, _ => inl (ValueError "mode mismatch")
  end.

(** [im.point(f)] on an [L] image: the table [f(0..255)] is built once
    and every pixel is looked up in it. *)
Definition point (lut : byte -> byte) (im : Image) : Res Image :=
  match im with
  | L s px => inr (L s (map lut px))
  | _ => inl (ValueError "unsupported mode")
  end.

(** 32-bit unsigned arithmetic of the compositing loop. *)
Definition u32 (z : Z) : Z := z mod 4294967296.

Definition PRECISION_BITS : Z := 7.

Definition SHIFTFORDIV255 (a : Z) : Z := Z.shiftr (u32 (Z.shiftr a 8 + a)) 8.

(** One pixel of [ImagingAlphaComposite]: [src] over [dst]. *)
Definition composite_pixel (dst src : byte * byte * byte * byte)
  : byte * byte * byte * byte :=
  let '(dr, dg, db, da) := dst in
  let '(sr, sg, sb, sa) := src in
  if (b2z sa =? 0)%Z then dst
  else
    let blend := u32 (b2z da * (255 - b2z sa)) in
    let outa255 := u32 (b2z sa * 255 + blend) in
    let coef1 :=
      u32 (u32 (b2z sa * 255 * 255 * Z.shiftl 1 PRECISION_BITS) / outa255) in
    let coef2 := u32 (255 * Z.shiftl 1 PRECISION_BITS - coef1) in
    let chan (s d : byte) : byte :=
      let tmp := u32 (b2z s * coef1 + b2z d * coef2) in
      z2b (Z.shiftr (SHIFTFORDIV255 (u32 (tmp + Z.shiftl 128 PRECISION_BITS)))
                    PRECISION_BITS) in
    (chan sr dr, chan sg dg, chan sb db,
     z2b (SHIFTFORDIV255 (u32 (outa255 + 128)))).

(** [Image.alpha_composite(im1, im2)]: [im2] over [im1]. *)
Definition alpha_composite (im1 im2 : Image) : Res Image :=
  match im1, im2 with
  | RGBA s1 p1, RGBA s2 p2 =>
      if size_eqb s1 s2 then inr (RGBA s1 (zip_with composite_pixel p1 p2))
      else inl (ValueError "images do not match")
  | _, _ => inl (ValueError "images do not match")
  end.

(** [Image.fromarray(arr, mode="L")] on a [uint8] array. *)
Definition fromarray_L (arr : Tensor byte) : Res Image :=
  match shape arr with
  | [] => inl IndexError
  | [n] => inr (L (1, n) (data arr))
  | [h; w] => inr (L (w, h) (data arr))
  | _ => inl (ValueError "Too many dimensions")
  end.

Section Resize.

(** The bilinear resampling kernel of Pillow: pixels, their size, the
    size asked for. *)
Variable bilinear : list byte -> nat * nat -> nat * nat -> list byte.

(** [im.resize(size, resample=Image.BILINEAR)]: an image that already
    has the size is copied. *)
Definition resize (im : Image) (sz : nat * nat) : Res Image :=
  match im with
  | L s px =>
      if size_eqb s sz then inr (L s px)
      else inr (L sz (bilinear px s sz))
  | _ => inl (ValueError "unsupported mode")
  end.

End Resize.

End PIL.

(* ===================================================================== *)
(** ** [utils.py]: the overlay renderer                                   *)
(* ===================================================================== *)

Module Utils.

Import PIL.

(** float32 and float64 *)
Definition f32 (m e : Z) : spec_float := binary_normalize 24 128 m e false.
Definition f64 (m e : Z) : spec_float := binary_normalize 53 1024 m e false.
Definition mul32 := SFmul 24 128.
Definition add32 := SFadd 24 128.
Definition mul64 := SFmul 53 1024.
Definition div64 := SFdiv 53 1024.

Definition is_nan (f : spec_float) : bool :=
  match f with S754_nan => true | _ => false end.

(** [np.maximum] and [np.minimum]: NaN passes through. *)
Definition np_maximum (x y : spec_float) : spec_float :=
  if is_nan x then x else if is_nan y then y
  else if SFltb x y then y else x.
Definition np_minimum (x y : spec_float) : spec_float :=
  if is_nan x then x else if is_nan y then y
  else if SFltb y x then y else x.

(** [np.clip(x, 0.0, 1.0)] *)
Definition np_clip01 (x : spec_float) : spec_float :=
  np_minimum (np_maximum x (f32 0 0)) (f32 1 0).

(** Truncation toward zero. A NaN or an infinity has no defined
    conversion in C; it is taken to 0 here. *)
Definition trunc (f : spec_float) : Z :=
  match f with
  | S754_finite s m e =>
      let v := if (0 <=? e)%Z then (Zpos m * 2 ^ e)%Z
               else (Zpos m / 2 ^ (- e))%Z in
      if s then (- v)%Z else v
  | _ => 0%Z
  end.

(** [.astype(np.uint8)] *)
Definition astype_uint8 (f : spec_float) : byte := z2b (trunc f).

(** [(heatmap * 255.0 + 0.5).astype(np.uint8)], one element. *)
Definition quantize (x : spec_float) : byte :=
  astype_uint8 (add32 (mul32 x (f32 255 0)) (f32 1 (-1))).

(** [heatmap[..., 0]] on a 3-dimensional array. *)
Definition take_channel0 {A} (t : Tensor A) : Res (Tensor A) :=
  match shape t with
  | [h; w; k] =>
      if k =? 0 then inl IndexError
      else inr (mkTensor [h; w]
                  (concat (map (firstn 1) (chunks (h * w) k (data t)))))
  | _ => inl IndexError
  end.

(** Python's [max(0, x)] and [min(255, y)]: the first argument is kept
    unless the second is strictly beyond it. *)
Definition py_max0 (x : spec_float) : spec_float :=
  if SFltb (f64 0 0) x then x else f64 0 0.
Definition py_min255 (y : spec_float) : spec_float :=
  if SFltb y (f64 255 0) then y else f64 255 0.

Definition clip8 (z : Z) : byte :=
  if (z <? 0)%Z then x00 else if (255 <? z)%Z then xff else z2b z.

(** [lambda v: int(min(255, max(0, v * (alpha_scale / 255.0))))] *)
Definition alpha_of (alpha_scale : spec_float) (v : byte) : byte :=
  clip8 (trunc (py_min255 (py_max0
    (mul64 (f64 (b2z v) 0) (div64 alpha_scale (f64 255 0)))))).

(** The default of the parameter [alpha_scale]: [192.0]. *)
Definition default_alpha_scale : spec_float := f64 192 0.

Section Renderer.

Variable bilinear : list byte -> nat * nat -> nat * nat -> list byte.
(** [overlay.save(buffer, format="PNG")] and [base64.b64encode]. *)
Variable png_bytes : Image -> list byte.
Variable b64encode : list byte -> string.

Definition _rgba_heatmap_overlay (base_rgb : Image)
    (heatmap : Tensor spec_float) (alpha_scale : spec_float) : Res Image :=
  res_bind (if dim heatmap =? 3 then take_channel0 heatmap
            else inr heatmap) (fun heatmap =>
  let heatmap := mkTensor (shape heatmap) (map np_clip01 (data heatmap)) in
  let hm_uint8 := mkTensor (shape heatmap) (map quantize (data heatmap)) in
  res_bind (fromarray_L hm_uint8) (fun hm_img =>
  res_bind (resize bilinear hm_img (size base_rgb)) (fun hm_img =>
  let r := new_L (size base_rgb) xff in
  let g := new_L (size base_rgb) x00 in
  let b := new_L (size base_rgb) x00 in
  res_bind (point (alpha_of alpha_scale) hm_img) (fun alpha =>
  res_bind (merge_RGBA r g b alpha) (fun heat_rgba =>
  let base_rgba := convert_RGBA base_rgb in
  alpha_composite base_rgba heat_rgba))))).

Definition tensor_to_base64_overlay (original_pil : Image)
    (heatmap_np : option (Tensor spec_float)) : Res string :=
  match heatmap_np with
  | None => inr EmptyString
  | Some heatmap_np =>
      let base_rgb :=
        if negb (String.eqb (mode original_pil) "RGB")
        then convert_RGB original_pil
        else original_pil in
      res_bind (_rgba_heatmap_overlay base_rgb heatmap_np
                  default_alpha_scale) (fun overlay =>
      let encoded := b64encode (png_bytes overlay) in
      inr ("data:image/png;base64," ++ encoded)%string)
  end.

End Renderer.

End Utils.

(* ===================================================================== *)
(** ** [cam.py]: class [GradCAM]                                          *)
(* ===================================================================== *)

Module GradCAM.

(** The instance attributes of the engine. *)
Record t : Type := mk {
  model : PyVal;
  model_requires_grad : bool;
  _target_module : PyVal;
  _target_module_name : option string;
  _activations : option (Tensor fnum);
  _gradients : option (Tensor fnum)
}.

(** Methods run on the world and the engine; an exception leaves both
    as they were when it was raised. *)
Definition St : Type := (World * t)%type.
Definition M (A : Type) : Type := St -> St * Res A.

Definition ret {A} (a : A) : M A := fun s => (s, inr a).
Definition raise {A} (e : PyExc) : M A := fun s => (s, inl e).
Definition bind {A B} (c : M A) (k : A -> M B) : M B :=
  fun s => match c s with
           | (s', inl e) => (s', inl e)
           | (s', inr a) => k a s'
           end.
Definition lift {A} (r : Res A) : M A := fun s => (s, r).
Definition get_self : M t := fun s => (s, inr (snd s)).
Definition put_self (e : t) : M unit := fun s => ((fst s, e), inr tt).
Definition get_world : M World := fun s => (s, inr (fst s)).
Definition put_world (w : World) : M unit := fun s => ((w, snd s), inr tt).

Declare Scope py_scope.
Delimit Scope py_scope with py.
Notation "x <- c ;; k" := (bind c (fun x => k))
  (at level 61, c at next level, right associativity) : py_scope.
Notation "c ;;; k" := (bind c (fun _ => k))
  (at level 61, right associativity) : py_scope.
Local Open Scope py_scope.

Definition py_print (line : string) : M unit :=
  w <- get_world ;; put_world (print line w).

(** [try: c  except Exception: pass] *)
Definition try_pass (c : M unit) : M unit :=
  fun s => (fst (c s), inr tt).

Fixpoint for_each {A} (l : list A) (body : A -> M unit) : M unit :=
  match l with
  | [] => ret tt
  | a :: l' => body a ;;; for_each l' body
  end.

Definition set_target (m : PyVal) (name : option string) (e : t) : t :=
  mk (model e) (model_requires_grad e) m name (_activations e) (_gradients e).
Definition set_activations (a : option (Tensor fnum)) (e : t) : t :=
  mk (model e) (model_requires_grad e) (_target_module e)
     (_target_module_name e) a (_gradients e).
Definition set_gradients (g : option (Tensor fnum)) (e : t) : t :=
  mk (model e) (model_requires_grad e) (_target_module e)
     (_target_module_name e) (_activations e) g.

(** [_get_module_by_name]: [None] is [PyNone]. *)
Fixpoint walk (rt : Runtime) (current : PyVal) (parts : list string)
  : PyVal :=
  match parts with
  | [] => current
  | part :: rest =>
      if negb (hasattr rt current part) then PyNone
      else match py_getattr rt current part with
           | Some v => walk rt v rest
           | None => PyNone
           end
  end.

Definition _get_module_by_name (rt : Runtime) (root : PyVal) (name : string)
  : PyVal :=
  walk rt root (split dot name).

Definition conv_candidates (prefix : string) (m : PyVal)
  : list (string * PyVal) :=
  map (fun p => ((prefix ++ fst p)%string, snd p))
      (filter (fun p => is_conv2d (snd p)) (named_modules m)).

Fixpoint last_opt {A} (l : list A) : option A :=
  match l with
  | [] => None
  | [a] => Some a
  | _ :: l' => last_opt l'
  end.

(** The candidate list of [_auto_select_target_layer] once both loops
    have run. *)
Definition candidates_of (rt : Runtime) (model : PyVal)
  : list (string * PyVal) :=
  let features :=
    match py_getattr rt model "features" with
    | Some v => v
    | None => PyNone
    end in
  let candidates :=
    if is_module features then conv_candidates "features." features
    else [] in
  match candidates with
  | [] => conv_candidates "" model
  | _ => candidates
  end.

Definition _auto_select_target_layer (rt : Runtime) : M unit :=
  self <- get_self ;;
  match last_opt (candidates_of rt (model self)) with
  | Some (name, module) =>
      put_self (set_target module (Some name) self) ;;;
      py_print ("[GradCAM] Auto-selected target layer: " ++ name)
  | None => put_self (set_target PyNone None self)
  end.

Definition _clear_captures : M unit :=
  self <- get_self ;;
  put_self (set_activations None self) ;;;
  self <- get_self ;;
  put_self (set_gradients None self).

Definition layer_not_found (target_layer : string) : PyExc :=
  ValueError ("Target layer '" ++ target_layer ++ "' not found in model").

Definition no_target_layer_found : PyExc :=
  ValueError "Could not automatically find a suitable target conv layer".

(** [GradCAM(model, target_layer)]: the world afterwards, the caller's
    model object afterwards, and the engine or the exception. *)
Definition __init__ (rt : Runtime) (w : World) (model : PyVal)
    (target_layer : option string) : World * PyVal * Res t :=
  if negb (is_module model) then (w, model, inl AttributeError)
  else
    let model := eval model in
    let self := mk model true PyNone None None None in
    match target_layer with
    | Some target_layer =>
        let module := _get_module_by_name rt model target_layer in
        if is_none module then (w, model, inl (layer_not_found target_layer))
        else (w, model, inr (set_target module (Some target_layer) self))
    | None =>
        let '((w, self), _) := _auto_select_target_layer rt (w, self) in
        if is_none (_target_module self)
        then (w, model, inl no_target_layer_found)
        else (w, model, inr self)
    end.

(** [module.register_forward_hook(hook)] *)
Definition register_forward_hook (module : PyVal) : M nat :=
  match module with
  | PyModule id _ _ _ _ =>
      w <- get_world ;;
      let h := next_handle w in
      put_world (mkWorld (stdout w) (forward_hooks w ++ [(h, id)]) (S h)) ;;;
      ret h
  | _ => raise AttributeError
  end.

(** [handle.remove()] *)
Definition remove (h : nat) : M unit :=
  w <- get_world ;;
  put_world (mkWorld (stdout w)
                     (filter (fun e => negb (fst e =? h)) (forward_hooks w))
                     (next_handle w)).

(** The closure [grad_hook] of [get_cam]. *)
Definition grad_hook (grad : Tensor fnum) : M unit :=
  self <- get_self ;; put_self (set_gradients (Some grad) self).

(** The closure [fwd_hook] of [get_cam]; [output.register_hook] raises on
    a tensor that does not require grad. *)
Definition fwd_hook (output : Tensor fnum * bool) : M unit :=
  self <- get_self ;;
  put_self (set_activations (Some (fst output)) self) ;;;
  if snd output then ret tt else raise RuntimeError.

(** [self.model(input_tensor)] with the hook attached. *)
Definition call_model (rt : Runtime) (input_tensor : Tensor fnum)
  : M (Tensor fnum) :=
  self <- get_self ;;
  let run := run_forward rt (model self) (_target_module self) input_tensor in
  for_each (hook_outputs run) fwd_hook ;;;
  lift (forward_result run).

(** [selected.backward(retain_graph=False)]: the tensor hooks registered
    in the forward pass receive their gradients. *)
Definition backward (rt : Runtime) (input_tensor : Tensor fnum) (k : nat)
  : M unit :=
  self <- get_self ;;
  let fwd := run_forward rt (model self) (_target_module self) input_tensor in
  let run := run_backward rt (model self) (_target_module self) input_tensor k in
  (match hook_outputs fwd with
   | [] => ret tt
   | _ => for_each (hook_grads run) grad_hook
   end) ;;;
  lift (backward_result run).

Definition msg_no_target : string :=
  "[GradCAM] No target layer set; aborting.".
Definition msg_not_captured : string :=
  "[GradCAM] Gradients/activations were not captured. Ensure the target layer is correct.".
Definition msg_unexpected_dims (acts grads : Tensor fnum) : string :=
  ("[GradCAM] Unexpected tensor dims. activations: "
     ++ string_of_shape (shape acts) ++ ", gradients: "
     ++ string_of_shape (shape grads))%string.

(** Lines 120-147: from the captures to the heatmap. *)
Definition heatmap_of_captures (rt : Runtime) : M (option (Tensor fnum)) :=
  self <- get_self ;;
  match _activations self, _gradients self with
  | Some acts, Some grads =>
      if negb (dim acts =? 4) || negb (dim grads =? 4) then
        py_print (msg_unexpected_dims acts grads) ;;; ret None
      else
        cam <- lift (weighted_relu_map rt acts grads) ;;
        heatmap <- lift (normalize cam) ;;
        ret (Some heatmap)
  | _, _ => py_print msg_not_captured ;;; ret None
  end.

(** Lines 100-112: forward pass with gradients enabled, choice of the
    class, backward pass from its score.  [zero_grad] clears parameter
    gradients, which are not part of this model of the state. *)
Definition forward_backward (rt : Runtime) (input_tensor : Tensor fnum)
    (target_class : option Z) : M unit :=
  logits <- call_model rt input_tensor ;;
  target_class <-
    match target_class with
    | None => lift (argmax_item logits)
    | Some k => ret k
    end ;;
  selected <- lift (select_class logits target_class) ;;
  backward rt input_tensor selected.

(** Lines 98-118: the hook is registered, the passes run, the hook is
    removed. *)
Definition instrumented_pass (rt : Runtime) (input_tensor : Tensor fnum)
    (target_class : option Z) : M unit :=
  self <- get_self ;;
  hook_handle <- register_forward_hook (_target_module self) ;;
  forward_backward rt input_tensor target_class ;;;
  try_pass (remove hook_handle).

Definition get_cam (rt : Runtime) (input_tensor : Tensor fnum)
    (target_class : option Z) : M (option (Tensor fnum)) :=
  self <- get_self ;;
  if is_none (_target_module self) then
    py_print msg_no_target ;;; ret None
  else
    _clear_captures ;;;
    instrumented_pass rt input_tensor target_class ;;;
    heatmap_of_captures rt.

Section Overlay.

Import PIL Utils.

Variable bilinear : list byte -> nat * nat -> nat * nat -> list byte.
(** Whether [from .utils import _rgba_heatmap_overlay] succeeded. *)
Variable utils_imported : bool.

Definition overlay (self : t) (pil_img : Image)
    (heatmap_np : option (Tensor spec_float)) : Res Image :=
  match heatmap_np with
  | None => inr pil_img
  | Some heatmap_np =>
      if utils_imported then
        _rgba_heatmap_overlay bilinear (convert_RGB pil_img) heatmap_np
                              default_alpha_scale
      else
        let hm := mkTensor (shape heatmap_np)
                           (map np_clip01 (data heatmap_np)) in
        let hm_uint8 := mkTensor (shape hm) (map quantize (data hm)) in
        res_bind (fromarray_L hm_uint8) (fun hm_img =>
        res_bind (resize bilinear hm_img (size pil_img)) (fun hm_img =>
        let r := new_L (size pil_img) xff in
        let g := new_L (size pil_img) x00 in
        let b := new_L (size pil_img) x00 in
        res_bind (point (alpha_of (f64 192 0)) hm_img) (fun alpha =>
        res_bind (merge_RGBA r g b alpha) (fun heat_rgba =>
        let base_rgba := convert_RGBA pil_img in
        alpha_composite base_rgba heat_rgba))))
  end.

End Overlay.

End GradCAM.

(* ===================================================================== *)
(** ** Concrete runs                                                      *)
(* ===================================================================== *)

Module Samples.

Import GradCAM.
Local Open Scope string_scope.

Definition q (n : Z) : fnum := Fin (inject_Z n).

(** Activations of shape (1, 2, 2, 2) and a gradient of the same shape. *)
Definition acts : Tensor fnum :=
  mkTensor [1; 2; 2; 2] [q 1; q 2; q 3; q 4;  q 1; q 0; q 2; q 5].
Definition grads : Tensor fnum :=
  mkTensor [1; 2; 2; 2] [q 1; q 1; q 1; q 1;  q (-2); q 0; q 0; q (-2)].

(** A small classifier: three convolutions under [features], then a
    linear head.  [training] is the mode of every module. *)
Definition conv (id : nat) (training : bool) : PyVal :=
  PyModule id Conv2d training [] [("weight", PyObj []); ("bias", PyNone)].

Definition net (training : bool) : PyVal :=
  PyModule 0 (CustomModule "Net") training
    [("features",
      PyModule 1 Sequential training
        [("A", conv 2 training);
         ("norm", PyModule 3 BatchNorm2d training [] []);
         ("B", conv 4 training);
         ("relu", PyModule 5 ReLU training [] []);
         ("C", conv 6 training)]
        []);
     ("classifier", PyModule 7 Linear training [] [])]
    [("num_classes", PyObj [])].

(** A region that registers one convolution twice, in its first and in
    its last slot. *)
Definition shared_net : PyVal :=
  PyModule 0 (CustomModule "Net") false
    [("features",
      PyModule 1 Sequential false
        [("0", conv 2 false); ("1", conv 4 false); ("2", conv 2 false)]
        [])]
    [].

Definition logits : Tensor fnum := mkTensor [1; 3] [q 0; q 2; q 1].

(** A library that accumulates in order from zero, and whose mean is that
    sum divided by the count. *)
Definition seq_sum (l : list fnum) : fnum := fold_left fadd l zero.
Definition seq_mean (l : list fnum) : fnum :=
  fdiv (seq_sum l) (round32 (inject_Z (Z.of_nat (length l)))).

(** An interpreter in which every value has a [__class__], and every
    module a [training] flag and an [eval] method, besides what it
    lists. *)
Definition sample_attr (o : PyVal) (name : string) : option PyVal :=
  if String.eqb name "__class__" then Some (PyObj [])
  else if is_module o && (String.eqb name "training" || String.eqb name "eval")
       then Some (PyObj [])
       else None.

(** A runtime in which the hooked layer yields [acts], the model scores
    [logits], and backpropagation delivers [grads]. *)
Definition rt_ok : Runtime :=
  mkRuntime (fun _ _ _ => mkForwardRun [(acts, true)] (inr logits))
            (fun _ _ _ _ => mkBackwardRun [grads] (inr tt))
            seq_sum seq_mean sample_attr.

(** A runtime whose forward pass raises inside the model. *)
Definition rt_forward_raises : Runtime :=
  mkRuntime (fun _ _ _ => mkForwardRun [] (inl RuntimeError))
            (fun _ _ _ _ => mkBackwardRun [] (inr tt))
            seq_sum seq_mean sample_attr.

(** A runtime whose backward pass raises. *)
Definition rt_backward_raises : Runtime :=
  mkRuntime (fun _ _ _ => mkForwardRun [(acts, true)] (inr logits))
            (fun _ _ _ _ => mkBackwardRun [] (inl RuntimeError))
            seq_sum seq_mean sample_attr.

(** The hooked layer is not on the path to the score: an output is seen,
    no gradient ever arrives. *)
Definition rt_no_gradient : Runtime :=
  mkRuntime (fun _ _ _ => mkForwardRun [(acts, true)] (inr logits))
            (fun _ _ _ _ => mkBackwardRun [] (inr tt))
            seq_sum seq_mean sample_attr.


(** The hooked layer yields a 2-dimensional output. *)
Definition flat_out : Tensor fnum := mkTensor [1; 3] [q 1; q 2; q 3].
Definition rt_rank2 : Runtime :=
  mkRuntime (fun _ _ _ => mkForwardRun [(flat_out, true)] (inr logits))
            (fun _ _ _ _ => mkBackwardRun [flat_out] (inr tt))
            seq_sum seq_mean sample_attr.

Definition input : Tensor fnum := mkTensor [1; 3; 1; 1] [q 0; q 0; q 0].

Definition world0 : World := mkWorld [] [] 0.

(** The engine [GradCAM(net)] after auto-selection. *)
Definition engine0 : GradCAM.t :=
  mk (net false) true (conv 6 false) (Some "features.C") None None.

End Samples.
Import Samples.

(* ===================================================================== *)
(** ** Vocabulary of the statements                                       *)
(* ===================================================================== *)

Section Vocabulary.

Import PIL Utils GradCAM.
Local Open Scope py_scope.

(** Element [t[n, c, i, j]] of a 4-dimensional tensor. *)
Definition at4 (t : Tensor fnum) (n c i j : nat) : fnum :=
  match shape t with
  | [_; C; H; W] => nth (((n * C + c) * H + i) * W + j) (data t) NaN
  | _ => NaN
  end.

(** Height and width, and the number of channels, of a 4-dimensional
    tensor. *)
Definition spatial_dims (t : Tensor fnum) : nat * nat :=
  match shape t with
  | [_; _; H; W] => (H, W)
  | _ => (0, 0)
  end.

Definition channels (t : Tensor fnum) : nat :=
  match shape t with
  | [_; C; _; _] => C
  | _ => 0
  end.

(** The map of the specification, written from its words.  Batch index 0;
    per channel, the arithmetic mean of the gradient over its two spatial
    dimensions: *)
Definition channel_weight_spec (rt : Runtime) (grads : Tensor fnum) (c : nat)
  : fnum :=
  let '(H, W) := spatial_dims grads in
  cast32 (torch_mean rt
            (flat_map (fun i => map (fun j => at4 grads 0 c i j) (seq 0 W))
                      (seq 0 H))).

(** the weighted sum of the activations over the channels: *)
Definition weighted_sum_spec (rt : Runtime) (acts grads : Tensor fnum)
    (i j : nat) : fnum :=
  cast32 (torch_sum rt
            (map (fun c => fmul (channel_weight_spec rt grads c)
                                (at4 acts 0 c i j))
                 (seq 0 (channels acts)))).

(** and the floor at zero, on the sum. *)
Definition grad_cam_spec (rt : Runtime) (acts grads : Tensor fnum)
    (i j : nat) : fnum :=
  relu (weighted_sum_spec rt acts grads i j).


(** The value of a [SpecFloat] number as a tensor element. *)
Definition fnum_of_float (x : spec_float) : fnum :=
  match x with
  | S754_zero _ => Fin 0
  | S754_infinity s => if s then NInf else PInf
  | S754_nan => NaN
  | S754_finite s m e =>
      Fin (Qred (inject_Z (if s then Z.neg m else Z.pos m) * pow2 e))
  end.

(** Induction over a value and the sub-modules registered in it. *)
Fixpoint PyVal_modules_ind (P : PyVal -> Prop)
    (HNone : P PyNone)
    (HObj : forall attrs, P (PyObj attrs))
    (HMod : forall id cls training mods attrs,
        Forall (fun p => P (snd p)) mods ->
        P (PyModule id cls training mods attrs))
    (v : PyVal) {struct v} : P v :=
  match v with
  | PyNone => HNone
  | PyObj attrs => HObj attrs
  | PyModule id cls training mods attrs =>
      HMod id cls training mods attrs
        ((fix over (l : list (string * PyVal)) : Forall (fun p => P (snd p)) l :=
            match l with
            | [] => Forall_nil _
            | p :: l' =>
                Forall_cons p (PyVal_modules_ind P HNone HObj HMod (snd p))
                            (over l')
            end) mods)
  end.

(** [c] relates every state to the state it leaves by [R]. *)
Definition preserves (R : St -> St -> Prop) {A} (c : M A) : Prop :=
  forall s, R s (fst (c s)).

(** The engine's wiring: everything but the two capture buffers. *)
Definition same_wiring (s s' : St) : Prop :=
  model (snd s') = model (snd s) /\
  model_requires_grad (snd s') = model_requires_grad (snd s) /\
  _target_module (snd s') = _target_module (snd s) /\
  _target_module_name (snd s') = _target_module_name (snd s).

(** Nothing printed, no hook touched. *)
Definition same_world (s s' : St) : Prop := fst s' = fst s.

(** Hooks and handle counter; printing is allowed. *)
Definition same_hooks (s s' : St) : Prop :=
  forward_hooks (fst s') = forward_hooks (fst s) /\
  next_handle (fst s') = next_handle (fst s).

(** The world with one more hook, on the module [id]. *)
Definition hooked (id : nat) (w : World) : World :=
  mkWorld (stdout w) (forward_hooks w ++ [(next_handle w, id)])
          (S (next_handle w)).

(** The world once the handle [h] is removed. *)
Definition unhooked (h : nat) (w : World) : World :=
  mkWorld (stdout w) (filter (fun e => negb (fst e =? h)) (forward_hooks w))
          (next_handle w).

(** The convolutional sub-modules of [m] in the order [named_modules]
    lists them: definition order, depth first. *)
Definition convs_of (m : PyVal) : list PyVal :=
  filter is_conv2d (map snd (named_modules m)).

(** The rounding against the reference: the integer [m] scaled by [2^e],
    rounded by [round32] and by [SpecFloat]'s [binary_normalize] for
    binary32. *)
Definition feqb (x y : fnum) : bool :=
  match x, y with
  | Fin a, Fin b => Qeq_bool a b
  | PInf, PInf | NInf, NInf | NaN, NaN => true
  | _, _ => false
  end.

Definition rounds_like_binary32 (m e : Z) : bool :=
  feqb (round32 (inject_Z m * pow2 e)%Q)
       (fnum_of_float (binary_normalize 24 128 m e false)).

(** Mantissas that fit, and mantissas of one, two and more bits too many,
    ties among them. *)
Definition sample_mantissas : list Z :=
  map Z.of_nat (seq 1 32)
  ++ map (fun k => 2 ^ 24 - 4 + Z.of_nat k)%Z (seq 0 9)
  ++ map (fun k => 2 ^ 25 - 4 + Z.of_nat k)%Z (seq 0 9)
  ++ map (fun k => 2 ^ 26 - 4 + Z.of_nat k)%Z (seq 0 9)
  ++ map (fun k => 3 * 2 ^ 30 - 8 + Z.of_nat k)%Z (seq 0 17).

(** Exponents from below the subnormal range to beyond the overflow. *)
Definition sample_exponents : list Z :=
  [-180; -155; -153; -152; -151; -150; -149; -148; -100; -24; 0; 1; 64;
   97; 98; 100; 101; 102; 103; 104; 105; 127; 128]%Z.

(** The [features] region of a model, when it is a module. *)
Definition feature_region (rt : Runtime) (model : PyVal) : option PyVal :=
  match py_getattr rt model "features" with
  | Some f => if is_module f then Some f else None
  | None => None
  end.

(** Its convolutions; the enumeration starts with the region itself. *)
Definition region_convs (rt : Runtime) (model : PyVal) : list PyVal :=
  match feature_region rt model with
  | Some f => convs_of f
  | None => []
  end.

(** The attribute walk of the specification: [None] as soon as a segment
    is missing. *)
Fixpoint resolve (rt : Runtime) (current : PyVal) (parts : list string)
  : option PyVal :=
  match parts with
  | [] => Some current
  | part :: rest =>
      match py_getattr rt current part with
      | Some v => resolve rt v rest
      | None => None
      end
  end.

(** The state in which the pass leaves the call: buffers cleared, hook
    attached, forward and backward run, hook removed. *)
Definition after_pass (rt : Runtime) (inp : Tensor fnum) (tc : option Z)
  : M unit :=
  _clear_captures ;;; instrumented_pass rt inp tc.

(** The model component of what [__init__] returns. *)
Definition model_after_init (rt : Runtime) (w : World) (model : PyVal)
    (target_layer : option string) : PyVal :=
  snd (fst (__init__ rt w model target_layer)).

(** The engine with both buffers emptied. *)
Definition discard_captures (s : St) : St :=
  (fst s, set_gradients None (set_activations None (snd s))).

(** One call: the runtime that serves it, the input, the class. *)
Definition Call : Type := (Runtime * Tensor fnum * option Z)%type.

(** A sequence of calls on one engine. *)
Fixpoint run_calls (calls : list Call) (s : St)
  : St * list (Res (option (Tensor fnum))) :=
  match calls with
  | [] => (s, [])
  | (rt, inp, tc) :: rest =>
      let '(s1, r) := get_cam rt inp tc s in
      let '(s2, rs) := run_calls rest s1 in
      (s2, r :: rs)
  end.

(** The same sequence on an engine whose buffers are emptied as soon as a
    call is over. *)
Fixpoint run_calls_discarding (calls : list Call) (s : St)
  : St * list (Res (option (Tensor fnum))) :=
  match calls with
  | [] => (s, [])
  | (rt, inp, tc) :: rest =>
      let '(s1, r) := get_cam rt inp tc s in
      let '(s2, rs) := run_calls_discarding rest (discard_captures s1) in
      (s2, r :: rs)
  end.

(** The tint layer: solid red, the alpha of each pixel looked up from the
    resampled intensity. *)
Definition tint_layer (alpha_scale : spec_float) (sz : nat * nat)
    (px : list byte) : Image :=
  RGBA sz (map (fun v => (xff, x00, x00, alpha_of alpha_scale v)) px).

End Vocabulary.

(* ===================================================================== *)
(** * Part II: the rest of the renderer, the loader and the scaler        *)
(* ===================================================================== *)

Unset Implicit Arguments.

Section RendererVocabulary.

Import PIL Utils.

(** The 256 intensities, in order. *)
Definition all_bytes : list byte :=
  map (fun n => z2b (Z.of_nat n)) (seq 0 256).

(** A check run on every intensity. *)
Definition forall_byte (P : byte -> bool) : bool := forallb P all_bytes.

(** The exact blend of source intensity [s] at alpha [a] over an opaque
    backdrop [d] is [(s * a + d * (255 - a)) / 255]; [v] is that value
    rounded to the nearest integer. *)
Definition rounded_blend (s d a v : Z) : bool :=
  (Z.abs (2 * (255 * v - (s * a + d * (255 - a)))) <=? 255)%Z.

(** The pixels of an image once converted to RGBA. *)
Definition rgba_pixels (im : Image) : list (byte * byte * byte * byte) :=
  match convert_RGBA im with
  | RGBA _ px => px
  | _ => []
  end.

Definition px_red (p : byte * byte * byte * byte) : byte := fst (fst (fst p)).
Definition px_green (p : byte * byte * byte * byte) : byte := snd (fst (fst p)).
Definition px_blue (p : byte * byte * byte * byte) : byte := snd (fst p).
Definition px_alpha (p : byte * byte * byte * byte) : byte := snd p.

(** One pixel of the tint over one opaque gray pixel of the base: red does
    not fall and is the exact blend of 255 rounded to nearest, a zero
    channel of the tint does not raise the base and is the exact blend of
    0 rounded to nearest. *)
Definition tint_pixel_ok (a v : byte) : bool :=
  let q := composite_pixel (v, v, v, xff) (xff, x00, x00, a) in
  (b2z v <=? b2z (px_red q))%Z && (b2z (px_green q) <=? b2z v)%Z &&
  rounded_blend 255 (b2z v) (b2z a) (b2z (px_red q)) &&
  rounded_blend 0 (b2z v) (b2z a) (b2z (px_green q)).

(** The image that the fallback of [GradCAM.overlay] composites on and
    the one that the renderer of [utils] composites on. *)
Definition is_rgba (im : Image) : bool :=
  match im with RGBA _ _ => true | _ => false end.

End RendererVocabulary.

(* ===================================================================== *)
(** ** [model_loader.py]: reading a checkpoint                            *)
(* ===================================================================== *)

Module ModelLoader.

Local Open Scope string_scope.

(** The exceptions of the loader; [RuntimeError] carries its message. *)
Inductive Exc : Type :=
| RuntimeError (msg : string)
| AttributeError.

Definition LRes (A : Type) : Type := (Exc + A)%type.

(** What [torch.load] can hand back, as far as the loader looks into it: a
    dict key is a [str] or something else; a value is a tensor (of which
    only the shape is read), a dict, or an object that is neither and has
    no [shape] attribute. *)
Inductive Key : Type :=
| KStr (s : string)
| KOther (id : nat).

Inductive Obj : Type :=
| OTensor (shape : list nat)
| ODict (items : list (Key * Obj))
| OOther.

(** A dict with [str] keys, in insertion order. *)
Definition StateDict : Type := list (string * Obj).

Definition key_eqb (a b : Key) : bool :=
  match a, b with
  | KStr s, KStr t => String.eqb s t
  | KOther i, KOther j => Nat.eqb i j
  | _, _ => false
  end.

(** [d.get(key)] *)
Fixpoint dict_get (key : Key) (d : list (Key * Obj)) : option Obj :=
  match d with
  | [] => None
  | (k, v) :: d' => if key_eqb k key then Some v else dict_get key d'
  end.

(** [all(isinstance(k, str) for k in d.keys())]: when it holds, the items
    with their keys as strings. *)
Fixpoint str_items (d : list (Key * Obj)) : option StateDict :=
  match d with
  | [] => Some []
  | (KStr s, v) :: d' =>
      match str_items d' with
      | Some r => Some ((s, v) :: r)
      | None => None
      end
  | (KOther _, _) :: _ => None
  end.

Definition container_keys : list string :=
  ["state_dict"; "model_state_dict"; "model"; "weights"; "params"].

Definition could_not_extract : string :=
  "[model_loader] Could not extract a state_dict from checkpoint. " ++
  "Expected a dict with tensor values or a dict containing 'state_dict'/'model_state_dict'.".

(** The loop over the container keys: the first whose value is a dict with
    only [str] keys. *)
Fixpoint first_container (keys : list string) (checkpoint : list (Key * Obj))
  : option StateDict :=
  match keys with
  | [] => None
  | key :: keys' =>
      match dict_get (KStr key) checkpoint with
      | Some (ODict maybe) =>
          match str_items maybe with
          | Some sd => Some sd
          | None => first_container keys' checkpoint
          end
      | _ => first_container keys' checkpoint
      end
  end.

Definition _extract_state_dict (checkpoint : Obj) : LRes StateDict :=
  match checkpoint with
  | ODict items =>
      match first_container container_keys items with
      | Some sd => inr sd
      | None =>
          match str_items items with
          | Some sd => inr sd
          | None => inl (RuntimeError could_not_extract)
          end
      end
  | _ => inl (RuntimeError could_not_extract)
  end.

(** [k in d] and [d[k]] on a dict with [str] keys. *)
Fixpoint sd_get {V} (k : string) (d : list (string * V)) : option V :=
  match d with
  | [] => None
  | (k', v) :: d' => if String.eqb k' k then Some v else sd_get k d'
  end.

(** [d[k] = v]: an existing key keeps its place, a new one goes last. *)
Fixpoint dict_set {V} (k : string) (v : V) (d : list (string * V))
  : list (string * V) :=
  match d with
  | [] => [(k, v)]
  | (k', v') :: d' =>
      if String.eqb k' k then (k', v) :: d'
      else (k', v') :: dict_set k v d'
  end.

(** [k.startswith(p)] *)
Definition startswith (p k : string) : bool := String.prefix p k.

(** [k[n:]] *)
Fixpoint drop_chars (n : nat) (k : string) : string :=
  match n, k with
  | 0, _ => k
  | S n', String _ k' => drop_chars n' k'
  | S _, EmptyString => EmptyString
  end.

Definition _strip_module_prefix (state_dict : StateDict) : StateDict :=
  fold_left
    (fun fixed kv =>
       let '(k, v) := kv in
       if startswith "module." k
       then dict_set (drop_chars (String.length "module.") k) v fixed
       else dict_set k v fixed)
    state_dict [].

Definition shape_eqb (a b : list nat) : bool :=
  if list_eq_dec Nat.eq_dec a b then true else false.

(** The loop of [_check_shape_compatibility]: the keys that the model has
    too, with the two shapes when they differ.  Reading [.shape] of a
    value that is not a tensor raises. *)
Fixpoint collect_mismatches (model_state : list (string * list nat))
    (external_state : StateDict)
    (mismatches : list (string * list nat * list nat))
  : LRes (list (string * list nat * list nat)) :=
  match external_state with
  | [] => inr mismatches
  | (k, ext_t) :: rest =>
      match sd_get k model_state with
      | Some model_shape =>
          match ext_t with
          | OTensor ext_shape =>
              if shape_eqb model_shape ext_shape
              then collect_mismatches model_state rest mismatches
              else collect_mismatches model_state rest
                     (mismatches ++ [(k, model_shape, ext_shape)])%list
          | _ => inl AttributeError
          end
      | None => collect_mismatches model_state rest mismatches
      end
  end.

Definition newline : string := String "010"%char EmptyString.

Definition mismatch_line (m : string * list nat * list nat) : string :=
  let '(k, exp, got) := m in
  " - " ++ k ++ ": expected " ++ string_of_shape exp ++
  " but found " ++ string_of_shape got.

Definition mismatch_header : string :=
  "[model_loader] Checkpoint tensor shape mismatches detected:" ++ newline.

(** [model_state] is [model.state_dict()], of which the shapes are read. *)
Definition _check_shape_compatibility (model_state : list (string * list nat))
    (external_state : StateDict) : LRes unit :=
  match collect_mismatches model_state external_state [] with
  | inl e => inl e
  | inr [] => inr tt
  | inr mismatches =>
      inl (RuntimeError
             (mismatch_header ++ join newline (map mismatch_line mismatches)))
  end.

End ModelLoader.

Section LoaderVocabulary.

Import ModelLoader.
Local Open Scope string_scope.

(** What becomes of one key. *)
Definition strip_key (k : string) : string :=
  if startswith "module." k then drop_chars 7 k else k.

(** A state dict as [nn.DataParallel] saves it. *)
Definition data_parallel (sd : StateDict) : StateDict :=
  map (fun kv => ("module." ++ fst kv, snd kv)) sd.

(** The tensors of a checkpoint that the model has too have the model's
    shapes. *)
Definition compatible (model_state : list (string * list nat))
    (external_state : StateDict) : Prop :=
  forall k ext_shape model_shape,
    In (k, OTensor ext_shape) external_state ->
    sd_get k model_state = Some model_shape ->
    model_shape = ext_shape.

Definition all_tensors (sd : StateDict) : Prop :=
  Forall (fun kv => exists s, snd kv = OTensor s) sd.

(** The entries of the checkpoint whose shape differs from the model's,
    in the order of the checkpoint. *)
Definition mismatching (model_state : list (string * list nat))
    (external_state : StateDict) : StateDict :=
  filter (fun kv =>
            match sd_get (fst kv) model_state, snd kv with
            | Some model_shape, OTensor ext_shape =>
                negb (shape_eqb model_shape ext_shape)
            | _, _ => false
            end) external_state.

(** The entry of the report for one mismatching entry. *)
Definition mismatch_of (model_state : list (string * list nat))
    (kv : string * Obj) : string * list nat * list nat :=
  (fst kv,
   match sd_get (fst kv) model_state with Some s => s | None => [] end,
   match snd kv with OTensor s => s | _ => [] end).

(** The value under a container key, when it is a dict with only [str]
    keys. *)
Definition container_value (items : list (Key * Obj)) (key : string)
  : option StateDict :=
  match dict_get (KStr key) items with
  | Some (ODict maybe) => str_items maybe
  | _ => None
  end.

(** A dict with [str] keys as a checkpoint object. *)
Definition as_obj (sd : StateDict) : Obj :=
  ODict (map (fun kv => (KStr (fst kv), snd kv)) sd).

(** The state dict of a model, as a checkpoint holds it. *)
Definition state_dict_of (model_state : list (string * list nat)) : StateDict :=
  map (fun kv => (fst kv, OTensor (snd kv))) model_state.

(** Lines 185 to 189 of [get_model_and_device]: extract, strip, check. *)
Definition checked_state_dict (model_state : list (string * list nat))
    (checkpoint : Obj) : LRes StateDict :=
  match _extract_state_dict checkpoint with
  | inl e => inl e
  | inr state_dict =>
      let state_dict := _strip_module_prefix state_dict in
      match _check_shape_compatibility model_state state_dict with
      | inl e => inl e
      | inr _ => inr state_dict
      end
  end.

End LoaderVocabulary.

(* ===================================================================== *)
(** ** [utils.py]: DICOM pixel data to an image                           *)
(* ===================================================================== *)

Module UtilsDicom.

Import PIL Utils.

Definition sub32 := SFsub 24 128.
Definition div32 := SFdiv 24 128.
Definition sub64 := SFsub 53 1024.

(** A Python float as an operand of a float32 array operation. *)
Definition to_f32 (x : spec_float) : spec_float :=
  match x with
  | S754_finite s m e => binary_normalize 24 128 (cond_Zopp s (Zpos m)) e s
  | _ => x
  end.

(** [np.isfinite] *)
Definition np_isfinite (x : spec_float) : bool :=
  match x with
  | S754_zero _ | S754_finite _ _ _ => true
  | _ => false
  end.

(** [a.min()] and [a.max()] of a non-empty array without NaN; equal
    elements can only be zeros of either sign. *)
Definition np_min (l : list spec_float) : spec_float :=
  match l with
  | [] => S754_nan
  | x :: l' => fold_left (fun m y => if SFltb y m then y else m) l' x
  end.
Definition np_max (l : list spec_float) : spec_float :=
  match l with
  | [] => S754_nan
  | x :: l' => fold_left (fun m y => if SFltb m y then y else m) l' x
  end.

(** [np.zeros(shape, dtype=np.uint8)] *)
Definition zeros_uint8 (sh : list nat) : Tensor byte :=
  mkTensor sh (repeat x00 (numel sh)).

(** [arr] is the argument once converted by [np.asarray(array,
    dtype=np.float32)]. *)
Definition _min_max_scale_to_uint8 (arr : Tensor spec_float) : Tensor byte :=
  if numel (shape arr) =? 0 then zeros_uint8 (shape arr)
  else
    let finite_mask := map np_isfinite (data arr) in
    if negb (existsb (fun b => b) finite_mask) then zeros_uint8 (shape arr)
    else
      let finite_vals := filter np_isfinite (data arr) in
      let min_val := np_min finite_vals in
      let max_val := np_max finite_vals in
      let range_val := sub64 max_val min_val in
      let scaled :=
        if SFleb range_val (f64 0 0)
        then map (fun _ => f32 0 0) (data arr)
        else map (fun x => np_clip01
                             (div32 (sub32 x (to_f32 min_val))
                                    (to_f32 range_val)))
                 (data arr) in
      let scaled :=
        zip_with (fun (fin : bool) s => if fin then s else f32 0 0)
                 finite_mask scaled in
      mkTensor (shape arr) (map quantize scaled).

(** What the function reads of a parsed file: the decoded pixel array (of
    integers) or the exception that decoding raises, and the attribute
    [PhotometricInterpretation], a [str] or something else, when there is
    one. *)
Inductive Attr : Type :=
| AStr (s : string)
| AOther.

Record Dataset : Type := mkDataset {
  pixel_array : Res (Tensor Z);
  PhotometricInterpretation : option Attr
}.

(** [s.upper()], on ASCII text. *)
Definition upper_char (c : ascii) : ascii :=
  let n := nat_of_ascii c in
  if (97 <=? n) && (n <=? 122) then ascii_of_nat (n - 32) else c.

Fixpoint upper (s : string) : string :=
  match s with
  | EmptyString => EmptyString
  | String c s' => String (upper_char c) (upper s')
  end.

(** [np.asarray(pixel_data, dtype=np.float32)] on integers. *)
Definition asarray_f32 (t : Tensor Z) : Tensor spec_float :=
  mkTensor (shape t) (map (fun z => f32 z 0) (data t)).

(** [255 - pixel_uint8] *)
Definition invert_uint8 (t : Tensor byte) : Tensor byte :=
  mkTensor (shape t) (map (fun v => z2b (255 - b2z v)) (data t)).

Section Dicom.

(** [pydicom.dcmread(io.BytesIO(dicom_bytes), force=True)] *)
Variable dcmread : list byte -> Res Dataset.

Definition dicom_bytes_to_pil (dicom_bytes : list byte) : Res Image :=
  res_bind (dcmread dicom_bytes) (fun ds =>
  res_bind (pixel_array ds) (fun pixel_data =>
  let pixel_uint8 := _min_max_scale_to_uint8 (asarray_f32 pixel_data) in
  let pixel_uint8 :=
    match PhotometricInterpretation ds with
    | Some (AStr photometric) =>
        if String.eqb (upper photometric) "MONOCHROME1"
        then invert_uint8 pixel_uint8
        else pixel_uint8
    | _ => pixel_uint8
    end in
  res_bind (if dim pixel_uint8 =? 3 then take_channel0 pixel_uint8
            else inr pixel_uint8) (fun pixel_uint8 =>
  res_bind (fromarray_L pixel_uint8) (fun pil_img =>
  inr (convert_RGB pil_img))))).

End Dicom.

End UtilsDicom.

Section DicomVocabulary.

Import PIL Utils UtilsDicom.

(** The negative of an image: every channel [v] becomes [255 - v]. *)
Definition negative (im : Image) : Image :=
  let n := fun v => z2b (255 - b2z v) in
  match im with
  | L s px => L s (map n px)
  | RGB s px => RGB s (map (fun '(r, g, b) => (n r, n g, n b)) px)
  | RGBA s px => RGBA s (map (fun '(r, g, b, a) => (n r, n g, n b, a)) px)
  end.

(** The file says that small values are bright. *)
Definition monochrome1 (ds : Dataset) : bool :=
  match PhotometricInterpretation ds with
  | Some (AStr p) => String.eqb (upper p) "MONOCHROME1"
  | _ => false
  end.

Definition res_map {A B} (f : A -> B) (r : Res A) : Res B :=
  match r with
  | inl e => inl e
  | inr a => inr (f a)
  end.

(** A gray image in mode RGB. *)
Definition gray_rgb (im : Image) : Prop :=
  exists s px, im = RGB s (map (fun v => (v, v, v)) px).

End DicomVocabulary.

(* ===================================================================== *)
(** ** [main.py]: the two endpoints                                       *)
(* ===================================================================== *)

Module Api.

Import PIL Utils UtilsDicom GradCAM.
Local Open Scope string_scope.

Definition CHEXNET_LABELS : list string :=
  ["Atelectasis"; "Cardiomegaly"; "Effusion"; "Infiltration"; "Mass";
   "Nodule"; "Pneumonia"; "Pneumothorax"; "Consolidation"; "Edema";
   "Emphysema"; "Fibrosis"; "Pleural_Thickening"; "Hernia"].

(** What the endpoints read of an upload; [file_read] is
    [upload.file.read()]. *)
Record UploadFile : Type := mkUploadFile {
  filename : option string;
  content_type : option string;
  file_read : Res (list byte)
}.

Inductive HTTPException : Type :=
| mkHTTPException (status_code : nat) (detail : string).

Definition status_of (h : HTTPException) : nat :=
  match h with mkHTTPException c _ => c end.
Definition detail_of (h : HTTPException) : string :=
  match h with mkHTTPException _ d => d end.

(** One entry of "predictions". *)
Record Prediction : Type := mkPrediction {
  label : string;
  probability : fnum
}.

(** [app.state]: the world and the model loaded at startup. *)
Definition AppState : Type := (World * PyVal)%type.

(** What a [try] body raises: an [HTTPException] or another exception. *)
Inductive Raised : Type :=
| RHttp (h : HTTPException)
| RExc (e : PyExc).

Definition Try (A : Type) : Type := (Raised + A)%type.

Definition of_res {A} (r : Res A) : Try A :=
  match r with
  | inl e => inl (RExc e)
  | inr a => inr a
  end.

Definition of_http {A} (r : HTTPException + A) : Try A :=
  match r with
  | inl h => inl (RHttp h)
  | inr a => inr a
  end.

Definition try_bind {A B} (r : Try A) (k : A -> Try B) : Try B :=
  match r with
  | inl e => inl e
  | inr a => k a
  end.

(** [s.lower()], on ASCII text. *)
Definition lower_char (c : ascii) : ascii :=
  let n := nat_of_ascii c in
  if ((65 <=? n) && (n <=? 90))%nat then ascii_of_nat (n + 32) else c.

Fixpoint lower (s : string) : string :=
  match s with
  | EmptyString => EmptyString
  | String c s' => String (lower_char c) (lower s')
  end.

(** [s.endswith(suffix)] *)
Fixpoint endswith (suffix s : string) : bool :=
  String.eqb suffix s ||
  match s with
  | EmptyString => false
  | String _ s' => endswith suffix s'
  end.

(** [sub in s] *)
Fixpoint contains (sub s : string) : bool :=
  String.prefix sub s ||
  match s with
  | EmptyString => false
  | String _ s' => contains sub s'
  end.

(** [o or ""] *)
Definition or_empty (o : option string) : string :=
  match o with
  | Some s => s
  | None => ""
  end.

Definition _is_dicom (upload : UploadFile) : bool :=
  let name := lower (or_empty (filename upload)) in
  let ctype := lower (or_empty (content_type upload)) in
  endswith ".dcm" name || contains "dicom" ctype.

(** [sorted(preds, key=lambda d: d["probability"], reverse=True)]: the
    stable sort by decreasing probability, as an insertion sort; on keys
    without NaN the order is total and every stable sort gives this
    list. *)
Fixpoint insert_desc (x : Prediction) (l : list Prediction)
  : list Prediction :=
  match l with
  | [] => [x]
  | y :: l' =>
      if fltb (probability x) (probability y) then y :: insert_desc x l'
      else x :: y :: l'
  end.

Definition sorted_desc (l : list Prediction) : list Prediction :=
  fold_right insert_desc [] l.

(** [probs.tolist()] zipped with the labels and each entry through
    [float]: a 0-dimensional array gives a number, which [zip] refuses;
    the entries of an array of two or more dimensions are lists, which
    [float] refuses. *)
Definition tolist (probs : Tensor fnum) : Res (list fnum) :=
  match shape probs with
  | [] => inl TypeError
  | [_] => inr (data probs)
  | n :: _ => if (n =? 0)%nat then inr [] else inl TypeError
  end.

Definition predictions_of (probs_list : list fnum) : list Prediction :=
  sorted_desc (zip_with mkPrediction CHEXNET_LABELS probs_list).

(** [int(np.argmax(probs))]: the first index of a largest element of the
    flattened array. *)
Definition np_argmax (probs : Tensor fnum) : Res Z :=
  match data probs with
  | [] => inl (ValueError "attempt to get argmax of an empty sequence")
  | x :: l => inr (Z.of_nat (argmax_from l 1 x 0))
  end.

Definition out_of_range : HTTPException :=
  mkHTTPException 400 "target_class out of range [0, 13]".

Section Endpoints.

Variable bilinear : list byte -> nat * nat -> nat * nat -> list byte.
Variable png_bytes : Image -> list byte.
Variable b64encode : list byte -> string.
Variable dcmread : list byte -> Res Dataset.
(** [Image.open(BytesIO(file_bytes))] *)
Variable image_open : list byte -> Res Image.
(** [_PREPROCESS_TRANSFORMS], the composed torchvision transforms. *)
Variable transforms : Image -> Res (Tensor fnum).
(** [model(x)] under [torch.no_grad()], in a world with its hooks. *)
Variable forward : World -> PyVal -> Tensor fnum -> Res (Tensor fnum).
Variable sigmoid : fnum -> fnum.
(** The passes of [get_cam]. *)
Variable rt : Runtime.
(** The heatmap as the float32 array that [get_cam] returns. *)
Variable to_numpy : Tensor fnum -> Tensor spec_float.
(** [str(e)] of an exception raised without a message of the code. *)
Variable str_other : PyExc -> string.

Definition str_exc (e : PyExc) : string :=
  match e with
  | ValueError msg => msg
  | _ => str_other e
  end.

(** The two [except] clauses of an endpoint. *)
Definition handle {A} (what : string) (r : Try A) : HTTPException + A :=
  match r with
  | inl (RHttp h) => inl h
  | inl (RExc e) => inl (mkHTTPException 500 (what ++ str_exc e))
  | inr a => inr a
  end.

Definition _read_image_from_upload (upload : UploadFile)
  : HTTPException + Image :=
  let body :=
    res_bind (file_read upload) (fun file_bytes =>
    match file_bytes with
    | [] => inl (ValueError "empty file")
    | _ :: _ =>
        if _is_dicom upload then dicom_bytes_to_pil dcmread file_bytes
        else res_bind (image_open file_bytes) (fun im =>
             inr (convert_RGB im))
    end) in
  match body with
  | inl e => inl (mkHTTPException 400 ("Invalid image/DICOM: " ++ str_exc e))
  | inr pil_img => inr pil_img
  end.

(** [utils.preprocess_pil_image] *)
Definition preprocess_pil_image (pil_img : Image) : Res (Tensor fnum) :=
  let pil_img :=
    if negb (String.eqb (mode pil_img) "RGB") then convert_RGB pil_img
    else pil_img in
  res_bind (transforms pil_img) (fun tensor_chw =>
  inr (mkTensor (1 :: shape tensor_chw) (data tensor_chw))).

(** [torch.sigmoid(model(x))[0]] *)
Definition class_probabilities (st : AppState) (x : Tensor fnum)
  : Res (Tensor fnum) :=
  res_bind (forward (fst st) (snd st) x) (fun logits =>
  index0 (mkTensor (shape logits) (map sigmoid (data logits)))).

Definition predict (file : UploadFile) (st : AppState)
  : HTTPException + list Prediction :=
  handle "Prediction failed: "
    (try_bind (of_http (_read_image_from_upload file)) (fun pil_img =>
     try_bind (of_res (preprocess_pil_image pil_img)) (fun x =>
     try_bind (of_res (class_probabilities st x)) (fun probs =>
     try_bind (of_res (tolist probs)) (fun probs_list =>
     inr (predictions_of probs_list)))))).

(** Lines 146 to 168 of [predict_cam], which leave [app.state] alone:
    the image, the input, the sorted predictions, the class. *)
Definition cam_request (file : UploadFile) (target_class : option Z)
    (st : AppState) : Try (Image * Tensor fnum * list Prediction * Z) :=
  try_bind (of_http (_read_image_from_upload file)) (fun pil_img =>
  try_bind (of_res (preprocess_pil_image pil_img)) (fun x =>
  try_bind (of_res (class_probabilities st x)) (fun probs =>
  try_bind (of_res (tolist probs)) (fun probs_list =>
  let preds_sorted := predictions_of probs_list in
  try_bind
    (match target_class with
     | None => of_res (np_argmax probs)
     | Some k =>
         if negb ((0 <=? k)%Z && (k <? Z.of_nat (length CHEXNET_LABELS))%Z)
         then inl (RHttp out_of_range)
         else inr k
     end) (fun target_class =>
  inr (pil_img, x, preds_sorted, target_class)))))).

Definition predict_cam (file : UploadFile) (target_class : option Z)
    (st : AppState)
  : AppState * (HTTPException + (list Prediction * option string)) :=
  let what := "Predict+CAM failed: " in
  match cam_request file target_class st with
  | inl r => (st, handle what (inl r))
  | inr (pil_img, x, preds_sorted, target_class) =>
      let '(w, model, r) := __init__ rt (fst st) (snd st) None in
      match r with
      | inl e => ((w, model), handle what (inl (RExc e)))
      | inr cam =>
          let '((w, _), r) := get_cam rt x (Some target_class) (w, cam) in
          match r with
          | inl e => ((w, model), handle what (inl (RExc e)))
          | inr None => ((w, model), inr (preds_sorted, None))
          | inr (Some heatmap) =>
              match tensor_to_base64_overlay bilinear png_bytes b64encode
                      pil_img (Some (to_numpy heatmap)) with
              | inl e => ((w, model), handle what (inl (RExc e)))
              | inr cam_data_uri =>
                  ((w, model), inr (preds_sorted, Some cam_data_uri))
              end
          end
      end
  end.

End Endpoints.

End Api.

Section ApiVocabulary.

Import PIL Utils UtilsDicom GradCAM Api.

Variable dcmread : list byte -> Res Dataset.
Variable image_open : list byte -> Res Image.
Variable transforms : Image -> Res (Tensor fnum).
Variable forward : World -> PyVal -> Tensor fnum -> Res (Tensor fnum).
Variable sigmoid : fnum -> fnum.
Variable str_other : PyExc -> string.

(** The first steps of both endpoints: the decoded image, the model's
    input and the class probabilities of the request. *)
Definition request_probs (file : UploadFile) (st : AppState)
  : Try (Image * Tensor fnum * Tensor fnum) :=
  try_bind (of_http (_read_image_from_upload dcmread image_open str_other
                       file)) (fun pil_img =>
  try_bind (of_res (preprocess_pil_image transforms pil_img)) (fun x =>
  try_bind (of_res (class_probabilities forward sigmoid st x)) (fun probs =>
  inr (pil_img, x, probs)))).

(** The exception that stops the reading of an upload: that of [read];
    the "empty file" of the code when there are no bytes; that of the DICOM
    conversion when the upload is taken for DICOM; that of the decoder
    otherwise. *)
Definition read_raises (file : UploadFile) (e : PyExc) : Prop :=
  file_read file = inl e \/
  (file_read file = inr [] /\ e = ValueError "empty file") \/
  (exists file_bytes,
      file_read file = inr file_bytes /\ file_bytes <> [] /\
      ((_is_dicom file = true /\
        dicom_bytes_to_pil dcmread file_bytes = inl e) \/
       (_is_dicom file = false /\ image_open file_bytes = inl e))).

End ApiVocabulary.

(** The parameters of the sample requests: a decoder that yields a 1x1
    black image, a model with 14 scores whose hooked layer and gradients
    are those of the samples. *)
Module ApiSamples.

Import PIL Utils UtilsDicom GradCAM Api.

Definition bilinear0 (px : list byte) (_ _ : nat * nat) : list byte := px.
Definition png0 (_ : Image) : list byte := [].
Definition b64_0 (_ : list byte) : string := EmptyString.
Definition dcmread0 (_ : list byte) : Res Dataset := inl RuntimeError.
Definition open0 (_ : list byte) : Res Image :=
  inr (L (2, 2) [x10; x20; x30; x40]).
Definition transforms0 (_ : Image) : Res (Tensor fnum) :=
  inr (mkTensor [3; 1; 1] [q 0; q 0; q 0]).
Definition scores14 : Tensor fnum :=
  mkTensor [1; 14] (map q [0; 2; 1; 0; 0; 2; 0; 0; 0; 0; 0; 0; 0; 1]%Z).
Definition forward0 (_ : World) (_ : PyVal) (_ : Tensor fnum)
  : Res (Tensor fnum) := inr scores14.
Definition sigmoid0 (x : fnum) : fnum := x.
Definition rt14 : Runtime :=
  mkRuntime (fun _ _ _ => mkForwardRun [(acts, true)] (inr scores14))
            (fun _ _ _ _ => mkBackwardRun [grads] (inr tt))
            seq_sum seq_mean sample_attr.
Definition rt14_backward_raises : Runtime :=
  mkRuntime (fun _ _ _ => mkForwardRun [(acts, true)] (inr scores14))
            (fun _ _ _ _ => mkBackwardRun [] (inl RuntimeError))
            seq_sum seq_mean sample_attr.
Definition to_numpy0 (t : Tensor fnum) : Tensor spec_float :=
  mkTensor (shape t) (map (fun _ => f32 1 0) (data t)).
Definition str0 (_ : PyExc) : string := "error"%string.
Definition upload0 : UploadFile :=
  mkUploadFile (Some "chest.png"%string) (Some "image/png"%string)
               (inr [x01]).
Definition app0 : AppState := (world0, net false).

End ApiSamples.

Set Implicit Arguments.

(* ===================================================================== *)
(** ** Arithmetic of the normalisation step                               *)
(* ===================================================================== *)

Section NumFacts.

Local Open Scope Q_scope.

Lemma Qltb_true (a b : Q) : Qltb a b = true <-> a < b.
Proof.
  unfold Qltb. rewrite negb_true_iff. split; intro H.
  - apply Qnot_le_lt. intro Hle. apply Qle_bool_iff in Hle. congruence.
  - destruct (Qle_bool b a) eqn:E; [|reflexivity].
    apply Qle_bool_iff in E. exfalso. apply (Qlt_not_le _ _ H E).
Qed.

Lemma Qltb_false (a b : Q) : Qltb a b = false <-> b <= a.
Proof.
  unfold Qltb. rewrite negb_false_iff. apply Qle_bool_iff.
Qed.

(** A rectified value that is finite is a non-negative rational. *)
Lemma relu_finite (x : fnum) :
  isfinite (relu x) = true -> exists q, relu x = Fin q /\ 0 <= q.
Proof.
  destruct x as [a| | |]; simpl; try discriminate.
  - intros _. destruct (Qltb a 0) eqn:E.
    + exists 0. split; [reflexivity|apply Qle_refl].
    + exists a. split; [reflexivity|]. now apply Qltb_false.
  - intros _. exists 0. split; [reflexivity|apply Qle_refl].
Qed.

Lemma fmaximum_Fin (a b : Q) :
  exists m, fmaximum (Fin a) (Fin b) = Fin m /\ a <= m /\ b <= m
            /\ (m = a \/ m = b).
Proof.
  simpl. destruct (Qltb a b) eqn:E.
  - exists b. apply Qltb_true in E. repeat split; auto using Qlt_le_weak, Qle_refl.
  - exists a. apply Qltb_false in E. repeat split; auto using Qle_refl.
Qed.

(** The running maximum over finite values is a bound of all of them and
    is one of them. *)
Lemma fold_maximum_finite (l : list fnum) (a : Q) :
  forallb isfinite l = true ->
  exists m, fold_left fmaximum l (Fin a) = Fin m /\ a <= m
            /\ (forall q, In (Fin q) l -> q <= m)
            /\ (m = a \/ In (Fin m) l).
Proof.
  revert a. induction l as [|x l IH]; intros a Hfin.
  - exists a. simpl. repeat split; auto using Qle_refl. intros q [].
  - simpl in Hfin. apply andb_true_iff in Hfin as [Hx Hl].
    destruct x as [b| | |]; try discriminate.
    destruct (fmaximum_Fin a b) as (m0 & E0 & Ha & Hb & Hsrc).
    destruct (IH m0 Hl) as (m & Em & Hm0 & Hall & Hin).
    exists m. cbn [fold_left]. rewrite E0. repeat split.
    + exact Em.
    + eapply Qle_trans; eassumption.
    + intros q [Hq|Hq].
      * inversion Hq; subst. eapply Qle_trans; eassumption.
      * now apply Hall.
    + destruct Hin as [->|Hin].
      * destruct Hsrc as [->| ->]; [now left|right; now left].
      * right; now right.
Qed.

Lemma tensor_max_finite (l : list fnum) :
  l <> [] -> forallb isfinite l = true ->
  exists m, tensor_max l = inr (Fin m)
            /\ (forall q, In (Fin q) l -> q <= m) /\ In (Fin m) l.
Proof.
  destruct l as [|x l]; [congruence|]. intros _ Hfin.
  simpl in Hfin. apply andb_true_iff in Hfin as [Hx Hl].
  destruct x as [a| | |]; try discriminate.
  destruct (fold_maximum_finite l a Hl) as (m & Em & Ha & Hall & Hin).
  exists m. simpl. rewrite Em. repeat split.
  - intros q [Hq|Hq]; [inversion Hq; subst; exact Ha|now apply Hall].
  - destruct Hin as [->|Hin]; [now left|now right].
Qed.

(* --------------------------------------------------------------------- *)
(** *** Rounding to float32                                               *)

Lemma pow2_pos (e : Z) : 0 < pow2 e.
Proof. apply Qpower_0_lt. reflexivity. Qed.

Lemma pow2_add (a b : Z) : pow2 (a + b) == pow2 a * pow2 b.
Proof. apply Qpower_plus. discriminate. Qed.

Lemma pow2_sub (a b : Z) : pow2 (a - b) == pow2 a / pow2 b.
Proof. apply Qpower_minus. discriminate. Qed.

Lemma pow2_le (a b : Z) : (a <= b)%Z -> pow2 a <= pow2 b.
Proof. intros H. apply Qpower_le_compat_l; [exact H|discriminate]. Qed.

Lemma pow2_lt (a b : Z) : (a < b)%Z -> pow2 a < pow2 b.
Proof. intros H. apply Qpower_lt_compat_l; [exact H|reflexivity]. Qed.

Lemma pow2_Z (e : Z) : (0 <= e)%Z -> pow2 e == inject_Z (2 ^ e).
Proof. intros H. unfold pow2. now rewrite Zpower_Qpower. Qed.

Lemma pow2_le_inv (a b : Z) : pow2 a <= pow2 b -> (a <= b)%Z.
Proof.
  intros H. destruct (Z_le_gt_dec a b) as [|G]; [assumption|].
  exfalso. apply (Qlt_not_le (pow2 b) (pow2 a)); [apply pow2_lt; lia|exact H].
Qed.


Lemma Qmake_bounds (n : Z) (d : positive) (a b : Z) :
  (0 <= a)%Z -> (0 <= b)%Z ->
  (2 ^ a <= n)%Z -> (Z.pos d < 2 ^ b)%Z -> pow2 (a - b) < n # d.
Proof.
  intros Ha Hb Hn Hd.
  rewrite pow2_sub, (pow2_Z Ha), (pow2_Z Hb), Qmake_Qdiv.
  assert (Hd0 : 0 < inject_Z (Z.pos d)) by reflexivity.
  assert (Hb0 : 0 < inject_Z (2 ^ b)).
  { rewrite <- (pow2_Z Hb). apply pow2_pos. }
  assert (Ha0 : 0 < inject_Z (2 ^ a)).
  { rewrite <- (pow2_Z Ha). apply pow2_pos. }
  apply Qlt_shift_div_l; [exact Hd0|].
  unfold Qdiv. rewrite <- Qmult_assoc, (Qmult_comm (/ _)), Qmult_assoc.
  apply Qlt_shift_div_r; [exact Hb0|].
  rewrite <- !inject_Z_mult, <- Zlt_Qlt.
  assert (0 < 2 ^ a)%Z by (apply Z.pow_pos_nonneg; lia).
  nia.
Qed.

Lemma Qmake_bounds_above (n : Z) (d : positive) (a b : Z) :
  (0 <= a)%Z -> (0 <= b)%Z ->
  (n < 2 ^ a)%Z -> (2 ^ b <= Z.pos d)%Z -> n # d < pow2 (a - b).
Proof.
  intros Ha Hb Hn Hd.
  rewrite pow2_sub, (pow2_Z Ha), (pow2_Z Hb), Qmake_Qdiv.
  assert (Hd0 : 0 < inject_Z (Z.pos d)) by reflexivity.
  assert (Hb0 : 0 < inject_Z (2 ^ b)).
  { rewrite <- (pow2_Z Hb). apply pow2_pos. }
  apply Qlt_shift_div_r; [exact Hd0|].
  unfold Qdiv. rewrite <- Qmult_assoc, (Qmult_comm (/ _)), Qmult_assoc.
  apply Qlt_shift_div_l; [exact Hb0|].
  rewrite <- !inject_Z_mult, <- Zlt_Qlt.
  assert (0 < 2 ^ b)%Z by (apply Z.pow_pos_nonneg; lia).
  assert (0 < 2 ^ a)%Z by (apply Z.pow_pos_nonneg; lia).
  nia.
Qed.

(** [ilog2] is the binary exponent of a positive rational. *)
Lemma ilog2_spec (q : Q) :
  0 < q -> pow2 (ilog2 q) <= q /\ q < pow2 (ilog2 q + 1).
Proof.
  destruct q as [n d]. intros Hq.
  assert (Hn : (0 < n)%Z).
  { unfold Qlt in Hq. cbn in Hq. lia. }
  pose proof (Z.log2_spec n Hn) as [Hn1 Hn2].
  pose proof (Z.log2_spec (Z.pos d) eq_refl) as [Hd1 Hd2].
  pose proof (Z.log2_nonneg n) as Ln.
  pose proof (Z.log2_nonneg (Z.pos d)) as Ld.
  unfold ilog2. cbn [Qnum Qden].
  set (a := Z.log2 n) in *. set (b := Z.log2 (Z.pos d)) in *.
  destruct (Qle_bool (pow2 (a - b)) (n # d)) eqn:E.
  - split; [now apply Qle_bool_iff|].
    replace (a - b + 1)%Z with (Z.succ a - b)%Z by lia.
    apply Qmake_bounds_above; lia.
  - split.
    + apply Qlt_le_weak.
      replace (a - b - 1)%Z with (a - Z.succ b)%Z by lia.
      apply Qmake_bounds; lia.
    + replace (a - b - 1 + 1)%Z with (a - b)%Z by lia.
      apply Qnot_le_lt. intros H. apply Qle_bool_iff in H. congruence.
Qed.

Lemma round_half_even_bounds (q : Q) :
  (Qfloor q <= round_half_even q <= Qfloor q + 1)%Z.
Proof.
  unfold round_half_even.
  destruct (Qcompare _ _); [destruct (Z.even _)| |]; lia.
Qed.

(** Rounding to the nearest integer does not cross an integer. *)
Lemma round_half_even_le (q : Q) (n : Z) :
  q <= inject_Z n -> (round_half_even q <= n)%Z.
Proof.
  intros H. pose proof (Qfloor_le q) as Hf.
  assert (Hfn : (Qfloor q <= n)%Z).
  { rewrite Zle_Qle. eapply Qle_trans; eassumption. }
  destruct (Z.eq_dec (Qfloor q) n) as [E|NE].
  - (* q is the integer n *)
    assert (Hq : q == inject_Z n).
    { apply Qle_antisym; [exact H|]. rewrite <- E. exact Hf. }
    unfold round_half_even. rewrite E.
    assert (Hc : Qcompare (q - inject_Z n) (1 # 2) = Lt).
    { apply Qlt_alt. assert (Hz : q - inject_Z n == 0) by (rewrite Hq; ring).
      rewrite Hz. reflexivity. }
    rewrite Hc. lia.
  - pose proof (round_half_even_bounds q). lia.
Qed.

Lemma round_half_even_ge (q : Q) (n : Z) :
  inject_Z n <= q -> (n <= round_half_even q)%Z.
Proof.
  intros H. pose proof (round_half_even_bounds q) as [Hb _].
  assert (Hf : (n <= Qfloor q)%Z).
  { rewrite <- (Qfloor_Z n). now apply Qfloor_resp_le. }
  lia.
Qed.


Lemma pow2_opp_mul (e : Z) : pow2 (- e) * pow2 e == 1.
Proof. rewrite <- pow2_add. replace (- e + e)%Z with 0%Z by lia. reflexivity. Qed.

Lemma div_pow2 (a : Q) (e : Z) : a / pow2 e == a * pow2 (- e).
Proof.
  unfold Qdiv. apply Qmult_comp; [reflexivity|]. unfold pow2.
  now rewrite Qpower_opp.
Qed.

(** What [round32_pos] returns: a multiple [m * 2^e] of the spacing at
    [a], below [2^128]. *)
Lemma round32_pos_cases (a : Q) :
  let e := Z.max (ilog2 a - 23) (-149) in
  let m := round_half_even (a / pow2 e) in
  (round32_pos a = None /\ pow2 128 <= inject_Z m * pow2 e) \/
  (exists r, round32_pos a = Some r /\ r == inject_Z m * pow2 e /\
             inject_Z m * pow2 e < pow2 128).
Proof.
  intros e m. unfold round32_pos. fold e. fold m.
  destruct (Qle_bool (pow2 128) (inject_Z m * pow2 e)) eqn:E.
  - left. split; [reflexivity|now apply Qle_bool_iff].
  - right. eexists. split; [reflexivity|]. split; [apply Qred_correct|].
    apply Qnot_le_lt. intros H. apply Qle_bool_iff in H. congruence.
Qed.

(** A value in [0, 1] is rounded to a value in [0, 1]. *)
Lemma round32_pos_unit (a : Q) :
  0 < a -> a <= 1 -> exists r, round32_pos a = Some r /\ 0 <= r /\ r <= 1.
Proof.
  intros H0 H1.
  destruct (ilog2_spec H0) as [Hl _].
  assert (Hk : (ilog2 a <= 0)%Z).
  { apply pow2_le_inv. eapply Qle_trans; [exact Hl|exact H1]. }
  pose proof (round32_pos_cases a) as Hc. cbv zeta in Hc.
  set (e := Z.max (ilog2 a - 23) (-149)) in *.
  set (m := round_half_even (a / pow2 e)) in *.
  assert (He : (0 <= - e)%Z) by lia.
  assert (Hm0 : (0 <= m)%Z).
  { apply round_half_even_ge. rewrite div_pow2.
    apply Qmult_le_0_compat; [now apply Qlt_le_weak|].
    apply Qlt_le_weak, pow2_pos. }
  assert (Hm1 : (m <= 2 ^ (- e))%Z).
  { apply round_half_even_le. rewrite div_pow2, <- (pow2_Z He).
    rewrite <- (Qmult_1_l (pow2 (- e))) at 2.
    apply Qmult_le_compat_r; [exact H1|apply Qlt_le_weak, pow2_pos]. }
  assert (Hr1 : inject_Z m * pow2 e <= 1).
  { rewrite <- (pow2_opp_mul e), (pow2_Z He).
    apply Qmult_le_compat_r; [now rewrite <- Zle_Qle|].
    apply Qlt_le_weak, pow2_pos. }
  assert (Hr0 : 0 <= inject_Z m * pow2 e).
  { apply Qmult_le_0_compat; [now rewrite <- (Zle_Qle 0)|].
    apply Qlt_le_weak, pow2_pos. }
  destruct Hc as [(_ & Hov)|(r & Er & Hr & _)].
  - exfalso. apply (Qlt_not_le 1 (pow2 128)); [reflexivity|].
    eapply Qle_trans; eassumption.
  - exists r. split; [exact Er|]. rewrite Hr. split; assumption.
Qed.

Lemma round32_unit (q : Q) :
  0 <= q -> q <= 1 -> exists r, round32 q = Fin r /\ 0 <= r /\ r <= 1.
Proof.
  intros H0 H1. unfold round32. destruct q as [n d]. cbn [Qnum].
  destruct n as [|p|p].
  - exists 0. split; [reflexivity|]. split; [apply Qle_refl|discriminate].
  - destruct (@round32_pos_unit (Z.pos p # d)) as (r & -> & Hr);
      [reflexivity|exact H1|]. now exists r.
  - exfalso. apply (Qlt_not_le (Z.neg p # d) 0); [reflexivity|exact H0].
Qed.

(** A positive result of the rounding is a value of the format. *)
Lemma round32_pos_on_grid (a r : Q) :
  0 < a -> round32_pos a = Some r -> r == 0 \/ on_grid r.
Proof.
  intros H0 E.
  destruct (ilog2_spec H0) as [_ Hu].
  pose proof (round32_pos_cases a) as Hc. cbv zeta in Hc.
  set (e := Z.max (ilog2 a - 23) (-149)) in *.
  set (m := round_half_even (a / pow2 e)) in *.
  destruct Hc as [(E' & _)|(r' & E' & Hr & _)]; [congruence|].
  rewrite E in E'. inversion E'; subst r'. clear E'.
  assert (Hm0 : (0 <= m)%Z).
  { apply round_half_even_ge. rewrite div_pow2.
    apply Qmult_le_0_compat; [now apply Qlt_le_weak|].
    apply Qlt_le_weak, pow2_pos. }
  assert (Hm1 : (m <= 2 ^ 24)%Z).
  { apply round_half_even_le. rewrite div_pow2.
    change (inject_Z (2 ^ 24)) with (pow2 24).
    apply Qlt_le_weak. eapply Qlt_le_trans.
    - apply Qmult_lt_compat_r; [apply pow2_pos|exact Hu].
    - rewrite <- pow2_add. apply pow2_le. lia. }
  destruct (Z.eq_dec m 0) as [Z0|NZ].
  - left. rewrite Hr, Z0. ring.
  - right. destruct (Z.eq_dec m (2 ^ 24)) as [Emax|NE].
    + exists (2 ^ 23)%Z, (e + 1)%Z. split; [|split; [lia|lia]].
      rewrite Hr, Emax, pow2_add.
      change (inject_Z (2 ^ 24)) with (inject_Z (2 ^ 23) * pow2 1). ring.
    + exists m, e. split; [exact Hr|]. split; lia.
Qed.

(** Rounding a value that is not below a value of the format gives a value
    that is not below it either. *)
Lemma round32_pos_above (f q : Q) :
  on_grid f -> f <= q ->
  round32_pos q = None \/ exists r, round32_pos q = Some r /\ f <= r.
Proof.
  intros (k & e & Hf & He & Hk) Hq.
  assert (Hf0 : 0 < f).
  { rewrite Hf. apply Qmult_lt_0_compat; [|apply pow2_pos].
    rewrite <- (Zlt_Qlt 0). lia. }
  assert (H0 : 0 < q) by (eapply Qlt_le_trans; eassumption).
  destruct (ilog2_spec H0) as [Hl _].
  pose proof (round32_pos_cases q) as Hc. cbv zeta in Hc.
  set (g := Z.max (ilog2 q - 23) (-149)) in *.
  set (m := round_half_even (q / pow2 g)) in *.
  destruct Hc as [(E & _)|(r & E & Hr & _)]; [now left|].
  right. exists r. split; [exact E|]. rewrite Hr.
  destruct (Z_le_gt_dec g e) as [Hge|Hge].
  - (* [f] is a multiple of the spacing at [q] *)
    assert (Hd : (0 <= e - g)%Z) by lia.
    assert (Hfg : f == inject_Z (k * 2 ^ (e - g)) * pow2 g).
    { rewrite Hf, inject_Z_mult, <- (pow2_Z Hd), <- Qmult_assoc, <- pow2_add.
      replace (e - g + g)%Z with e by lia. reflexivity. }
    assert (Hm : (k * 2 ^ (e - g) <= m)%Z).
    { apply round_half_even_ge. apply Qle_shift_div_l; [apply pow2_pos|].
      rewrite <- Hfg. exact Hq. }
    rewrite Hfg. apply Qmult_le_compat_r; [now rewrite <- Zle_Qle|].
    apply Qlt_le_weak, pow2_pos.
  - (* [q] is a binade above [f] *)
    assert (Hg : g = (ilog2 q - 23)%Z) by lia.
    assert (Hm : (2 ^ 23 <= m)%Z).
    { apply round_half_even_ge. apply Qle_shift_div_l; [apply pow2_pos|].
      change (inject_Z (2 ^ 23)) with (pow2 23). rewrite <- pow2_add.
      replace (23 + g)%Z with (ilog2 q) by lia. exact Hl. }
    apply Qle_trans with (inject_Z (2 ^ 23) * pow2 g).
    + rewrite Hf. change (inject_Z (2 ^ 23)) with (pow2 23).
      rewrite <- pow2_add.
      apply Qle_trans with (pow2 24 * pow2 e).
      * apply Qmult_le_compat_r; [|apply Qlt_le_weak, pow2_pos].
        change (pow2 24) with (inject_Z (2 ^ 24)). rewrite <- Zle_Qle. lia.
      * rewrite <- pow2_add. apply pow2_le. lia.
    + apply Qmult_le_compat_r; [now rewrite <- Zle_Qle|].
      apply Qlt_le_weak, pow2_pos.
Qed.

Lemma round32_of_pos (q : Q) :
  0 < q ->
  round32 q = match round32_pos q with Some r => Fin r | None => PInf end.
Proof.
  destruct q as [n d]. intros H. unfold round32. cbn [Qnum].
  destruct n as [|p|p]; [discriminate H|reflexivity|discriminate H].
Qed.

Lemma on_grid_pos (f : Q) : on_grid f -> 0 < f.
Proof.
  intros (k & e & Hf & _ & Hk). rewrite Hf.
  apply Qmult_lt_0_compat; [|apply pow2_pos]. rewrite <- (Zlt_Qlt 0). lia.
Qed.

(** A positive element of a rectified float32 map is a value of the
    format. *)
Lemma relu_cast32_on_grid (x : fnum) (m : Q) :
  relu (cast32 x) = Fin m -> 0 < m -> on_grid m.
Proof.
  assert (Hz : forall r, relu (Fin r) = Fin m -> 0 < m -> m = r).
  { intros r H Hm. cbn in H. destruct (Qltb r 0); inversion H; subst;
      [discriminate Hm|reflexivity]. }
  destruct x as [q| | |]; cbn [cast32]; try (cbn; discriminate).
  - destruct q as [n d]. unfold round32. cbn [Qnum].
    destruct n as [|p|p].
    + intros H Hm. pose proof (Hz _ H Hm) as Em. subst m. discriminate Hm.
    + destruct (round32_pos (Z.pos p # d)) as [r|] eqn:E; [|cbn; discriminate].
      intros H Hm. pose proof (Hz _ H Hm) as Em. subst m.
      destruct (@round32_pos_on_grid (Z.pos p # d) r) as [Hr|Hr];
        [reflexivity|exact E| |exact Hr].
      lra.
    + destruct (round32_pos (- (Z.neg p # d))) as [r|] eqn:E;
        [|cbn; intros H Hm; inversion H; subst; discriminate Hm].
      intros H Hm. pose proof (Hz _ H Hm) as Em. subst m. exfalso.
      destruct (@round32_pos_on_grid (- (Z.neg p # d)) r) as [Hr|Hr];
        [reflexivity|exact E| |].
      * lra.
      * apply on_grid_pos in Hr. lra.
  - cbn. intros H Hm. inversion H; subst. discriminate Hm.
Qed.

Lemma eps_positive : exists e, eps = Fin e /\ 0 < e.
Proof. eexists. split; [vm_compute; reflexivity|reflexivity]. Qed.

(** Division by the maximum plus [1e-12] lands in [0, 1]. *)
Lemma scaled_in_unit (a m : Q) :
  0 <= a -> a <= m -> on_grid m ->
  exists r, fdiv (Fin a) (fadd (Fin m) eps) = Fin r /\ 0 <= r /\ r <= 1.
Proof.
  intros Ha Ham Hg. pose proof (on_grid_pos Hg) as Hm.
  destruct eps_positive as (e & -> & He). cbn [fadd].
  assert (Hd : 0 < m + e) by lra.
  rewrite (round32_of_pos Hd).
  destruct (@round32_pos_above m (m + e) Hg) as [->|(d & -> & Hmd)]; [lra| |].
  - exists 0. split; [reflexivity|]. split; [apply Qle_refl|discriminate].
  - assert (Hd0 : 0 < d) by lra.
    cbn [fdiv]. unfold Qzero. destruct (Qeq_bool d 0) eqn:E.
    + apply Qeq_bool_iff in E. rewrite E in Hd0. discriminate Hd0.
    + apply round32_unit.
      * apply Qle_shift_div_l; [exact Hd0|]. lra.
      * apply Qle_shift_div_r; [exact Hd0|]. lra.
Qed.

End NumFacts.

(** What [normalize] returns: either every element divided by the maximum
    plus epsilon, or zeros of the same shape. *)
Lemma normalize_cases (cam hm : Tensor fnum) :
  normalize cam = inr hm ->
  shape hm = shape cam /\
  ((forallb isfinite (data cam) = true /\
    exists m, tensor_max (data cam) = inr m /\ fltb zero m = true /\
              data hm = map (fun x => fdiv x (fadd m eps)) (data cam))
   \/
   ((forallb isfinite (data cam) = false \/
     exists m, tensor_max (data cam) = inr m /\ fltb zero m = false) /\
    data hm = repeat zero (length (data cam)))).
Proof.
  unfold normalize. intros H.
  assert (Hz : forall l : list fnum, map (fun _ => zero) l = repeat zero (length l)).
  { induction l; simpl; congruence. }
  destruct (forallb isfinite (data cam)) eqn:Hfin.
  - destruct (tensor_max (data cam)) as [e|m] eqn:Hmax; cbn [res_bind] in H;
      [discriminate|].
    destruct (fltb zero m) eqn:Hpos; cbn [res_bind] in H.
    + inversion H; subst; simpl. split; [reflexivity|]. left.
      split; [reflexivity|]. exists m. auto.
    + inversion H; subst; simpl. split; [reflexivity|]. right.
      split; [right; exists m; auto|apply Hz].
  - inversion H; subst; simpl. split; [reflexivity|]. right.
    split; [now left|apply Hz].
Qed.

(** On a rectified float32 map the normalised values lie in [0, 1]. *)
Lemma normalize_range (sh : list nat) (l : list fnum) (hm : Tensor fnum) :
  normalize (mkTensor sh (map relu (map cast32 l))) = inr hm ->
  forall x, In x (data hm) -> in_unit x.
Proof.
  intros H x Hx.
  destruct (normalize_cases _ H) as (_ & [(Hfin & m & Hmax & Hpos & Hd)|(_ & Hd)]);
    cbn [data shape] in *.
  - rewrite Hd in Hx. apply in_map_iff in Hx as (y & <- & Hy).
    assert (Hy' := Hy).
    apply in_map_iff in Hy as (z0 & <- & Hz0).
    assert (Hne : map relu (map cast32 l) <> [])
      by (destruct (map cast32 l); [destruct Hz0|discriminate]).
    destruct (tensor_max_finite Hne Hfin) as (m' & Em & Hall & Hin).
    rewrite Em in Hmax. inversion Hmax; subst m.
    assert (Hf : isfinite (relu z0) = true).
    { rewrite forallb_forall in Hfin. now apply Hfin. }
    destruct (relu_finite _ Hf) as (a & Ea & Ha). rewrite Ea.
    assert (Ham : (a <= m')%Q).
    { apply Hall. rewrite <- Ea. exact Hy'. }
    assert (Hm : (0 < m')%Q) by (simpl in Hpos; now apply Qltb_true).
    assert (Hg : on_grid m').
    { apply in_map_iff in Hin as (u & Eu & Hu).
      apply in_map_iff in Hu as (v & <- & _).
      exact (relu_cast32_on_grid _ Eu Hm). }
    destruct (scaled_in_unit Ha Ham Hg) as (r & -> & Hr). exact Hr.
  - rewrite Hd in Hx. apply repeat_spec in Hx. subst x. simpl.
    split; [apply Qle_refl|discriminate].
Qed.

(* ===================================================================== *)
(** ** The combination step, element by element                           *)
(* ===================================================================== *)

Section ListFacts.

Context {A : Type}.

Lemma firstn_map_nth (d : A) (k : nat) (l : list A) :
  k <= length l -> firstn k l = map (fun p => nth p l d) (seq 0 k).
Proof.
  revert l. induction k as [|k IH]; intros l Hk; [reflexivity|].
  destruct l as [|x l]; [simpl in Hk; lia|].
  cbn [firstn seq map nth]. f_equal.
  rewrite <- seq_shift, map_map. simpl in Hk. rewrite (IH l) by lia.
  reflexivity.
Qed.

Lemma nth_skipn (d : A) (s p : nat) (l : list A) :
  nth p (skipn s l) d = nth (s + p) l d.
Proof.
  revert l. induction s as [|s IH]; intros l; [reflexivity|].
  destruct l as [|x l]; [destruct p; reflexivity|]. simpl. apply IH.
Qed.

Lemma firstn_skipn_nth (d : A) (k s : nat) (l : list A) :
  s + k <= length l ->
  firstn k (skipn s l) = map (fun p => nth (s + p) l d) (seq 0 k).
Proof.
  intros H. rewrite (firstn_map_nth d).
  - apply map_ext. intros p. apply nth_skipn.
  - rewrite length_skipn. lia.
Qed.

Lemma nth_firstn_lt (d : A) (i n : nat) (l : list A) :
  i < n -> nth i (firstn n l) d = nth i l d.
Proof.
  revert i l. induction n as [|n IH]; intros i l Hi; [lia|].
  destruct l as [|x l]; [reflexivity|].
  destruct i as [|i]; [reflexivity|]. simpl. apply IH. lia.
Qed.

Lemma chunks_map_seq (n k : nat) (l : list A) :
  chunks n k l = map (fun c => firstn k (skipn (c * k) l)) (seq 0 n).
Proof.
  revert l. induction n as [|n IH]; intros l; [reflexivity|].
  cbn [chunks seq map]. f_equal. rewrite IH, <- seq_shift, map_map.
  apply map_ext. intros c. rewrite skipn_skipn. f_equal. f_equal. simpl. lia.
Qed.

Lemma nth_map_seq (f : nat -> A) (d : A) (n p : nat) :
  p < n -> nth p (map f (seq 0 n)) d = f p.
Proof.
  intros Hp. rewrite (nth_indep _ d (f 0)) by (rewrite length_map, length_seq; lia).
  rewrite map_nth, seq_nth by lia. reflexivity.
Qed.

Lemma seq_from (s n : nat) : seq s n = map (fun j => s + j) (seq 0 n).
Proof.
  revert s. induction n as [|n IH]; intros s; [reflexivity|].
  cbn [seq map]. f_equal; [lia|].
  rewrite (IH (S s)), <- (seq_shift n 0), map_map.
  apply map_ext. intros j. lia.
Qed.

Lemma map_seq_flat (f : nat -> A) (H W : nat) :
  map f (seq 0 (H * W))
  = flat_map (fun i => map (fun j => f (i * W + j)) (seq 0 W)) (seq 0 H).
Proof.
  induction H as [|H IH]; [reflexivity|].
  replace (S H * W) with (H * W + W) by lia.
  rewrite seq_app, map_app, IH, seq_S, flat_map_app. f_equal.
  cbn [flat_map]. rewrite app_nil_r. cbn [Nat.add].
  rewrite (seq_from (H * W) W), map_map. reflexivity.
Qed.

End ListFacts.

Section CombineFacts.

Lemma zip_with_length {A B C} (f : A -> B -> C) (a : list A) (b : list B) :
  length (zip_with f a b) = Nat.min (length a) (length b).
Proof.
  revert b. induction a as [|x a IH]; intros [|y b]; simpl; auto.
Qed.

Lemma zip_with_nth {A B C} (f : A -> B -> C) (a : list A) (b : list B)
      (p : nat) (d : C) (da : A) (db : B) :
  p < length a -> p < length b ->
  nth p (zip_with f a b) d = f (nth p a da) (nth p b db).
Proof.
  revert b p. induction a as [|x a IH]; intros [|y b] p Ha Hb;
    simpl in *; try lia.
  destruct p as [|p]; [reflexivity|]. apply IH; lia.
Qed.

Lemma zip_with_map_seq {A B C} (f : A -> B -> C) (g : nat -> A)
      (h : nat -> B) (n : nat) :
  zip_with f (map g (seq 0 n)) (map h (seq 0 n))
  = map (fun c => f (g c) (h c)) (seq 0 n).
Proof.
  generalize 0. induction n as [|n IH]; intros s; [reflexivity|].
  simpl. f_equal. apply IH.
Qed.

(** Plane [c] of batch entry 0 of a well-formed 4-dimensional tensor. *)
Lemma plane_of_batch0 (l : list fnum) (N C H W c : nat) :
  length l = numel [N; C; H; W] -> 0 < N -> c < C ->
  firstn (H * W) (skipn (c * (H * W)) (firstn (numel [C; H; W]) l))
  = map (fun p => nth (c * (H * W) + p) l NaN) (seq 0 (H * W)).
Proof.
  intros Hlen HN Hc. cbn [numel fold_right] in *.
  rewrite Nat.mul_1_r in *.
  assert (Hfit : c * (H * W) + H * W <= C * (H * W)) by nia.
  rewrite (firstn_skipn_nth NaN).
  - apply map_ext_in. intros p Hp. apply in_seq in Hp.
    apply nth_firstn_lt. nia.
  - rewrite length_firstn, Hlen. nia.
Qed.

End CombineFacts.

Lemma nth_map_lt {A B} (f : A -> B) (l : list A) (p : nat) (d : B) (d' : A) :
  p < length l -> nth p (map f l) d = f (nth p l d').
Proof.
  intros Hp. rewrite (nth_indep _ d (f d')) by (rewrite length_map; exact Hp).
  apply map_nth.
Qed.

Lemma chunks_length {A} (n k : nat) (l : list A) : length (chunks n k l) = n.
Proof. rewrite chunks_map_seq, length_map, length_seq. reflexivity. Qed.

(** The code's combination step computes the map of the specification. *)
Lemma weighted_relu_map_spec (rt : Runtime) (acts grads : Tensor fnum)
      (N C H W Ng Hg Wg : nat) :
  shape acts = [N; C; H; W] -> shape grads = [Ng; C; Hg; Wg] ->
  wf_tensor acts -> wf_tensor grads -> 0 < N -> 0 < Ng ->
  exists cam,
    weighted_relu_map rt acts grads = inr cam /\
    shape cam = [H; W] /\
    length (data cam) = H * W /\
    forall i j, i < H -> j < W ->
      nth (i * W + j) (data cam) NaN = grad_cam_spec rt acts grads i j.
Proof.
  destruct acts as [sa ad], grads as [sg gd]. unfold wf_tensor.
  cbn [shape data]. intros -> -> Hla Hlg HN HNg.
  assert (EN : (N =? 0) = false) by (apply Nat.eqb_neq; lia).
  assert (ENg : (Ng =? 0) = false) by (apply Nat.eqb_neq; lia).
  unfold weighted_relu_map, index0. cbn [shape data]. rewrite EN, ENg.
  cbn [res_bind]. unfold mean_dim12. cbn [shape data res_bind].
  unfold scale_planes. cbn [shape data].
  rewrite length_map, chunks_length, Nat.eqb_refl. cbn [res_bind].
  eexists. split; [reflexivity|]. cbn [shape data].
  (* the planes and the weights as functions of the channel *)
  set (wt := fun c =>
         cast32 (torch_mean rt (map (fun p => nth (c * (Hg * Wg) + p) gd NaN)
                                    (seq 0 (Hg * Wg))))).
  set (pl := fun c => map (fun p => nth (c * (H * W) + p) ad NaN)
                          (seq 0 (H * W))).
  assert (Ew : map (fun plane => cast32 (torch_mean rt plane))
                   (chunks C (Hg * Wg) (firstn (numel [C; Hg; Wg]) gd))
               = map wt (seq 0 C)).
  { rewrite chunks_map_seq, map_map. apply map_ext_in. intros c Hc.
    apply in_seq in Hc. unfold wt.
    rewrite (@plane_of_batch0 gd Ng C Hg Wg c) by (auto; lia). reflexivity. }
  assert (Ep : chunks C (H * W) (firstn (numel [C; H; W]) ad) = map pl (seq 0 C)).
  { rewrite chunks_map_seq. apply map_ext_in. intros c Hc.
    apply in_seq in Hc. unfold pl.
    apply (@plane_of_batch0 ad N C H W c); auto; lia. }
  rewrite Ew, Ep, zip_with_map_seq.
  split; [reflexivity|]. split.
  - unfold sum_dim0. rewrite !length_map. apply length_seq.
  - intros i j Hi Hj.
    assert (Hp : i * W + j < H * W) by nia.
    change NaN with (relu NaN) at 1. rewrite map_nth. unfold grad_cam_spec.
    f_equal. unfold sum_dim0. rewrite nth_map_seq by exact Hp.
    unfold weighted_sum_spec, channels. cbn [shape].
    f_equal. f_equal. rewrite map_map. apply map_ext_in. intros c Hc.
    apply in_seq in Hc.
    rewrite (nth_map_lt _ _ NaN NaN)
      by (unfold pl; rewrite length_map, length_seq; exact Hp).
    unfold pl. rewrite nth_map_seq by exact Hp.
    unfold at4. cbn [shape data]. f_equal.
    + unfold channel_weight_spec, spatial_dims, wt. cbn [shape].
      f_equal. f_equal.
      rewrite (map_seq_flat (fun p => nth (c * (Hg * Wg) + p) gd NaN)).
      apply flat_map_ext. intros a. apply map_ext. intros b.
      unfold at4. cbn [shape data]. f_equal. ring.
    + f_equal. ring.
Qed.

(* ===================================================================== *)
(** ** Steps of [get_cam]                                                 *)
(* ===================================================================== *)

Section GetCamSteps.

Import GradCAM.
Local Open Scope py_scope.

Lemma bind_ok {A B} (c : M A) (k : A -> M B) (s s' : St) (b : B) :
  bind c k s = (s', inr b) ->
  exists s1 a, c s = (s1, inr a) /\ k a s1 = (s', inr b).
Proof.
  unfold bind. destruct (c s) as [s1 [e|a]]; intros H; [discriminate|].
  now exists s1, a.
Qed.

Lemma bind_raise {A B} (c : M A) (k : A -> M B) (s s1 : St) (e : PyExc) :
  c s = (s1, inl e) -> bind c k s = (s1, inl e).
Proof. unfold bind. now intros ->. Qed.

Lemma bind_step {A B} (c : M A) (k : A -> M B) (s s1 : St) (a : A) :
  c s = (s1, inr a) -> bind c k s = k a s1.
Proof. unfold bind. now intros ->. Qed.

Lemma get_cam_unfold (rt : Runtime) (inp : Tensor fnum) (tc : option Z)
      (s : St) :
  get_cam rt inp tc s =
  if is_none (_target_module (snd s))
  then (py_print msg_no_target ;;; ret None) s
  else (_clear_captures ;;;
        instrumented_pass rt inp tc ;;;
        heatmap_of_captures rt) s.
Proof.
  unfold get_cam. unfold bind at 1. unfold get_self. cbn [snd].
  destruct (is_none (_target_module (snd s))); reflexivity.
Qed.

Lemma clear_captures_run (s : St) :
  _clear_captures s
  = ((fst s, set_gradients None (set_activations None (snd s))), inr tt).
Proof. reflexivity. Qed.

(** A heatmap comes out of the captures only through the combination and
    the normalisation, and the step changes nothing. *)
Lemma heatmap_of_captures_some (rt : Runtime) (s s' : St)
      (hm : Tensor fnum) :
  heatmap_of_captures rt s = (s', inr (Some hm)) ->
  s' = s /\
  exists acts grads cam,
    _activations (snd s) = Some acts /\ _gradients (snd s) = Some grads /\
    dim acts = 4 /\ dim grads = 4 /\
    weighted_relu_map rt acts grads = inr cam /\ normalize cam = inr hm.
Proof.
  unfold heatmap_of_captures, bind, get_self, lift, ret.
  destruct (_activations (snd s)) as [acts|] eqn:Ea;
    destruct (_gradients (snd s)) as [grads|] eqn:Eg;
    try (unfold py_print, bind, get_world, put_world; cbn; congruence).
  destruct (dim acts =? 4) eqn:Da; destruct (dim grads =? 4) eqn:Dg;
    cbn [negb orb];
    try (unfold py_print, bind, get_world, put_world; cbn; congruence).
  destruct (weighted_relu_map rt acts grads) as [e|cam] eqn:Ec; [congruence|].
  destruct (normalize cam) as [e|hm'] eqn:En; [congruence|].
  intros H. inversion H; subst. split; [reflexivity|].
  exists acts, grads, cam. apply Nat.eqb_eq in Da, Dg. auto 10.
Qed.

Lemma get_cam_some (rt : Runtime) (inp : Tensor fnum) (tc : option Z)
      (s s' : St) (hm : Tensor fnum) :
  get_cam rt inp tc s = (s', inr (Some hm)) ->
  exists acts grads cam,
    _activations (snd s') = Some acts /\ _gradients (snd s') = Some grads /\
    dim acts = 4 /\ dim grads = 4 /\
    weighted_relu_map rt acts grads = inr cam /\ normalize cam = inr hm.
Proof.
  rewrite get_cam_unfold.
  destruct (is_none (_target_module (snd s))).
  - unfold py_print, bind, get_world, put_world, ret. cbn. congruence.
  - intros H. apply bind_ok in H as (s1 & [] & _ & H).
    apply bind_ok in H as (s2 & [] & _ & H).
    apply heatmap_of_captures_some in H as (-> & H). exact H.
Qed.

Lemma weighted_relu_map_rectified (rt : Runtime) (acts grads cam : Tensor fnum) :
  weighted_relu_map rt acts grads = inr cam ->
  exists h w l, cam = mkTensor [h; w] (map relu (map cast32 l)).
Proof.
  unfold weighted_relu_map, res_bind.
  destruct (index0 acts) as [|a0]; [discriminate|].
  destruct (index0 grads) as [|g0]; [discriminate|].
  destruct (mean_dim12 rt g0) as [|ws]; [discriminate|].
  destruct (scale_planes ws a0) as [|[[h w] planes]]; [discriminate|].
  intros H. inversion H.
  exists h, w, (map (fun p => torch_sum rt (map (fun plane => nth p plane NaN)
                                                planes)) (seq 0 (h * w))).
  unfold sum_dim0. rewrite !map_map. reflexivity.
Qed.

End GetCamSteps.

(* ===================================================================== *)
(** ** The heatmap                                                        *)
(* ===================================================================== *)

Section Heatmap.

Import GradCAM Utils.

(** A finite rectified map whose maximum does not exceed zero is zero
    everywhere. *)
Lemma rectified_all_zero (l : list fnum) (m : fnum) :
  forallb isfinite (map relu l) = true ->
  tensor_max (map relu l) = inr m -> fltb zero m = false ->
  forall x, In x (map relu l) -> feq x zero.
Proof.
  intros Hfin Hmax Hpos x Hx.
  assert (Hne : map relu l <> []) by (destruct (map relu l); [destruct Hx|discriminate]).
  destruct (tensor_max_finite Hne Hfin) as (m' & Em & Hall & _).
  rewrite Em in Hmax. inversion Hmax; subst m.
  simpl in Hpos. apply Qltb_false in Hpos.
  assert (Hx' := Hx). apply in_map_iff in Hx' as (z & <- & _).
  assert (Hf : isfinite (relu z) = true).
  { rewrite forallb_forall in Hfin. now apply Hfin. }
  destruct (relu_finite _ Hf) as (a & Ea & Ha). rewrite Ea in *.
  simpl. apply Qle_antisym; [|exact Ha].
  eapply Qle_trans; [apply Hall; exact Hx|exact Hpos].
Qed.

(** The normalisation never raises on a map that has an element. *)
Lemma normalize_total (cam : Tensor fnum) :
  data cam <> [] -> exists hm, normalize cam = inr hm.
Proof.
  intros Hne. unfold normalize.
  destruct (forallb isfinite (data cam)); [|eauto].
  destruct (data cam) as [|x l] eqn:E; [congruence|].
  cbn [tensor_max res_bind].
  destruct (fltb zero (fold_left fmaximum l x)); cbn [res_bind]; eauto.
Qed.

(** C1.  Whenever [get_cam] returns a heatmap, every element of it lies in
    [0, 1].  The heatmap has the shape of the rectified combined map; when
    that map is finite throughout and its maximum exceeds zero, every
    element is the map's element divided by (maximum + 1e-12); otherwise
    (a non-finite element, or zero everywhere) it is 0.0 everywhere.  The
    normalisation raises on no map that has an element: a non-finite or
    all-zero map is answered with zeros, not with an error. *)
Theorem get_cam_heatmap_in_unit_interval :
  (forall (rt : Runtime) (inp : Tensor fnum) (tc : option Z) (s s' : St)
          (hm : Tensor fnum),
      get_cam rt inp tc s = (s', inr (Some hm)) ->
      (forall x, In x (data hm) -> in_unit x) /\
      exists acts grads cam,
        _activations (snd s') = Some acts /\
        _gradients (snd s') = Some grads /\
        weighted_relu_map rt acts grads = inr cam /\
        shape hm = shape cam /\
        ((forallb isfinite (data cam) = true /\
          exists m, tensor_max (data cam) = inr m /\ fltb zero m = true /\
                    data hm = map (fun x => fdiv x (fadd m eps)) (data cam))
         \/
         ((forallb isfinite (data cam) = false \/
           forall x, In x (data cam) -> feq x zero) /\
          data hm = repeat zero (length (data cam)))))
  /\
  (forall cam : Tensor fnum,
      data cam <> [] -> exists hm, normalize cam = inr hm).
Proof.
  split; [|exact normalize_total].
  intros rt inp tc s s' hm H.
  destruct (get_cam_some _ _ _ _ H)
    as (acts & grads & cam & Ea & Eg & _ & _ & Ec & En).
  destruct (weighted_relu_map_rectified _ _ _ Ec) as (h & w & l & ->).
  split; [exact (normalize_range _ _ En)|].
  exists acts, grads, (mkTensor [h; w] (map relu (map cast32 l))).
  repeat (split; [assumption|]).
  destruct (normalize_cases _ En) as (Hs & [Hdiv|([Hnf|(m & Hm & Hz)] & Hd)]);
    cbn [data shape] in *.
  - split; [exact Hs|]. now left.
  - split; [exact Hs|]. right. split; [now left|exact Hd].
  - split; [exact Hs|]. right. split; [|exact Hd].
    destruct (forallb isfinite (map relu (map cast32 l))) eqn:Hfin;
      [right|now left].
    exact (rectified_all_zero (map cast32 l) Hfin Hm Hz).
Qed.

Lemma get_cam_heatmap_in_unit_interval_witness :
  exists s' hm,
    get_cam rt_ok input None (world0, engine0) = (s', inr (Some hm)) /\
    forall x, In x (data hm) -> in_unit x.
Proof.
  eexists. eexists. split; [vm_compute; reflexivity|].
  refine (proj1 (proj1 get_cam_heatmap_in_unit_interval
                       rt_ok input None (world0, engine0) _ _ _)).
  vm_compute. reflexivity.
Defined.

(** An empty map is the one case in which the normalisation raises:
    [cam.max()] has nothing to reduce. *)
Lemma normalize_empty_raises (sh : list nat) :
  normalize (mkTensor sh []) = inl RuntimeError.
Proof. reflexivity. Qed.




(** On every sample mantissa and exponent, and on the negated mantissa,
    [round32] is the rounding of [SpecFloat]: subnormal results, ties,
    underflow to zero and overflow to infinity included. *)
Lemma round32_matches_binary_normalize :
  forallb (fun e =>
             forallb (fun m => rounds_like_binary32 m e
                               && rounds_like_binary32 (- m) e)
                     sample_mantissas)
          sample_exponents
  = true.
Proof. vm_compute. reflexivity. Qed.

(** A product that overflows float32 makes the combined map non-finite,
    and the heatmap is then zero everywhere. *)
Lemma overflow_gives_zero_heatmap :
  let big := round32 (inject_Z (3 * 10 ^ 38)) in
  weighted_relu_map rt_ok (mkTensor [1; 1; 1; 2] [big; q 1])
                          (mkTensor [1; 1; 1; 2] [q 2; q 2])
  = inr (mkTensor [1; 2] [PInf; q 2]) /\
  normalize (mkTensor [1; 2] [PInf; q 2]) = inr (mkTensor [1; 2] [q 0; q 0]).
Proof. split; vm_compute; reflexivity. Qed.

(** The rounding agrees with the binary32 operations of [SpecFloat] on
    sample operands: an inexact quotient, an overflow, the largest finite
    value, a tie at the smallest spacing, a sum that absorbs its smaller
    term. *)
Lemma round32_agrees_with_binary32 :
  fdiv (q 1) (q 3) = fnum_of_float (SFdiv 24 128 (f32 1 0) (f32 3 0)) /\
  fdiv (q (-7)) (q 13) = fnum_of_float (SFdiv 24 128 (f32 (-7) 0) (f32 13 0)) /\
  fmul (fnum_of_float (f32 3 126)) (q 2)
  = fnum_of_float (mul32 (f32 3 126) (f32 2 0)) /\
  fmul (fnum_of_float (f32 3 126)) (q 2) = PInf /\
  fadd (fnum_of_float (f32 16777215 104)) (fnum_of_float (f32 1 102))
  = fnum_of_float (add32 (f32 16777215 104) (f32 1 102)) /\
  fadd (fnum_of_float (f32 16777215 104)) (fnum_of_float (f32 1 103))
  = fnum_of_float (add32 (f32 16777215 104) (f32 1 103)) /\
  fmul (fnum_of_float (f32 3 (-149))) (fnum_of_float (f32 1 (-1)))
  = fnum_of_float (mul32 (f32 3 (-149)) (f32 1 (-1))) /\
  fmul (fnum_of_float (f32 1 (-149))) (fnum_of_float (f32 1 (-1)))
  = fnum_of_float (mul32 (f32 1 (-149)) (f32 1 (-1))) /\
  fadd (q 2) eps = q 2 /\
  fdiv (q 2) (fadd (q 2) eps) = q 1 /\
  fdiv (q 1) (fadd (q 2) eps) = Fin (1 # 2)%Q.
Proof. vm_compute. repeat split; reflexivity. Qed.

End Heatmap.

(* ===================================================================== *)
(** ** Module trees                                                       *)
(* ===================================================================== *)

Section ModuleTrees.

Lemma eval_all_eval (m : PyVal) : all_eval (eval m) = true.
Proof.
  induction m as [|attrs|id cls tr mods attrs IH] using PyVal_modules_ind;
    try reflexivity.
  cbn [eval all_eval negb andb]. rewrite forallb_forall.
  intros p Hp. apply in_map_iff in Hp as (p0 & <- & Hp0). cbn [snd].
  rewrite Forall_forall in IH. now apply IH.
Qed.

Lemma eval_fixes_eval_mode (m : PyVal) : all_eval m = true -> eval m = m.
Proof.
  induction m as [|attrs|id cls tr mods attrs IH] using PyVal_modules_ind;
    try reflexivity.
  cbn [eval all_eval]. intros H. apply andb_true_iff in H as [Htr Hmods].
  apply negb_true_iff in Htr. subst tr. f_equal.
  rewrite forallb_forall in Hmods. rewrite Forall_forall in IH.
  rewrite <- (map_id mods) at 2. apply map_ext_in. intros p Hp.
  rewrite (IH p Hp (Hmods p Hp)). now destruct p.
Qed.

Lemma eval_is_module (m : PyVal) : is_module (eval m) = is_module m.
Proof. destruct m; reflexivity. Qed.

End ModuleTrees.

(* ===================================================================== *)
(** ** What a call leaves untouched                                       *)
(* ===================================================================== *)

Section Frames.

Import GradCAM.
Local Open Scope py_scope.

Lemma preserves_bind (R : St -> St -> Prop) {A B} (c : M A) (k : A -> M B) :
  (forall s1 s2 s3, R s1 s2 -> R s2 s3 -> R s1 s3) ->
  preserves R c -> (forall a, preserves R (k a)) -> preserves R (bind c k).
Proof.
  intros Htrans Hc Hk s. unfold bind. specialize (Hc s).
  destruct (c s) as [s1 [e|a]]; cbn [fst] in *; [exact Hc|].
  eapply Htrans; [exact Hc|apply Hk].
Qed.

Lemma preserves_for_each (R : St -> St -> Prop) {A} (l : list A)
      (body : A -> M unit) :
  (forall s, R s s) ->
  (forall s1 s2 s3, R s1 s2 -> R s2 s3 -> R s1 s3) ->
  (forall a, preserves R (body a)) -> preserves R (for_each l body).
Proof.
  intros Hrefl Htrans Hbody. induction l as [|a l IH]; cbn [for_each].
  - intros s. apply Hrefl.
  - apply preserves_bind; auto.
Qed.

Lemma same_wiring_refl s : same_wiring s s.
Proof. unfold same_wiring. auto. Qed.

Lemma same_wiring_trans s1 s2 s3 :
  same_wiring s1 s2 -> same_wiring s2 s3 -> same_wiring s1 s3.
Proof.
  unfold same_wiring. intros (A1 & B1 & C1 & D1) (A2 & B2 & C2 & D2).
  repeat split; congruence.
Qed.

Lemma same_world_refl s : same_world s s.
Proof. reflexivity. Qed.

Lemma same_world_trans s1 s2 s3 :
  same_world s1 s2 -> same_world s2 s3 -> same_world s1 s3.
Proof. unfold same_world. congruence. Qed.

Lemma same_hooks_refl s : same_hooks s s.
Proof. unfold same_hooks. auto. Qed.

Lemma same_hooks_trans s1 s2 s3 :
  same_hooks s1 s2 -> same_hooks s2 s3 -> same_hooks s1 s3.
Proof. unfold same_hooks. intros [] []. split; congruence. Qed.

Lemma same_world_hooks s s' : same_world s s' -> same_hooks s s'.
Proof. unfold same_world, same_hooks. intros ->. auto. Qed.

Create HintDb frames.
#[local] Hint Resolve same_wiring_refl same_wiring_trans same_world_refl
     same_world_trans same_hooks_refl same_hooks_trans : frames.

(** One [bind] of a frame proof. *)
Ltac frame_bind :=
  apply preserves_bind; [eauto with frames| |intros ?].

Lemma fwd_hook_wiring o : preserves same_wiring (fwd_hook o).
Proof.
  intros [w e]. unfold fwd_hook, bind, get_self, put_self, ret, raise.
  destruct (snd o); cbn; unfold same_wiring; cbn; auto.
Qed.

Lemma fwd_hook_world o : preserves same_world (fwd_hook o).
Proof.
  intros [w e]. unfold fwd_hook, bind, get_self, put_self, ret, raise.
  destruct (snd o); reflexivity.
Qed.

Lemma grad_hook_wiring g : preserves same_wiring (grad_hook g).
Proof. intros [w e]. cbn. unfold same_wiring. cbn. auto. Qed.

Lemma grad_hook_world g : preserves same_world (grad_hook g).
Proof. intros [w e]. reflexivity. Qed.

Lemma lift_preserves (R : St -> St -> Prop) {A} (r : Res A) :
  (forall s, R s s) -> preserves R (lift r).
Proof. intros Hrefl s. apply Hrefl. Qed.

Lemma ret_preserves (R : St -> St -> Prop) {A} (a : A) :
  (forall s, R s s) -> preserves R (ret a).
Proof. intros Hrefl s. apply Hrefl. Qed.

Lemma get_self_preserves (R : St -> St -> Prop) :
  (forall s, R s s) -> preserves R get_self.
Proof. intros Hrefl s. apply Hrefl. Qed.

Lemma call_model_wiring rt inp : preserves same_wiring (call_model rt inp).
Proof.
  unfold call_model. frame_bind; [apply get_self_preserves; auto with frames|].
  frame_bind; [|apply lift_preserves; auto with frames].
  apply preserves_for_each; eauto using fwd_hook_wiring with frames.
Qed.

Lemma call_model_world rt inp : preserves same_world (call_model rt inp).
Proof.
  unfold call_model. frame_bind; [apply get_self_preserves; auto with frames|].
  frame_bind; [|apply lift_preserves; auto with frames].
  apply preserves_for_each; eauto using fwd_hook_world with frames.
Qed.

Lemma backward_wiring rt inp k : preserves same_wiring (backward rt inp k).
Proof.
  unfold backward. apply preserves_bind; [eauto with frames| |intros self].
  - apply get_self_preserves. auto with frames.
  - apply preserves_bind; [eauto with frames| |intros _].
    + destruct (hook_outputs _).
      * apply ret_preserves. auto with frames.
      * apply preserves_for_each; eauto using grad_hook_wiring with frames.
    + apply lift_preserves. auto with frames.
Qed.

Lemma backward_world rt inp k : preserves same_world (backward rt inp k).
Proof.
  unfold backward. apply preserves_bind; [eauto with frames| |intros self].
  - apply get_self_preserves. auto with frames.
  - apply preserves_bind; [eauto with frames| |intros _].
    + destruct (hook_outputs _).
      * apply ret_preserves. auto with frames.
      * apply preserves_for_each; eauto using grad_hook_world with frames.
    + apply lift_preserves. auto with frames.
Qed.

End Frames.

Section HookLifecycle.

Import GradCAM.
Local Open Scope py_scope.

Lemma forward_backward_world rt inp tc :
  preserves same_world (forward_backward rt inp tc).
Proof.
  unfold forward_backward.
  apply preserves_bind;
    [exact same_world_trans|apply call_model_world|intros logits].
  apply preserves_bind; [exact same_world_trans| |intros k].
  { destruct tc; [apply ret_preserves|apply lift_preserves];
      exact same_world_refl. }
  apply preserves_bind; [exact same_world_trans| |intros sel].
  { apply lift_preserves. exact same_world_refl. }
  apply backward_world.
Qed.

Lemma forward_backward_wiring rt inp tc :
  preserves same_wiring (forward_backward rt inp tc).
Proof.
  unfold forward_backward.
  apply preserves_bind;
    [exact same_wiring_trans|apply call_model_wiring|intros logits].
  apply preserves_bind; [exact same_wiring_trans| |intros k].
  { destruct tc; [apply ret_preserves|apply lift_preserves];
      exact same_wiring_refl. }
  apply preserves_bind; [exact same_wiring_trans| |intros sel].
  { apply lift_preserves. exact same_wiring_refl. }
  apply backward_wiring.
Qed.

(** The instrumented pass, run from a state whose target is a module. *)
Lemma instrumented_pass_run rt inp tc (w : World) (e : t)
      id cls tr mods attrs :
  _target_module e = PyModule id cls tr mods attrs ->
  instrumented_pass rt inp tc (w, e) =
  match forward_backward rt inp tc (hooked id w, e) with
  | (s2, inl ex) => (s2, inl ex)
  | (s2, inr _) => ((unhooked (next_handle w) (fst s2), snd s2), inr tt)
  end.
Proof.
  intros Ht. unfold instrumented_pass, bind at 1, get_self. cbn [snd fst].
  rewrite Ht. unfold bind at 1. cbn.
  unfold bind at 1. fold (hooked id w).
  destruct (forward_backward rt inp tc (hooked id w, e)) as [s2 [ex|[]]];
    [reflexivity|].
  destruct s2 as [w2 e2]. reflexivity.
Qed.

Lemma instrumented_pass_not_module rt inp tc (s : St) :
  is_module (_target_module (snd s)) = false ->
  instrumented_pass rt inp tc s = (s, inl AttributeError).
Proof.
  destruct s as [w e]. cbn [snd]. intros Ht.
  unfold instrumented_pass, bind at 1, get_self. cbn [snd fst].
  destruct (_target_module e); try discriminate; reflexivity.
Qed.

Lemma filter_fresh_handle (hooks : list (nat * nat)) (h id : nat) :
  Forall (fun e => fst e < h) hooks ->
  filter (fun e => negb (fst e =? h)) (hooks ++ [(h, id)]) = hooks.
Proof.
  intros Hfresh. rewrite filter_app. cbn [filter fst].
  rewrite Nat.eqb_refl. cbn [negb]. rewrite app_nil_r.
  induction Hfresh as [|x l Hx _ IH]; [reflexivity|].
  cbn [filter]. replace (fst x =? h) with false
    by (symmetry; apply Nat.eqb_neq; lia).
  cbn [negb]. now rewrite IH.
Qed.

(** A pass that completes leaves the hooks as it found them. *)
Lemma instrumented_pass_returns rt inp tc (s s' : St) :
  handles_fresh (fst s) ->
  instrumented_pass rt inp tc s = (s', inr tt) ->
  forward_hooks (fst s') = forward_hooks (fst s) /\
  stdout (fst s') = stdout (fst s) /\
  next_handle (fst s') = S (next_handle (fst s)).
Proof.
  destruct s as [w e]. cbn [fst]. intros Hfresh Hrun.
  destruct (_target_module e) as [| |id cls tr mods attrs] eqn:Ht.
  - rewrite instrumented_pass_not_module in Hrun by (cbn; now rewrite Ht).
    discriminate.
  - rewrite instrumented_pass_not_module in Hrun by (cbn; now rewrite Ht).
    discriminate.
  - rewrite (instrumented_pass_run rt inp tc w e Ht) in Hrun.
    pose proof (forward_backward_world rt inp tc (hooked id w, e)) as Hw.
    unfold same_world in Hw. cbn [fst] in Hw.
    destruct (forward_backward rt inp tc (hooked id w, e)) as [s2 [ex|[]]];
      [discriminate|].
    cbn [fst] in Hw. inversion Hrun; subst s'. cbn [fst]. rewrite Hw.
    cbn. split; [|auto]. apply filter_fresh_handle. exact Hfresh.
Qed.

(** A pass that raises once the hook is registered leaves that hook
    attached. *)
Lemma instrumented_pass_raises rt inp tc (w : World) (e : t) (s' : St)
      (ex : PyExc) id cls tr mods attrs :
  _target_module e = PyModule id cls tr mods attrs ->
  instrumented_pass rt inp tc (w, e) = (s', inl ex) ->
  forward_hooks (fst s') = forward_hooks w ++ [(next_handle w, id)].
Proof.
  intros Ht Hrun. rewrite (instrumented_pass_run rt inp tc w e Ht) in Hrun.
  pose proof (forward_backward_world rt inp tc (hooked id w, e)) as Hw.
  unfold same_world in Hw. cbn [fst] in Hw.
  destruct (forward_backward rt inp tc (hooked id w, e)) as [s2 [ex'|[]]];
    [|discriminate].
  cbn [fst] in Hw. inversion Hrun; subst. rewrite Hw. reflexivity.
Qed.

Lemma instrumented_pass_wiring rt inp tc :
  preserves same_wiring (instrumented_pass rt inp tc).
Proof.
  intros [w e].
  destruct (_target_module e) as [| |id cls tr mods attrs] eqn:Ht.
  - rewrite instrumented_pass_not_module by (cbn; now rewrite Ht).
    apply same_wiring_refl.
  - rewrite instrumented_pass_not_module by (cbn; now rewrite Ht).
    apply same_wiring_refl.
  - rewrite (instrumented_pass_run rt inp tc w e Ht).
    pose proof (forward_backward_wiring rt inp tc (hooked id w, e)) as Hw.
    destruct (forward_backward rt inp tc (hooked id w, e)) as [s2 [ex|[]]];
      exact Hw.
Qed.

Lemma clear_captures_wiring : preserves same_wiring _clear_captures.
Proof. intros [w e]. cbn. unfold same_wiring. cbn. auto. Qed.

(** The last step only reads the engine and, at most, prints. *)
Lemma heatmap_of_captures_frame (rt : Runtime) (s : St) :
  snd (fst (heatmap_of_captures rt s)) = snd s /\
  same_hooks s (fst (heatmap_of_captures rt s)).
Proof.
  destruct s as [w e]. unfold heatmap_of_captures, bind, get_self. cbn [snd fst].
  destruct (_activations e) as [acts|]; destruct (_gradients e) as [grads|];
    try (cbn; unfold same_hooks; cbn; auto; fail).
  destruct (negb (dim acts =? 4) || negb (dim grads =? 4));
    [cbn; unfold same_hooks; cbn; auto|].
  unfold lift. destruct (weighted_relu_map rt acts grads) as [ex|cam];
    [cbn; unfold same_hooks; cbn; auto|].
  destruct (normalize cam); cbn; unfold same_hooks; cbn; auto.
Qed.

Lemma get_cam_wiring rt inp tc : preserves same_wiring (get_cam rt inp tc).
Proof.
  intros s. rewrite get_cam_unfold.
  destruct (is_none (_target_module (snd s))).
  - destruct s as [w e]. cbn. unfold same_wiring. cbn. auto.
  - revert s. apply preserves_bind;
      [exact same_wiring_trans|exact clear_captures_wiring|intros _].
    apply preserves_bind;
      [exact same_wiring_trans|apply instrumented_pass_wiring|intros _].
    intros s. destruct (heatmap_of_captures_frame rt s) as [He _].
    unfold same_wiring. rewrite He. auto.
Qed.

(** A call that returns, with a heatmap or with [None], leaves the hooks
    of the model as they were. *)
Lemma get_cam_returns_hooks rt inp tc (s s' : St) (r : option (Tensor fnum)) :
  handles_fresh (fst s) ->
  get_cam rt inp tc s = (s', inr r) ->
  forward_hooks (fst s') = forward_hooks (fst s).
Proof.
  intros Hfresh. rewrite get_cam_unfold.
  destruct (is_none (_target_module (snd s))).
  - destruct s as [w e]. cbn. intros H. inversion H. reflexivity.
  - intros H. apply bind_ok in H as (s1 & [] & Hc & H).
    rewrite clear_captures_run in Hc. inversion Hc; subst s1. clear Hc.
    apply bind_ok in H as (s2 & [] & Hp & H).
    apply instrumented_pass_returns in Hp; [|exact Hfresh].
    destruct Hp as (Hh & _ & _). cbn [fst] in Hh.
    destruct (heatmap_of_captures_frame rt s2) as (_ & Hk & _).
    rewrite H in Hk. cbn [fst] in Hk. congruence.
Qed.

End HookLifecycle.

(* ===================================================================== *)
(** ** Release of the hook                                                *)
(* ===================================================================== *)

Section HookRelease.

Import GradCAM.

(** C3.  The forward hook is not released on every exit path.  On the
    engine of the sample classifier, whose target layer carries no hook
    before the call, a call whose forward pass raises, a call whose class
    index is out of range and a call whose backward pass raises each end
    with the exception and with one hook still attached to the target
    layer; after two such calls two hooks are attached. *)
Theorem get_cam_leaves_hook_when_pass_raises :
  hooks_on 6 world0 = 0 /\
  (exists s', get_cam rt_forward_raises input None (world0, engine0)
              = (s', inl RuntimeError) /\ hooks_on 6 (fst s') = 1) /\
  (exists s', get_cam rt_ok input (Some 7%Z) (world0, engine0)
              = (s', inl IndexError) /\ hooks_on 6 (fst s') = 1) /\
  (exists s', get_cam rt_backward_raises input None (world0, engine0)
              = (s', inl RuntimeError) /\ hooks_on 6 (fst s') = 1) /\
  (exists s' s'',
      get_cam rt_forward_raises input None (world0, engine0)
      = (s', inl RuntimeError) /\
      get_cam rt_ok input (Some 7%Z) s' = (s'', inl IndexError) /\
      hooks_on 6 (fst s'') = 2).
Proof.
  split; [reflexivity|].
  split; [eexists; split; [vm_compute; reflexivity|reflexivity]|].
  split; [eexists; split; [vm_compute; reflexivity|reflexivity]|].
  split; [eexists; split; [vm_compute; reflexivity|reflexivity]|].
  eexists. eexists. split; [vm_compute; reflexivity|].
  split; [vm_compute; reflexivity|reflexivity].
Qed.

(** On every engine whose target is a module, a call that raises after the
    hook is registered ends with one more hook on that module. *)
Lemma get_cam_raise_adds_hook rt inp tc (w : World) (e : t) (s' : St)
      (ex : PyExc) id cls tr mods attrs :
  _target_module e = PyModule id cls tr mods attrs ->
  (_clear_captures ;;; instrumented_pass rt inp tc)%py (w, e) = (s', inl ex) ->
  hooks_on id (fst s') = S (hooks_on id w).
Proof.
  intros Ht Hrun. unfold bind in Hrun. rewrite clear_captures_run in Hrun.
  cbn [fst snd] in Hrun.
  apply instrumented_pass_raises
    with (id := id) (cls := cls) (tr := tr) (mods := mods) (attrs := attrs)
    in Hrun; [|exact Ht].
  unfold hooks_on. rewrite Hrun, filter_app, length_app. cbn [filter snd].
  rewrite Nat.eqb_refl. cbn [length]. lia.
Qed.

End HookRelease.

(* ===================================================================== *)
(** ** Choice of the target layer                                         *)
(* ===================================================================== *)

Section TargetLayer.

Import GradCAM.

Lemma conv_candidates_modules (prefix : string) (m : PyVal) :
  map snd (conv_candidates prefix m) = convs_of m.
Proof.
  unfold conv_candidates, convs_of. rewrite map_map. cbn [snd].
  induction (named_modules m) as [|p l IH]; [reflexivity|].
  cbn [filter map]. destruct (is_conv2d (snd p)); cbn [map]; now rewrite IH.
Qed.

Lemma last_opt_snoc {A} (l : list A) (x : A) : last_opt (l ++ [x]) = Some x.
Proof.
  induction l as [|a l IH]; [reflexivity|].
  cbn [app last_opt]. rewrite IH. destruct (l ++ [x]) eqn:E; [|reflexivity].
  destruct l; discriminate.
Qed.

Lemma last_opt_map_snoc {A B} (f : A -> B) (l : list A) (pre : list B) (c : B) :
  map f l = pre ++ [c] -> exists a, last_opt l = Some a /\ f a = c.
Proof.
  intros H.
  destruct (exists_last (l := l)) as (l' & a & ->).
  { intros ->. destruct pre; discriminate. }
  exists a. split; [apply last_opt_snoc|].
  rewrite map_app in H. cbn [map] in H.
  apply app_inj_tail in H. tauto.
Qed.

Lemma candidates_region (rt : Runtime) (model : PyVal) :
  region_convs rt model <> [] ->
  map snd (candidates_of rt model) = region_convs rt model.
Proof.
  unfold region_convs, feature_region, candidates_of.
  destruct (py_getattr rt model "features") as [f|];
    [|intros H; now contradiction H].
  destruct (is_module f); [|intros H; now contradiction H].
  intros Hne. rewrite <- (conv_candidates_modules "features." f) in Hne |- *.
  destruct (conv_candidates "features." f);
    [cbn in Hne; congruence|reflexivity].
Qed.

Lemma candidates_fallback (rt : Runtime) (model : PyVal) :
  region_convs rt model = [] ->
  map snd (candidates_of rt model) = convs_of model.
Proof.
  unfold region_convs, feature_region, candidates_of.
  destruct (py_getattr rt model "features") as [f|].
  - destruct (is_module f).
    + intros He. rewrite <- (conv_candidates_modules "features." f) in He.
      destruct (conv_candidates "features." f); [|discriminate].
      apply conv_candidates_modules.
    + intros _. apply conv_candidates_modules.
  - intros _. apply conv_candidates_modules.
Qed.

Lemma convs_of_are_convs (m c : PyVal) (pre : list PyVal) :
  convs_of m = pre ++ [c] -> is_conv2d c = true.
Proof.
  intros H. assert (Hin : In c (convs_of m)).
  { rewrite H. apply in_or_app. right. now left. }
  unfold convs_of in Hin. apply filter_In in Hin. tauto.
Qed.

Lemma conv_not_none (c : PyVal) : is_conv2d c = true -> is_none c = false.
Proof. destruct c; [discriminate|discriminate|reflexivity]. Qed.

(** [__init__] without a path, in terms of the candidate list. *)
Lemma init_auto_run (rt : Runtime) (w : World) (model : PyVal) :
  is_module model = true ->
  __init__ rt w model None =
  match last_opt (candidates_of rt (eval model)) with
  | Some (name, module) =>
      if is_none module
      then (print ("[GradCAM] Auto-selected target layer: " ++ name) w,
            eval model, inl no_target_layer_found)
      else (print ("[GradCAM] Auto-selected target layer: " ++ name) w,
            eval model,
            inr (mk (eval model) true module (Some name) None None))
  | None => (w, eval model, inl no_target_layer_found)
  end.
Proof.
  intros Hm. unfold __init__. rewrite Hm. cbn [negb].
  unfold _auto_select_target_layer, bind, get_self. cbn [snd fst GradCAM.model].
  destruct (last_opt (candidates_of rt (eval model))) as [[name module]|];
    reflexivity.
Qed.

Lemma init_selects (rt : Runtime) (w : World) (model c : PyVal)
      (pre : list PyVal) :
  is_module model = true ->
  map snd (candidates_of rt (eval model)) = pre ++ [c] ->
  is_conv2d c = true ->
  exists w' e, __init__ rt w model None = (w', eval model, inr e) /\
               _target_module e = c.
Proof.
  intros Hm Hc Hconv. rewrite init_auto_run by exact Hm.
  apply last_opt_map_snoc in Hc as ([name module] & -> & Hsnd).
  cbn [snd] in Hsnd. subst module. rewrite (conv_not_none _ Hconv).
  eexists. eexists. split; reflexivity.
Qed.

(** C4.  Without a path, the engine targets the last convolutional
    sub-module that the enumeration of the model's [features] region lists
    (definition order); when that region is absent or holds no
    convolution, the last convolutional module of the enumeration of the
    whole model; when there is none at all, construction fails with the
    "could not find a target layer" error.  On the sample classifier with
    convolutions A, B, C under [features], C is chosen. *)
Theorem auto_select_picks_last_conv :
  (forall (rt : Runtime) (w : World) (model : PyVal),
      is_module model = true ->
      (forall pre c, region_convs rt (eval model) = pre ++ [c] ->
         exists w' e, __init__ rt w model None = (w', eval model, inr e) /\
                      _target_module e = c) /\
      (region_convs rt (eval model) = [] ->
       forall pre c, convs_of (eval model) = pre ++ [c] ->
         exists w' e, __init__ rt w model None = (w', eval model, inr e) /\
                      _target_module e = c) /\
      (region_convs rt (eval model) = [] -> convs_of (eval model) = [] ->
       __init__ rt w model None = (w, eval model, inl no_target_layer_found)))
  /\
  (region_convs rt_ok (net false) = [conv 2 false; conv 4 false; conv 6 false] /\
   exists w' e, __init__ rt_ok world0 (net true) None = (w', net false, inr e) /\
                _target_module e = conv 6 false /\
                _target_module_name e = Some "features.C"%string).
Proof.
  split.
  - intros rt w model Hm. split; [|split].
    + intros pre c Hr.
      assert (Hne : region_convs rt (eval model) <> []).
      { rewrite Hr. destruct pre; discriminate. }
      apply (@init_selects rt w model c pre); [exact Hm| |].
      * rewrite candidates_region by exact Hne. exact Hr.
      * unfold region_convs in Hr.
        destruct (feature_region rt (eval model)) as [f|];
          [exact (convs_of_are_convs _ _ _ Hr)|destruct pre; discriminate].
    + intros Hr pre c Hc.
      apply (@init_selects rt w model c pre); [exact Hm| |].
      * rewrite candidates_fallback by exact Hr. exact Hc.
      * exact (convs_of_are_convs _ _ _ Hc).
    + intros Hr Hc. rewrite init_auto_run by exact Hm.
      pose proof (candidates_fallback _ _ Hr) as Hcand. rewrite Hc in Hcand.
      destruct (candidates_of rt (eval model)); [reflexivity|discriminate].
  - split; [reflexivity|].
    eexists. eexists. split; [vm_compute; reflexivity|]. split; reflexivity.
Qed.

Lemma auto_select_picks_last_conv_witness :
  exists w' e,
    __init__ rt_ok world0 (net true) None = (w', eval (net true), inr e) /\
    _target_module e = conv 6 false.
Proof.
  exact (proj1 (proj1 auto_select_picks_last_conv rt_ok world0 (net true)
                      eq_refl)
               [conv 2 false; conv 4 false] (conv 6 false) eq_refl).
Defined.

(** A module registered twice is listed once, where it is first met; the
    last convolution listed is then the other one. *)
Lemma shared_module_listed_once :
  map fst (named_modules shared_net)
  = [""; "features"; "features.0"; "features.1"]%string /\
  exists w' e, __init__ rt_ok world0 shared_net None = (w', shared_net, inr e) /\
               _target_module e = conv 4 false.
Proof.
  split; [reflexivity|].
  eexists. eexists. split; [vm_compute; reflexivity|reflexivity].
Qed.

End TargetLayer.

Section ExplicitPath.

Import GradCAM.
Local Open Scope string_scope.

(** The code's walk returns [None] exactly where a segment is missing, and
    the value reached otherwise. *)
Lemma walk_resolve (rt : Runtime) (root : PyVal) (parts : list string) :
  walk rt root parts =
  match resolve rt root parts with Some v => v | None => PyNone end.
Proof.
  revert root. induction parts as [|part rest IH]; intros root; [reflexivity|].
  cbn [walk resolve]. unfold hasattr.
  destruct (py_getattr rt root part) as [v|]; cbn [negb]; [apply IH|reflexivity].
Qed.

(** C5.  With a dotted path, construction walks the model segment by
    segment.  If a segment is missing it fails with the "target layer not
    found" error, whatever auto-selection would have found; if every
    segment resolves and the value reached is not [None], that value
    becomes the target as it is, with the path as its name and no check of
    its kind; if the value reached is [None], the same "not found" error is
    raised.  On the sample classifier [features.nonexistent] fails although
    auto-selection succeeds, and a normalisation layer, a parameter, the
    [training] flag or the class of a [None] bias is accepted as the
    target. *)
Theorem explicit_path_is_walked_verbatim :
  (forall (rt : Runtime) (w : World) (model : PyVal) (path : string),
      is_module model = true ->
      (resolve rt (eval model) (split dot path) = None ->
       __init__ rt w model (Some path)
       = (w, eval model, inl (layer_not_found path))) /\
      (forall v, resolve rt (eval model) (split dot path) = Some v ->
                 v <> PyNone ->
                 __init__ rt w model (Some path)
                 = (w, eval model,
                    inr (mk (eval model) true v (Some path) None None))) /\
      (resolve rt (eval model) (split dot path) = Some PyNone ->
       __init__ rt w model (Some path)
       = (w, eval model, inl (layer_not_found path))))
  /\
  (__init__ rt_ok world0 (net false) (Some "features.nonexistent")
   = (world0, net false, inl (layer_not_found "features.nonexistent")) /\
   (exists w' e, __init__ rt_ok world0 (net false) None
                 = (w', net false, inr e)) /\
   (exists e, __init__ rt_ok world0 (net false) (Some "features.norm")
              = (world0, net false, inr e) /\
              _target_module e = PyModule 3 BatchNorm2d false [] []) /\
   (exists e, __init__ rt_ok world0 (net false) (Some "features.C.weight")
              = (world0, net false, inr e) /\
              _target_module e = PyObj []) /\
   (exists e, __init__ rt_ok world0 (net false) (Some "training")
              = (world0, net false, inr e)) /\
   (exists e, __init__ rt_ok world0 (net false)
                       (Some "features.C.bias.__class__")
              = (world0, net false, inr e))).
Proof.
  split.
  - intros rt w model path Hm. unfold __init__. rewrite Hm. cbn [negb].
    unfold _get_module_by_name. rewrite walk_resolve. split; [|split].
    + intros ->. reflexivity.
    + intros v -> Hv. destruct v; [congruence|reflexivity|reflexivity].
    + intros ->. reflexivity.
  - split; [vm_compute; reflexivity|].
    split; [eexists; eexists; vm_compute; reflexivity|].
    split; [eexists; split; [vm_compute; reflexivity|reflexivity]|].
    split; [eexists; split; [vm_compute; reflexivity|reflexivity]|].
    split; eexists; vm_compute; reflexivity.
Qed.

Lemma explicit_path_is_walked_verbatim_witness :
  __init__ rt_ok world0 (net false) (Some "features.missing")
  = (world0, eval (net false), inl (layer_not_found "features.missing")) /\
  __init__ rt_ok world0 (net false) (Some "features.B")
  = (world0, eval (net false),
     inr (mk (eval (net false)) true (conv 4 false) (Some "features.B")
             None None)) /\
  __init__ rt_ok world0 (net false) (Some "features.A.bias")
  = (world0, eval (net false), inl (layer_not_found "features.A.bias")).
Proof.
  split; [|split].
  - exact (proj1 (proj1 explicit_path_is_walked_verbatim rt_ok world0
                        (net false) "features.missing" eq_refl) eq_refl).
  - refine (proj1 (proj2 (proj1 explicit_path_is_walked_verbatim rt_ok world0
                                (net false) "features.B" eq_refl))
                  (conv 4 false) eq_refl _).
    discriminate.
  - exact (proj2 (proj2 (proj1 explicit_path_is_walked_verbatim rt_ok world0
                               (net false) "features.A.bias" eq_refl))
                 eq_refl).
Defined.

(** Every segment of [features.C.bias] resolves, to the [None] that a
    convolution built without a bias holds there, and the path is reported
    as not found instead of becoming the target. *)
Lemma none_valued_attribute_not_found :
  resolve rt_ok (net false) (split dot "features.C.bias") = Some PyNone /\
  __init__ rt_ok world0 (net false) (Some "features.C.bias")
  = (world0, net false, inl (layer_not_found "features.C.bias")).
Proof. split; vm_compute; reflexivity. Qed.

End ExplicitPath.

(* ===================================================================== *)
(** ** Failures after the pass                                            *)
(* ===================================================================== *)

Section CaptureFailures.

Import GradCAM.
Local Open Scope py_scope.

Lemma get_cam_after_pass rt inp tc (s s2 : St) :
  is_none (_target_module (snd s)) = false ->
  after_pass rt inp tc s = (s2, inr tt) ->
  get_cam rt inp tc s = heatmap_of_captures rt s2.
Proof.
  intros Ht Hp. rewrite get_cam_unfold, Ht.
  unfold after_pass in Hp. unfold bind in *.
  destruct (_clear_captures s) as [s1 [ex|[]]]; [discriminate|].
  destruct (instrumented_pass rt inp tc s1) as [s2' [ex|[]]]; [discriminate|].
  now inversion Hp.
Qed.

Lemma heatmap_of_captures_run (rt : Runtime) (s : St) :
  heatmap_of_captures rt s =
  match _activations (snd s), _gradients (snd s) with
  | Some acts, Some grads =>
      if negb (dim acts =? 4) || negb (dim grads =? 4)
      then ((print (msg_unexpected_dims acts grads) (fst s), snd s), inr None)
      else match weighted_relu_map rt acts grads with
           | inl ex => (s, inl ex)
           | inr cam =>
               match normalize cam with
               | inl ex => (s, inl ex)
               | inr hm => (s, inr (Some hm))
               end
           end
  | _, _ => ((print msg_not_captured (fst s), snd s), inr None)
  end.
Proof.
  destruct s as [w e]. unfold heatmap_of_captures, bind, get_self, lift, ret.
  cbn [snd fst].
  destruct (_activations e) as [a|]; destruct (_gradients e) as [g|];
    try reflexivity.
  destruct (negb (dim a =? 4) || negb (dim g =? 4)); [reflexivity|].
  destruct (weighted_relu_map rt a g) as [ex|cam]; [reflexivity|].
  destruct (normalize cam); reflexivity.
Qed.

Lemma msg_unexpected_dims_differs (acts grads : Tensor fnum) :
  msg_unexpected_dims acts grads <> msg_not_captured.
Proof. unfold msg_unexpected_dims, msg_not_captured. cbn. discriminate. Qed.

(** C6, as the code has it.  When the pass has completed and a capture
    buffer is still empty, [get_cam] returns [None] and prints the "not
    captured" line; when both captures are there and one is not
    4-dimensional, it returns [None] and prints the "unexpected tensor
    dims" line, which carries both observed shapes.  Nothing is raised, the
    two printed lines always differ, and the returned value is [None] in
    both cases. *)
Theorem capture_failures_return_none_and_print :
  (forall (rt : Runtime) (inp : Tensor fnum) (tc : option Z) (s s2 : St),
      is_none (_target_module (snd s)) = false ->
      after_pass rt inp tc s = (s2, inr tt) ->
      ((_activations (snd s2) = None \/ _gradients (snd s2) = None) ->
       get_cam rt inp tc s
       = ((print msg_not_captured (fst s2), snd s2), inr None)) /\
      (forall acts grads,
          _activations (snd s2) = Some acts ->
          _gradients (snd s2) = Some grads ->
          dim acts <> 4 \/ dim grads <> 4 ->
          get_cam rt inp tc s
          = ((print (msg_unexpected_dims acts grads) (fst s2), snd s2),
             inr None)))
  /\
  (forall acts grads : Tensor fnum,
      msg_unexpected_dims acts grads <> msg_not_captured /\
      msg_unexpected_dims acts grads
      = ("[GradCAM] Unexpected tensor dims. activations: "
           ++ string_of_shape (shape acts) ++ ", gradients: "
           ++ string_of_shape (shape grads))%string).
Proof.
  split.
  - intros rt inp tc s s2 Ht Hp.
    rewrite (get_cam_after_pass rt inp tc s Ht Hp), heatmap_of_captures_run.
    split.
    + intros Hnone.
      destruct (_activations (snd s2)) as [a|];
        destruct (_gradients (snd s2)) as [g|]; try reflexivity.
      destruct Hnone; discriminate.
    + intros acts grads -> -> Hdim.
      assert (Hb : negb (dim acts =? 4) || negb (dim grads =? 4) = true).
      { apply orb_true_iff.
        destruct Hdim as [H|H]; [left|right];
          apply negb_true_iff, Nat.eqb_neq; exact H. }
      rewrite Hb. reflexivity.
  - intros acts grads. split;
      [apply msg_unexpected_dims_differs|reflexivity].
Qed.

Lemma capture_failures_return_none_and_print_witness :
  (exists s2, get_cam rt_no_gradient input None (world0, engine0)
              = ((print msg_not_captured (fst s2), snd s2), inr None)) /\
  (exists s2, get_cam rt_rank2 input None (world0, engine0)
              = ((print (msg_unexpected_dims flat_out flat_out) (fst s2),
                  snd s2), inr None)).
Proof.
  split.
  - eexists.
    refine (proj1 (proj1 capture_failures_return_none_and_print
                         rt_no_gradient input None (world0, engine0) _
                         eq_refl _) _).
    + vm_compute. reflexivity.
    + right. reflexivity.
  - eexists.
    refine (proj2 (proj1 capture_failures_return_none_and_print
                         rt_rank2 input None (world0, engine0) _
                         eq_refl _) flat_out flat_out _ _ _).
    + vm_compute. reflexivity.
    + reflexivity.
    + reflexivity.
    + left. vm_compute. discriminate.
Defined.

(** The value [get_cam] hands back is the same in the two failures, and
    the same as when no target layer is set: the reason is on standard
    output only. *)
Lemma capture_failures_share_the_returned_value :
  snd (get_cam rt_no_gradient input None (world0, engine0)) = inr None /\
  snd (get_cam rt_rank2 input None (world0, engine0)) = inr None /\
  snd (get_cam rt_no_gradient input None (world0, engine0))
  = snd (get_cam rt_rank2 input None (world0, engine0)).
Proof. repeat split; vm_compute; reflexivity. Qed.

End CaptureFailures.

(* ===================================================================== *)
(** ** The model's mode                                                   *)
(* ===================================================================== *)

Section ModelMode.

Import GradCAM.

Lemma init_model (rt : Runtime) (w : World) (model : PyVal) (tl : option string) :
  is_module model = true ->
  model_after_init rt w model tl = eval model /\
  forall e, snd (__init__ rt w model tl) = inr e -> GradCAM.model e = eval model.
Proof.
  intros Hm. unfold model_after_init. destruct tl as [path|].
  - unfold __init__. rewrite Hm. cbn [negb].
    destruct (is_none (_get_module_by_name rt (eval model) path)); cbn.
    + split; [reflexivity|discriminate].
    + split; [reflexivity|]. intros e H. inversion H. reflexivity.
  - rewrite init_auto_run by exact Hm.
    destruct (last_opt (candidates_of rt (eval model))) as [[name module]|].
    + destruct (is_none module); cbn.
      * split; [reflexivity|discriminate].
      * split; [reflexivity|]. intros e H. inversion H. reflexivity.
    + cbn. split; [reflexivity|discriminate].
Qed.

(** Constructing the engine on a model in training mode changes the mode
    of the caller's model. *)
Lemma init_changes_training_mode :
  all_eval (net true) = false /\
  model_after_init rt_ok world0 (net true) None = net false /\
  model_after_init rt_ok world0 (net true) None <> net true.
Proof.
  split; [reflexivity|]. split; [reflexivity|]. vm_compute. discriminate.
Qed.

(** C7, as the code has it.  Constructing the engine calls [model.eval()]:
    afterwards the caller's model and every registered sub-module are in
    inference mode, so a model already wholly in inference mode is left as
    it was and a model in training mode is changed; the engine holds that
    model.  [get_cam] never changes the engine's model or target, and a
    call that returns (a heatmap or [None]) leaves the hooks attached to
    the model as they were before the call. *)
Theorem init_sets_inference_mode_get_cam_keeps_model :
  (forall (rt : Runtime) (w : World) (model : PyVal) (tl : option string),
      is_module model = true ->
      model_after_init rt w model tl = eval model /\
      all_eval (model_after_init rt w model tl) = true /\
      (all_eval model = true -> model_after_init rt w model tl = model) /\
      (forall e, snd (__init__ rt w model tl) = inr e ->
                 GradCAM.model e = model_after_init rt w model tl))
  /\
  (forall (rt : Runtime) (inp : Tensor fnum) (tc : option Z) (s : St),
      GradCAM.model (snd (fst (get_cam rt inp tc s))) = GradCAM.model (snd s) /\
      _target_module (snd (fst (get_cam rt inp tc s))) = _target_module (snd s))
  /\
  (forall (rt : Runtime) (inp : Tensor fnum) (tc : option Z) (s s' : St)
          (r : option (Tensor fnum)),
      handles_fresh (fst s) ->
      get_cam rt inp tc s = (s', inr r) ->
      forward_hooks (fst s') = forward_hooks (fst s)).
Proof.
  split; [|split].
  - intros rt w model tl Hm. destruct (init_model rt w model tl Hm) as [E He].
    rewrite E. split; [reflexivity|]. split; [apply eval_all_eval|].
    split; [intros Ha; now apply eval_fixes_eval_mode|exact He].
  - intros rt inp tc s. destruct (get_cam_wiring rt inp tc s) as (A & _ & C & _).
    split; assumption.
  - intros rt inp tc s s' r. apply get_cam_returns_hooks.
Qed.

Lemma init_sets_inference_mode_get_cam_keeps_model_witness :
  (model_after_init rt_ok world0 (net false) None = net false /\
   all_eval (model_after_init rt_ok world0 (net true) None) = true) /\
  (exists s' r, get_cam rt_ok input None (world0, engine0) = (s', inr r) /\
                forward_hooks (fst s') = forward_hooks world0).
Proof.
  split.
  - split.
    + exact (proj1 (proj2 (proj2
        (proj1 init_sets_inference_mode_get_cam_keeps_model
               rt_ok world0 (net false) None eq_refl))) eq_refl).
    + exact (proj1 (proj2
        (proj1 init_sets_inference_mode_get_cam_keeps_model
               rt_ok world0 (net true) None eq_refl))).
  - eexists. eexists. split; [vm_compute; reflexivity|].
    refine (proj2 (proj2 init_sets_inference_mode_get_cam_keeps_model)
                  rt_ok input None (world0, engine0) _ _ _ _).
    + constructor.
    + vm_compute. reflexivity.
Defined.

End ModelMode.

(* ===================================================================== *)
(** ** The capture buffers across calls                                   *)
(* ===================================================================== *)

Section CaptureBuffers.

Import GradCAM.
Local Open Scope py_scope.

Lemma discard_captures_idem (s : St) :
  discard_captures (discard_captures s) = discard_captures s.
Proof. destruct s as [w [m rg tm tn a g]]. reflexivity. Qed.

(** A call on an engine with a target starts from emptied buffers. *)
Lemma get_cam_from_cleared rt inp tc (s : St) :
  is_none (_target_module (snd s)) = false ->
  get_cam rt inp tc s
  = (instrumented_pass rt inp tc ;;; heatmap_of_captures rt) (discard_captures s).
Proof.
  intros Ht. rewrite get_cam_unfold, Ht. unfold bind at 1.
  rewrite clear_captures_run. reflexivity.
Qed.

(** What the buffers hold when a call begins plays no part in it. *)
Lemma get_cam_ignores_old_captures rt inp tc (s : St) :
  is_none (_target_module (snd s)) = false ->
  get_cam rt inp tc (discard_captures s) = get_cam rt inp tc s.
Proof.
  intros Ht. rewrite !get_cam_from_cleared, discard_captures_idem;
    [reflexivity|exact Ht|].
  destruct s as [w [m rg tm tn a g]]. exact Ht.
Qed.

Lemma get_cam_keeps_target rt inp tc (s : St) :
  _target_module (snd (fst (get_cam rt inp tc s))) = _target_module (snd s).
Proof. destruct (get_cam_wiring rt inp tc s) as (_ & _ & C & _). exact C. Qed.

Lemma discard_captures_target (s : St) :
  _target_module (snd (discard_captures s)) = _target_module (snd s).
Proof. destruct s as [w [m rg tm tn a g]]. reflexivity. Qed.

(** A sequence started from emptied buffers runs as it does from any
    buffers. *)
Lemma run_calls_ignores_old_captures (calls : list Call) (s : St) :
  is_none (_target_module (snd s)) = false ->
  snd (run_calls calls (discard_captures s)) = snd (run_calls calls s) /\
  discard_captures (fst (run_calls calls (discard_captures s)))
  = discard_captures (fst (run_calls calls s)).
Proof.
  intros Ht. destruct calls as [|[[rt inp] tc] rest].
  - cbn. split; [reflexivity|apply discard_captures_idem].
  - cbn [run_calls]. rewrite (get_cam_ignores_old_captures rt inp tc s Ht).
    split; reflexivity.
Qed.

Lemma run_calls_discarding_same (calls : list Call) (s : St) :
  is_none (_target_module (snd s)) = false ->
  snd (run_calls_discarding calls s) = snd (run_calls calls s) /\
  discard_captures (fst (run_calls_discarding calls s))
  = discard_captures (fst (run_calls calls s)).
Proof.
  revert s. induction calls as [|[[rt inp] tc] rest IH]; intros s Ht.
  - split; reflexivity.
  - cbn [run_calls run_calls_discarding].
    pose proof (get_cam_keeps_target rt inp tc s) as Hk.
    destruct (get_cam rt inp tc s) as [s1 r]. cbn [fst] in Hk.
    assert (Ht1 : is_none (_target_module (snd s1)) = false) by congruence.
    assert (Hd : is_none (_target_module (snd (discard_captures s1))) = false)
      by (rewrite discard_captures_target; exact Ht1).
    destruct (IH _ Hd) as [Hr Hs].
    destruct (run_calls_ignores_old_captures rest s1 Ht1) as [Hr' Hs'].
    destruct (run_calls_discarding rest (discard_captures s1)) as [sa ra].
    destruct (run_calls rest (discard_captures s1)) as [sb rb].
    destruct (run_calls rest s1) as [sc rc].
    cbn [fst snd] in *. split; congruence.
Qed.

(** C8, as the code has it.  Every call on an engine with a target first
    empties both capture buffers and hands that state to the
    instrumentation, so the buffers are empty immediately before the hook
    is attached, in every call; the target stays set.  Every sequence of
    calls returns what it returns on an engine whose buffers are discarded
    as soon as each call is over: the same results, the same world, the
    same engine up to the last call's own captures.  No call reads what an
    earlier call captured. *)
Theorem capture_buffers_cleared_when_call_starts :
  (forall (rt : Runtime) (inp : Tensor fnum) (tc : option Z) (s : St),
      is_none (_target_module (snd s)) = false ->
      _activations (snd (fst (_clear_captures s))) = None /\
      _gradients (snd (fst (_clear_captures s))) = None /\
      get_cam rt inp tc s
      = (instrumented_pass rt inp tc ;;; heatmap_of_captures rt)
          (fst (_clear_captures s)) /\
      is_none (_target_module (snd (fst (get_cam rt inp tc s)))) = false)
  /\
  (forall (calls : list Call) (s : St),
      is_none (_target_module (snd s)) = false ->
      snd (run_calls_discarding calls s) = snd (run_calls calls s) /\
      fst (fst (run_calls_discarding calls s)) = fst (fst (run_calls calls s)) /\
      discard_captures (fst (run_calls_discarding calls s))
      = discard_captures (fst (run_calls calls s))).
Proof.
  split.
  - intros rt inp tc s Ht. rewrite clear_captures_run. cbn [fst snd].
    split; [reflexivity|]. split; [reflexivity|]. split.
    + apply get_cam_from_cleared. exact Ht.
    + rewrite get_cam_keeps_target. exact Ht.
  - intros calls s Ht.
    destruct (run_calls_discarding_same calls s Ht) as [Hr Hs].
    split; [exact Hr|]. split; [|exact Hs].
    apply (f_equal fst) in Hs. exact Hs.
Qed.

Lemma capture_buffers_cleared_when_call_starts_witness :
  _activations
    (snd (fst (_clear_captures
                 (fst (get_cam rt_ok input None (world0, engine0))))))
  = None /\
  snd (run_calls_discarding
         [(rt_ok, input, None); (rt_no_gradient, input, None);
          (rt_ok, input, Some 1%Z)] (world0, engine0))
  = snd (run_calls
           [(rt_ok, input, None); (rt_no_gradient, input, None);
            (rt_ok, input, Some 1%Z)] (world0, engine0)).
Proof.
  split.
  - exact (proj1 (proj1 capture_buffers_cleared_when_call_starts
                        rt_ok input None
                        (fst (get_cam rt_ok input None (world0, engine0)))
                        eq_refl)).
  - exact (proj1 (proj2 capture_buffers_cleared_when_call_starts
                        [(rt_ok, input, None); (rt_no_gradient, input, None);
                         (rt_ok, input, Some 1%Z)]
                        (world0, engine0) eq_refl)).
Defined.

(** Between two calls the buffers still hold what the last pass
    captured; they are emptied when the next call starts. *)
Lemma captures_kept_until_next_call :
  _activations (snd (fst (get_cam rt_ok input None (world0, engine0))))
  = Some acts /\
  _gradients (snd (fst (get_cam rt_ok input None (world0, engine0))))
  = Some grads.
Proof. split; vm_compute; reflexivity. Qed.

End CaptureBuffers.

(* ===================================================================== *)
(** ** The overlay                                                        *)
(* ===================================================================== *)

Section Rendering.

Import PIL Utils.

Lemma zip4_solid {A} (a b c : A) (l : list A) :
  zip4 (repeat a (length l)) (repeat b (length l)) (repeat c (length l)) l
  = map (fun v => (a, b, c, v)) l.
Proof. induction l as [|x l IH]; cbn; [reflexivity|now rewrite IH]. Qed.

Lemma size_eqb_refl (sz : nat * nat) : size_eqb sz sz = true.
Proof. unfold size_eqb. now rewrite !Nat.eqb_refl. Qed.

(** The four bands merge into the tint layer. *)
Lemma merge_is_tint_layer (alpha_scale : spec_float) (sz : nat * nat)
      (px : list byte) :
  length px = fst sz * snd sz ->
  res_bind (point (alpha_of alpha_scale) (L sz px))
           (fun alpha => merge_RGBA (new_L sz xff) (new_L sz x00)
                                    (new_L sz x00) alpha)
  = inr (tint_layer alpha_scale sz px).
Proof.
  intros Hlen. cbn [point res_bind]. unfold merge_RGBA, new_L.
  rewrite size_eqb_refl. cbn [andb]. unfold tint_layer. f_equal. f_equal.
  rewrite <- Hlen, <- (length_map (alpha_of alpha_scale) px).
  rewrite zip4_solid, map_map. reflexivity.
Qed.

(** The lookup table of the default scale: the intensity times 192/255,
    rounded down. *)
Lemma alpha_of_default (v : byte) :
  b2z (alpha_of default_alpha_scale v) = (b2z v * 192 / 255)%Z.
Proof. destruct v; vm_compute; reflexivity. Qed.

Lemma b2z_range (v : byte) : (0 <= b2z v <= 255)%Z.
Proof. destruct v; vm_compute; split; discriminate. Qed.

(** C9.  A 4x4 heatmap of ones over a 4x4 black image renders, with the
    default red tint and maximal alpha 192, as a 4x4 image whose every
    pixel is (192, 0, 0) at full opacity.  In general the tint layer of a
    rendering is solid red with, at each pixel, the alpha that the table
    gives for the resampled intensity v: v * 192 / 255 rounded down, a
    value between 0 and 192 that grows with v. *)
Theorem overlay_of_ones_on_black :
  (forall bilinear : list byte -> nat * nat -> nat * nat -> list byte,
      _rgba_heatmap_overlay bilinear
        (RGB (4, 4) (repeat (x00, x00, x00) 16))
        (mkTensor [4; 4] (repeat (f32 1 0) 16))
        default_alpha_scale
      = inr (RGBA (4, 4) (repeat (xc0, x00, x00, xff) 16)))
  /\
  (forall v : byte,
      b2z (alpha_of default_alpha_scale v) = (b2z v * 192 / 255)%Z /\
      (0 <= b2z (alpha_of default_alpha_scale v) <= 192)%Z)
  /\
  (forall v v' : byte,
      (b2z v <= b2z v')%Z ->
      (b2z (alpha_of default_alpha_scale v)
       <= b2z (alpha_of default_alpha_scale v'))%Z)
  /\
  (forall (bilinear : list byte -> nat * nat -> nat * nat -> list byte)
          (base : Image) (heatmap : Tensor spec_float) (h w : nat)
          (px : list byte),
      shape heatmap = [h; w] ->
      resize bilinear
             (L (w, h) (map quantize (map np_clip01 (data heatmap))))
             (size base)
      = inr (L (size base) px) ->
      length px = fst (size base) * snd (size base) ->
      _rgba_heatmap_overlay bilinear base heatmap default_alpha_scale
      = alpha_composite (convert_RGBA base)
                        (tint_layer default_alpha_scale (size base) px)).
Proof.
  split; [intros bilinear; vm_compute; reflexivity|].
  split; [|split].
  - intros v. rewrite alpha_of_default. split; [reflexivity|].
    pose proof (b2z_range v) as Hv. split.
    + apply Z.div_pos; lia.
    + apply Z.div_le_upper_bound; lia.
  - intros v v' Hle. rewrite !alpha_of_default.
    apply Z.div_le_mono; lia.
  - intros bilinear base heatmap h w px Hs Hr Hlen.
    unfold _rgba_heatmap_overlay. unfold dim. rewrite Hs.
    cbn [length Nat.eqb res_bind shape data fromarray_L].
    rewrite Hs. unfold fromarray_L. cbn [shape data res_bind].
    rewrite Hr. cbn [res_bind].
    pose proof (merge_is_tint_layer default_alpha_scale (size base) px Hlen)
      as Hm.
    destruct (point (alpha_of default_alpha_scale) (L (size base) px))
      as [ex|alpha]; cbn [res_bind] in *; [discriminate|].
    rewrite Hm. reflexivity.
Qed.

Lemma overlay_of_ones_on_black_witness :
  _rgba_heatmap_overlay (fun px _ _ => px)
    (RGB (2, 1) [(x10, x20, x30); (x00, x00, x00)])
    (mkTensor [1; 2] [f32 1 (-1); f32 1 0])
    default_alpha_scale
  = alpha_composite
      (convert_RGBA (RGB (2, 1) [(x10, x20, x30); (x00, x00, x00)]))
      (tint_layer default_alpha_scale (2, 1) [x80; xff]) /\
  (b2z (alpha_of default_alpha_scale x80)
   <= b2z (alpha_of default_alpha_scale xff))%Z.
Proof.
  split.
  - exact (proj2 (proj2 (proj2 overlay_of_ones_on_black)) (fun px _ _ => px)
                 (RGB (2, 1) [(x10, x20, x30); (x00, x00, x00)])
                 (mkTensor [1; 2] [f32 1 (-1); f32 1 0]) 1 2 [x80; xff]
                 eq_refl eq_refl eq_refl).
  - apply (proj1 (proj2 (proj2 overlay_of_ones_on_black))).
    vm_compute. discriminate.
Defined.

(** C10.  With no heatmap, [tensor_to_base64_overlay] returns the empty
    string and [GradCAM.overlay] returns the image it was given; neither
    raises, whatever the image, and nothing is composited. *)
Theorem absent_heatmap_is_not_rendered :
  (forall (bilinear : list byte -> nat * nat -> nat * nat -> list byte)
          (png_bytes : Image -> list byte) (b64encode : list byte -> string)
          (original_pil : Image),
      tensor_to_base64_overlay bilinear png_bytes b64encode original_pil None
      = inr EmptyString)
  /\
  (forall (bilinear : list byte -> nat * nat -> nat * nat -> list byte)
          (utils_imported : bool) (self : GradCAM.t) (pil_img : Image),
      GradCAM.overlay bilinear utils_imported self pil_img None
      = inr pil_img).
Proof. split; intros; reflexivity. Qed.

End Rendering.

(* ===================================================================== *)
(** ** More on [get_cam]: shape, class index, hooks                       *)
(* ===================================================================== *)

Unset Implicit Arguments.

Section GetCamMore.

Import GradCAM.
Local Open Scope py_scope.

Lemma weighted_relu_map_shape (rt : Runtime) (acts grads cam : Tensor fnum)
      (N C H W : nat) :
  shape acts = [N; C; H; W] ->
  weighted_relu_map rt acts grads = inr cam -> shape cam = [H; W].
Proof.
  intros Sa. unfold weighted_relu_map.
  destruct (index0 acts) as [ex|a0] eqn:Ea; cbn [res_bind]; [discriminate|].
  assert (Sa0 : shape a0 = [C; H; W]).
  { revert Ea. unfold index0. rewrite Sa. destruct (N =? 0); [discriminate|].
    intros E. inversion E. reflexivity. }
  destruct (index0 grads) as [ex|g0]; cbn [res_bind]; [discriminate|].
  destruct (mean_dim12 rt g0) as [ex|ws]; cbn [res_bind]; [discriminate|].
  unfold scale_planes. rewrite Sa0.
  destruct (length ws =? C); [|destruct (length ws =? 1); [|destruct (C =? 1)]];
    cbn [res_bind]; intros E; try discriminate; inversion E; reflexivity.
Qed.

Lemma normalize_length (cam hm : Tensor fnum) :
  normalize cam = inr hm -> length (data hm) = length (data cam).
Proof.
  intros E. destruct (normalize_cases _ E) as (_ & [(_ & m & _ & _ & ->)|(_ & ->)]).
  - apply length_map.
  - apply repeat_length.
Qed.

(** The heatmap has the resolution of the target layer: for captured
    activations [N, C, H, W] it has shape [H, W], and H * W elements when
    the captures are well formed with the same number of channels. *)
Theorem heatmap_has_layer_resolution :
  forall (rt : Runtime) (inp : Tensor fnum) (tc : option Z) (s s' : St)
         (hm acts : Tensor fnum) (N C H W : nat),
    get_cam rt inp tc s = (s', inr (Some hm)) ->
    _activations (snd s') = Some acts ->
    shape acts = [N; C; H; W] ->
    shape hm = [H; W] /\
    (forall grads Ng Hg Wg,
        _gradients (snd s') = Some grads ->
        shape grads = [Ng; C; Hg; Wg] ->
        wf_tensor acts -> wf_tensor grads -> wf_tensor hm).
Proof.
  intros rt inp tc s s' hm acts N C H W Hrun Ea Sa.
  destruct (get_cam_some _ _ _ _ Hrun)
    as (a' & g' & cam & Ea' & Eg' & _ & _ & Ec & En).
  rewrite Ea in Ea'. inversion Ea'; subst a'.
  pose proof (weighted_relu_map_shape _ _ _ _ _ _ _ _ Sa Ec) as Sc.
  destruct (normalize_cases _ En) as (Sh & _).
  assert (Shm : shape hm = [H; W]) by congruence.
  split; [exact Shm|].
  intros grads Ng Hg Wg Eg Sg Wa Wg'.
  rewrite Eg in Eg'. inversion Eg'; subst g'.
  assert (HN : 0 < N).
  { destruct N; [|lia]. exfalso. revert Ec.
    unfold weighted_relu_map, index0. rewrite Sa. discriminate. }
  assert (HNg : 0 < Ng).
  { destruct Ng; [|lia]. exfalso. revert Ec.
    unfold weighted_relu_map, index0. rewrite Sa, Sg.
    destruct (N =? 0); discriminate. }
  destruct (weighted_relu_map_spec rt Sa Sg Wa Wg' HN HNg)
    as (cam' & Ec' & _ & Hl & _).
  rewrite Ec in Ec'. inversion Ec'; subst cam'.
  unfold wf_tensor. rewrite Shm, (normalize_length _ _ En), Hl.
  cbn [numel fold_right]. lia.
Qed.

Lemma heatmap_has_layer_resolution_witness :
  exists hm,
    snd (get_cam rt_ok input None (world0, engine0)) = inr (Some hm) /\
    shape hm = [2; 2] /\ wf_tensor hm.
Proof.
  eexists. split; [vm_compute; reflexivity|].
  destruct (@heatmap_has_layer_resolution
              rt_ok input None (world0, engine0)
              (mkWorld [] [] 1,
               set_gradients (Some grads) (set_activations (Some acts) engine0))
              (mkTensor [2; 2]
                 [q 0; q 1; Fin (1 # 2)%Q; q 0])
              acts 1 2 2 2 eq_refl eq_refl eq_refl) as [Hs Hw].
  split; [exact Hs|].
  exact (Hw grads 1 2 2 eq_refl eq_refl eq_refl eq_refl).
Defined.

(** The running [argmax] over finite scores: the index returned holds a
    largest score, and every earlier score is strictly smaller. *)
Lemma argmax_from_inv (l pre : list fnum) (i : nat) (b : Q) (bi : nat) :
  forallb isfinite l = true ->
  i = length pre -> bi < i -> nth bi pre NaN = Fin b ->
  (forall j q, j < i -> nth j pre NaN = Fin q -> (q <= b)%Q) ->
  (forall j q, j < bi -> nth j pre NaN = Fin q -> (q < b)%Q) ->
  let k := argmax_from l i (Fin b) bi in
  k < length (pre ++ l) /\
  exists m, nth k (pre ++ l) NaN = Fin m /\
    (forall j q, j < length (pre ++ l) ->
                 nth j (pre ++ l) NaN = Fin q -> (q <= m)%Q) /\
    (forall j q, j < k -> nth j (pre ++ l) NaN = Fin q -> (q < m)%Q).
Proof.
  revert pre i b bi. induction l as [|x l IH]; intros pre i b bi Hfin Hi Hbi Hb Hle Hlt.
  - cbn [argmax_from]. rewrite app_nil_r. subst i.
    split; [exact Hbi|]. exists b. auto.
  - cbn [forallb] in Hfin. apply andb_true_iff in Hfin as [Hx Hl].
    destruct x as [a| | |]; try discriminate.
    replace (pre ++ Fin a :: l) with ((pre ++ [Fin a]) ++ l)
      by (rewrite <- app_assoc; reflexivity).
    assert (Hlen : S i = length (pre ++ [Fin a]))
      by (rewrite length_app; cbn; lia).
    cbn [argmax_from beats fltb]. destruct (Qltb b a) eqn:E.
    + apply Qltb_true in E. apply (IH (pre ++ [Fin a]) (S i) a i Hl Hlen).
      * lia.
      * subst i. apply nth_middle.
      * intros j q Hj Hq. destruct (Nat.eq_dec j i) as [->|Hne].
        -- subst i. rewrite nth_middle in Hq. inversion Hq. apply Qle_refl.
        -- rewrite app_nth1 in Hq by lia. apply Qlt_le_weak.
           eapply Qle_lt_trans; [apply (Hle j q); [lia|exact Hq]|exact E].
      * intros j q Hj Hq. rewrite app_nth1 in Hq by lia.
        eapply Qle_lt_trans; [apply (Hle j q); [lia|exact Hq]|exact E].
    + apply Qltb_false in E. apply (IH (pre ++ [Fin a]) (S i) b bi Hl Hlen).
      * lia.
      * rewrite app_nth1 by lia. exact Hb.
      * intros j q Hj Hq. destruct (Nat.eq_dec j i) as [->|Hne].
        -- subst i. rewrite nth_middle in Hq. inversion Hq; subst. exact E.
        -- rewrite app_nth1 in Hq by lia. apply (Hle j q); [lia|exact Hq].
      * intros j q Hj Hq. rewrite app_nth1 in Hq by lia. now apply (Hlt j q).
Qed.

Lemma for_each_fwd_hook_ok (l : list (Tensor fnum * bool)) (s : St) :
  forallb snd l = true -> snd (for_each l fwd_hook s) = inr tt.
Proof.
  revert s. induction l as [|o l IH]; intros s Hl; [reflexivity|].
  cbn [forallb] in Hl. apply andb_true_iff in Hl as [Ho Hl].
  cbn [for_each]. unfold bind at 1.
  destruct (fwd_hook o s) as [s1 [ex|[]]] eqn:Eo.
  - exfalso. revert Eo. unfold fwd_hook, bind, get_self, put_self, ret, raise.
    rewrite Ho. discriminate.
  - apply IH. exact Hl.
Qed.

(** What [self.model(input_tensor)] returns is what the runtime's forward
    pass returns. *)
Lemma call_model_value rt inp (s s1 : St) (lg : Tensor fnum) :
  call_model rt inp s = (s1, inr lg) ->
  forward_result (run_forward rt (model (snd s)) (_target_module (snd s)) inp)
  = inr lg.
Proof.
  unfold call_model. unfold bind at 1. unfold get_self. cbn [snd].
  unfold bind, lift.
  destruct (for_each _ fwd_hook s) as [s' [ex|[]]]; [discriminate|].
  intros E. inversion E. reflexivity.
Qed.

Lemma call_model_completes rt inp (s : St) :
  forallb snd (hook_outputs
                 (run_forward rt (model (snd s)) (_target_module (snd s)) inp))
  = true ->
  snd (call_model rt inp s)
  = forward_result (run_forward rt (model (snd s)) (_target_module (snd s)) inp).
Proof.
  intros Hh. unfold call_model. unfold bind at 1. unfold get_self. cbn [snd].
  unfold bind, lift. pose proof (for_each_fwd_hook_ok _ s Hh) as Hf.
  destruct (for_each _ fwd_hook s) as [s' [ex|[]]]; [discriminate|reflexivity].
Qed.

Lemma forward_backward_run rt inp (tc : option Z) (s : St) :
  forward_backward rt inp tc s =
  match call_model rt inp s with
  | (s1, inl ex) => (s1, inl ex)
  | (s1, inr lg) =>
      match res_bind (match tc with None => argmax_item lg | Some k => inr k end)
                     (select_class lg) with
      | inl ex => (s1, inl ex)
      | inr sel => backward rt inp sel s1
      end
  end.
Proof.
  unfold forward_backward, bind, lift, ret.
  destruct (call_model rt inp s) as [s1 [ex|lg]]; [reflexivity|].
  destruct tc as [k|]; cbn [res_bind].
  - destruct (select_class lg k); reflexivity.
  - destruct (argmax_item lg) as [ex|k]; cbn [res_bind]; [reflexivity|].
    destruct (select_class lg k); reflexivity.
Qed.

(** Two class arguments that select the same column run the same passes. *)
Lemma forward_backward_same_column rt inp (tc tc' : option Z) (s : St) :
  (forall lg,
      forward_result
        (run_forward rt (model (snd s)) (_target_module (snd s)) inp) = inr lg ->
      res_bind (match tc with None => argmax_item lg | Some k => inr k end)
               (select_class lg)
      = res_bind (match tc' with None => argmax_item lg | Some k => inr k end)
                 (select_class lg)) ->
  forward_backward rt inp tc s = forward_backward rt inp tc' s.
Proof.
  intros Hsame. rewrite !forward_backward_run.
  destruct (call_model rt inp s) as [s1 [ex|lg]] eqn:Ec; [reflexivity|].
  rewrite (Hsame lg (call_model_value _ _ _ _ _ Ec)). reflexivity.
Qed.

Lemma get_cam_same_column rt inp (tc tc' : option Z) (s : St) :
  (forall lg,
      forward_result
        (run_forward rt (model (snd s)) (_target_module (snd s)) inp) = inr lg ->
      res_bind (match tc with None => argmax_item lg | Some k => inr k end)
               (select_class lg)
      = res_bind (match tc' with None => argmax_item lg | Some k => inr k end)
                 (select_class lg)) ->
  get_cam rt inp tc s = get_cam rt inp tc' s.
Proof.
  intros Hsame. rewrite !get_cam_unfold.
  destruct (is_none (_target_module (snd s))); [reflexivity|].
  unfold bind at 1 3. rewrite clear_captures_run.
  destruct s as [w e]. cbn [fst snd] in *.
  set (e1 := set_gradients None (set_activations None e)).
  assert (E : instrumented_pass rt inp tc (w, e1)
              = instrumented_pass rt inp tc' (w, e1)).
  { destruct (_target_module e1) as [| |id cls tr mods attrs] eqn:Ht.
    - rewrite !instrumented_pass_not_module by (cbn [snd]; now rewrite Ht).
      reflexivity.
    - rewrite !instrumented_pass_not_module by (cbn [snd]; now rewrite Ht).
      reflexivity.
    - rewrite !(instrumented_pass_run rt inp _ w e1 Ht).
      rewrite (forward_backward_same_column rt inp tc tc' (hooked id w, e1));
        [reflexivity|].
      intros lg Hlg. apply Hsame.
      destruct e as [m rg tm tn a g]. exact Hlg. }
  unfold bind. rewrite E. reflexivity.
Qed.

(** Without a class, [get_cam] explains the top-1 class of a single image:
    on one row of finite scores [argmax] returns an index inside the row
    that holds a largest score, the first such index, and the call is the
    call with that index given. *)
Theorem default_class_is_first_top_score :
  (forall (logits : Tensor fnum) (c : nat),
      shape logits = [1; c] -> wf_tensor logits -> 0 < c ->
      forallb isfinite (data logits) = true ->
      exists k m,
        argmax_item logits = inr (Z.of_nat k) /\ k < c /\
        nth k (data logits) NaN = Fin m /\
        (forall j q, j < c -> nth j (data logits) NaN = Fin q -> (q <= m)%Q) /\
        (forall j q, j < k -> nth j (data logits) NaN = Fin q -> (q < m)%Q))
  /\
  (forall (rt : Runtime) (inp : Tensor fnum) (s : St) (logits : Tensor fnum)
          (k : Z),
      forward_result
        (run_forward rt (model (snd s)) (_target_module (snd s)) inp)
      = inr logits ->
      argmax_item logits = inr k ->
      get_cam rt inp None s = get_cam rt inp (Some k) s).
Proof.
  split.
  - intros logits c Sh Wf Hc Hfin. unfold wf_tensor in Wf. rewrite Sh in Wf.
    cbn [numel fold_right] in Wf.
    unfold argmax_item. rewrite Sh.
    replace (c =? 0) with false by (symmetry; apply Nat.eqb_neq; lia).
    cbn [numel fold_right Nat.mul Nat.add Nat.eqb].
    destruct (data logits) as [|x l] eqn:Ed; [cbn in Wf; lia|].
    cbn [forallb] in Hfin. apply andb_true_iff in Hfin as [Hx Hl].
    destruct x as [a| | |]; try discriminate.
    destruct (argmax_from_inv l [Fin a] 1 a 0 Hl eq_refl) as (Hk & m & Hm & Hle & Hlt).
    + lia.
    + reflexivity.
    + intros j q Hj Hq. destruct j; [|lia]. inversion Hq. apply Qle_refl.
    + intros j q Hj. lia.
    + cbn [app] in *. exists (argmax_from l 1 (Fin a) 0), m.
      split; [reflexivity|]. split; [cbn [length] in *; lia|].
      split; [exact Hm|]. split; [|exact Hlt].
      intros j q Hj. apply Hle. cbn [length] in *. lia.
  - intros rt inp s logits k Hf Ha. apply get_cam_same_column.
    intros lg Hlg. rewrite Hf in Hlg. inversion Hlg; subst lg.
    rewrite Ha. reflexivity.
Qed.

Lemma default_class_is_first_top_score_witness :
  argmax_item logits = inr 1%Z /\
  get_cam rt_ok input None (world0, engine0)
  = get_cam rt_ok input (Some 1%Z) (world0, engine0).
Proof.
  split; [reflexivity|].
  exact (proj2 default_class_is_first_top_score rt_ok input (world0, engine0)
               logits 1%Z eq_refl eq_refl).
Defined.

(** The class index is a column index of the scores: a negative index
    counts from the end, so [k - c] explains the same class as [k]; an
    index outside [-c, c) makes the call raise [IndexError] once the
    forward pass has returned its scores. *)
Theorem class_index_wraps_and_is_bounded :
  (forall (rt : Runtime) (inp : Tensor fnum) (s : St) (c : nat) (k : Z),
      (forall lg,
          forward_result
            (run_forward rt (model (snd s)) (_target_module (snd s)) inp)
          = inr lg ->
          exists n rest, shape lg = n :: c :: rest) ->
      (0 <= k < Z.of_nat c)%Z ->
      get_cam rt inp (Some (k - Z.of_nat c)%Z) s = get_cam rt inp (Some k) s)
  /\
  (forall (rt : Runtime) (inp : Tensor fnum) (s : St) (lg : Tensor fnum)
          (n c : nat) (rest : list nat) (k : Z),
      is_module (_target_module (snd s)) = true ->
      forallb snd
        (hook_outputs
           (run_forward rt (model (snd s)) (_target_module (snd s)) inp))
      = true ->
      forward_result
        (run_forward rt (model (snd s)) (_target_module (snd s)) inp)
      = inr lg ->
      shape lg = n :: c :: rest ->
      (k < - Z.of_nat c \/ Z.of_nat c <= k)%Z ->
      snd (get_cam rt inp (Some k) s) = inl IndexError).
Proof.
  split.
  - intros rt inp s c k Hshape Hk. apply get_cam_same_column.
    intros lg Hlg. destruct (Hshape lg Hlg) as (n & rest & Sh).
    cbn [res_bind]. unfold select_class. rewrite Sh.
    replace (0 <=? k - Z.of_nat c)%Z with false
      by (symmetry; apply Z.leb_gt; lia).
    replace (0 <=? k)%Z with true by (symmetry; apply Z.leb_le; lia).
    replace (k <? Z.of_nat c)%Z with true by (symmetry; apply Z.ltb_lt; lia).
    replace (- Z.of_nat c <=? k - Z.of_nat c)%Z with true
      by (symmetry; apply Z.leb_le; lia).
    replace (k - Z.of_nat c <? 0)%Z with true
      by (symmetry; apply Z.ltb_lt; lia).
    cbn [andb]. f_equal. f_equal. lia.
  - intros rt inp s lg n c rest k Hmod Hhooks Hf Sh Hk.
    rewrite get_cam_unfold.
    destruct (_target_module (snd s)) as [| |id cls tr mods attrs] eqn:Ht;
      try discriminate.
    cbn [is_none]. unfold bind at 1. rewrite clear_captures_run.
    destruct s as [w e]. cbn [fst snd] in *.
    set (e1 := set_gradients None (set_activations None e)).
    assert (Ht1 : _target_module e1 = PyModule id cls tr mods attrs)
      by (destruct e; exact Ht).
    assert (Hm1 : model e1 = model e) by (destruct e; reflexivity).
    unfold bind at 1. rewrite (instrumented_pass_run rt inp _ w e1 Ht1).
    rewrite forward_backward_run.
    pose proof (call_model_completes rt inp (hooked id w, e1)) as Hc.
    cbn [snd] in Hc. rewrite Ht1, Hm1 in Hc. specialize (Hc Hhooks).
    rewrite Hf in Hc.
    destruct (call_model rt inp (hooked id w, e1)) as [s1 r]. cbn [snd] in Hc.
    subst r. cbn [res_bind]. unfold select_class. rewrite Sh.
    replace ((0 <=? k)%Z && (k <? Z.of_nat c)%Z) with false
      by (symmetry; apply andb_false_iff;
          destruct Hk; [left; apply Z.leb_gt|right; apply Z.ltb_ge]; lia).
    replace ((- Z.of_nat c <=? k)%Z && (k <? 0)%Z) with false
      by (symmetry; apply andb_false_iff;
          destruct Hk; [left; apply Z.leb_gt|right; apply Z.ltb_ge]; lia).
    reflexivity.
Qed.

Lemma class_index_wraps_and_is_bounded_witness :
  get_cam rt_ok input (Some (-1)%Z) (world0, engine0)
  = get_cam rt_ok input (Some 2%Z) (world0, engine0) /\
  snd (get_cam rt_ok input (Some 3%Z) (world0, engine0)) = inl IndexError.
Proof.
  split.
  - refine (proj1 class_index_wraps_and_is_bounded rt_ok input
                  (world0, engine0) 3 2%Z _ _).
    + intros lg Hlg. inversion Hlg. exists 1, []. reflexivity.
    + lia.
  - refine (proj2 class_index_wraps_and_is_bounded rt_ok input
                  (world0, engine0) logits 1 3 [] 3%Z
                  eq_refl eq_refl eq_refl eq_refl _).
    right. vm_compute. discriminate.
Defined.

Lemma get_cam_hooks_cases :
  forall (rt : Runtime) (inp : Tensor fnum) (tc : option Z) (s : St),
    handles_fresh (fst s) ->
    handles_fresh (fst (fst (get_cam rt inp tc s))) /\
    (forward_hooks (fst (fst (get_cam rt inp tc s))) = forward_hooks (fst s) \/
     exists id, forward_hooks (fst (fst (get_cam rt inp tc s)))
                = forward_hooks (fst s) ++ [(next_handle (fst s), id)]).
Proof.
  intros rt inp tc [w e] Hfresh. cbn [fst] in Hfresh.
  destruct (get_cam rt inp tc (w, e)) as [s' r] eqn:E. cbn [fst].
  rewrite get_cam_unfold in E. cbn [snd fst] in E.
  destruct (is_none (_target_module e)) eqn:Hn.
  { cbn in E. inversion E; subst. cbn. split; [exact Hfresh|now left]. }
  unfold bind at 1 in E. rewrite clear_captures_run in E. cbn [fst snd] in E.
  set (e1 := set_gradients None (set_activations None e)) in E.
  unfold bind at 1 in E.
  destruct (_target_module e1) as [| |id cls tr mods attrs] eqn:Ht.
  - rewrite instrumented_pass_not_module in E by (cbn [snd]; now rewrite Ht).
    inversion E; subst. cbn [fst]. split; [exact Hfresh|now left].
  - rewrite instrumented_pass_not_module in E by (cbn [snd]; now rewrite Ht).
    inversion E; subst. cbn [fst]. split; [exact Hfresh|now left].
  - rewrite (instrumented_pass_run rt inp _ w e1 Ht) in E.
    pose proof (forward_backward_world rt inp tc (hooked id w, e1)) as Hw.
    unfold same_world in Hw. cbn [fst] in Hw.
    destruct (forward_backward rt inp tc (hooked id w, e1)) as [s2 [ex|[]]];
      cbn [fst] in Hw.
    + inversion E; subst s' r. rewrite Hw.
      cbn [hooked forward_hooks next_handle]. split.
      * unfold handles_fresh. cbn [forward_hooks next_handle].
        apply Forall_app. split.
        -- eapply Forall_impl; [|exact Hfresh]. cbn. intros a Ha. lia.
        -- constructor; [cbn; lia|constructor].
      * right. exists id. reflexivity.
    + destruct (heatmap_of_captures_frame rt
                  (unhooked (next_handle w) (fst s2), snd s2)) as (_ & Hh & Hn').
      rewrite E in Hh, Hn'. cbn [fst] in Hh, Hn'.
      assert (Hu : forward_hooks (unhooked (next_handle w) (fst s2))
                   = forward_hooks w).
      { rewrite Hw. cbn. apply filter_fresh_handle. exact Hfresh. }
      assert (Hnu : next_handle (unhooked (next_handle w) (fst s2))
                    = S (next_handle w)) by (rewrite Hw; reflexivity).
      split.
      * unfold handles_fresh. rewrite Hh, Hn', Hu, Hnu.
        eapply Forall_impl; [|exact Hfresh]. cbn. intros a Ha. lia.
      * left. rewrite Hh. exact Hu.
Qed.

(** A call never removes a hook it did not attach and leaves at most one
    more than it found; handle ids stay fresh. *)
Theorem get_cam_adds_at_most_one_hook :
  forall (rt : Runtime) (inp : Tensor fnum) (tc : option Z) (s : St),
    handles_fresh (fst s) ->
    handles_fresh (fst (fst (get_cam rt inp tc s))) /\
    (forward_hooks (fst (fst (get_cam rt inp tc s))) = forward_hooks (fst s) \/
     exists id, forward_hooks (fst (fst (get_cam rt inp tc s)))
                = forward_hooks (fst s) ++ [(next_handle (fst s), id)]).
Proof. exact get_cam_hooks_cases. Qed.

Lemma get_cam_adds_at_most_one_hook_witness :
  handles_fresh
    (fst (fst (get_cam rt_backward_raises input None (world0, engine0)))) /\
  forward_hooks
    (fst (fst (get_cam rt_backward_raises input None (world0, engine0))))
  = [(0, 6)].
Proof.
  split.
  - apply (get_cam_adds_at_most_one_hook rt_backward_raises input None
             (world0, engine0)). constructor.
  - reflexivity.
Defined.

Lemma last_opt_in {A} (l : list A) (a : A) : last_opt l = Some a -> In a l.
Proof.
  induction l as [|x l IH]; [discriminate|].
  cbn [last_opt]. destruct l as [|y l'].
  - intros E. inversion E. now left.
  - intros E. right. apply IH. exact E.
Qed.

Lemma candidates_are_convs (rt : Runtime) (model : PyVal) (name : string)
      (m : PyVal) :
  In (name, m) (candidates_of rt model) -> is_conv2d m = true.
Proof.
  assert (Hc : forall prefix root, In (name, m) (conv_candidates prefix root) ->
                                   is_conv2d m = true).
  { intros prefix root Hin. unfold conv_candidates in Hin.
    apply in_map_iff in Hin as ([n' m'] & E & Hin). inversion E; subst.
    apply filter_In in Hin. tauto. }
  unfold candidates_of.
  destruct (is_module _).
  - destruct (conv_candidates "features." _) eqn:E.
    + apply Hc.
    + rewrite <- E. apply Hc.
  - cbn. apply Hc.
Qed.

(** Every engine that [__init__] returns has a target and a name for it,
    and empty capture buffers.  With a path the name is the path and
    nothing is printed; without one the target is a [Conv2d] and the one
    line printed names it. *)
Theorem constructed_engine_has_target :
  forall (rt : Runtime) (w w' : World) (model m' : PyVal) (tl : option string)
         (e : t),
    __init__ rt w model tl = (w', m', inr e) ->
    is_module model = true /\
    is_none (_target_module e) = false /\
    _activations e = None /\ _gradients e = None /\
    match tl with
    | Some path => _target_module_name e = Some path /\ w' = w
    | None =>
        is_conv2d (_target_module e) = true /\
        exists name,
          _target_module_name e = Some name /\
          w' = print ("[GradCAM] Auto-selected target layer: " ++ name) w
    end.
Proof.
  intros rt w w' model m' tl e H.
  destruct (is_module model) eqn:Hm;
    [|unfold __init__ in H; rewrite Hm in H; discriminate].
  split; [reflexivity|]. destruct tl as [path|].
  - unfold __init__ in H. rewrite Hm in H. cbn [negb] in H.
    destruct (is_none (_get_module_by_name rt (eval model) path)) eqn:Hn;
      [discriminate|].
    inversion H; subst. cbn. auto.
  - rewrite init_auto_run in H by exact Hm.
    destruct (last_opt (candidates_of rt (eval model))) as [[name module]|] eqn:El;
      [|discriminate].
    destruct (is_none module) eqn:Hn; [discriminate|].
    inversion H; subst. cbn. repeat split; auto.
    + apply last_opt_in in El. exact (candidates_are_convs _ _ _ _ El).
    + exists name. auto.
Qed.

Lemma constructed_engine_has_target_witness :
  exists w' e,
    __init__ rt_ok world0 (net true) None = (w', net false, inr e) /\
    is_conv2d (_target_module e) = true.
Proof.
  eexists. eexists. split; [vm_compute; reflexivity|].
  refine (proj1 (proj2 (proj2 (proj2 (proj2
            (constructed_engine_has_target rt_ok world0 _ (net true) (net false)
               None _ _)))))).
  vm_compute. reflexivity.
Defined.

(** A path may name something that is not a module (a parameter, a
    method): construction accepts it, and then every [get_cam] raises
    [AttributeError] at [register_forward_hook], with the buffers emptied
    and no hook attached. *)
Theorem non_module_target_fails_at_first_call :
  forall (rt : Runtime) (inp : Tensor fnum) (tc : option Z) (s : St),
    is_none (_target_module (snd s)) = false ->
    is_module (_target_module (snd s)) = false ->
    get_cam rt inp tc s = (discard_captures s, inl AttributeError).
Proof.
  intros rt inp tc s Hn Hm. rewrite get_cam_unfold, Hn.
  unfold bind at 1. rewrite clear_captures_run.
  fold (discard_captures s). unfold bind at 1.
  rewrite instrumented_pass_not_module; [reflexivity|].
  rewrite discard_captures_target. exact Hm.
Qed.

Lemma non_module_target_fails_at_first_call_witness :
  exists e,
    snd (__init__ rt_ok world0 (net false) (Some "features.C.weight"%string)) = inr e /\
    get_cam rt_ok input None (world0, e)
    = (discard_captures (world0, e), inl AttributeError).
Proof.
  eexists. split; [vm_compute; reflexivity|].
  apply non_module_target_fails_at_first_call; reflexivity.
Defined.

End GetCamMore.

(* ===================================================================== *)
(** ** More on the renderer                                               *)
(* ===================================================================== *)

Section RendererMore.

Import PIL Utils.

Lemma byte_in_all (b : byte) : In b all_bytes.
Proof.
  replace b with (nth (N.to_nat (Byte.to_N b)) all_bytes x00)
    by (destruct b; reflexivity).
  apply nth_In. apply Nat.ltb_lt. destruct b; vm_compute; reflexivity.
Qed.

Lemma forall_byte_spec (P : byte -> bool) :
  forall_byte P = true -> forall b, P b = true.
Proof.
  unfold forall_byte. rewrite forallb_forall. intros H b. apply H, byte_in_all.
Qed.

Lemma tint_pixel_checked :
  forall_byte (fun a => forall_byte (fun v => tint_pixel_ok a v)) = true.
Proof. vm_compute. reflexivity. Qed.

(** Compositing over an opaque pixel gives an opaque pixel. *)
Lemma alpha_channel_opaque (sa : byte) :
  z2b (SHIFTFORDIV255
         (u32 (u32 (b2z sa * 255 + u32 (b2z xff * (255 - b2z sa))) + 128)))
  = xff.
Proof. destruct sa; vm_compute; reflexivity. Qed.

Lemma composite_alpha_opaque (dst src : byte * byte * byte * byte) :
  px_alpha dst = xff -> px_alpha (composite_pixel dst src) = xff.
Proof.
  destruct dst as [[[dr dg] db] da], src as [[[sr sg] sb] sa].
  unfold px_alpha. cbn [snd]. intros ->. unfold composite_pixel.
  destruct (b2z sa =? 0)%Z; [reflexivity|]. cbv zeta. cbn [snd].
  apply alpha_channel_opaque.
Qed.

(** The channels of the tint over an opaque pixel do not depend on one
    another. *)
Lemma composite_tint_channels (r g b a : byte) :
  composite_pixel (r, g, b, xff) (xff, x00, x00, a)
  = (px_red (composite_pixel (r, r, r, xff) (xff, x00, x00, a)),
     px_green (composite_pixel (g, g, g, xff) (xff, x00, x00, a)),
     px_green (composite_pixel (b, b, b, xff) (xff, x00, x00, a)),
     xff).
Proof.
  unfold composite_pixel.
  destruct (b2z a =? 0)%Z; [reflexivity|]. cbv zeta.
  unfold px_red, px_green. cbn [fst snd].
  rewrite alpha_channel_opaque. reflexivity.
Qed.

Lemma composite_transparent (p : byte * byte * byte * byte)
      (r g b a : byte) :
  b2z a = 0%Z -> composite_pixel p (r, g, b, a) = p.
Proof.
  intros Ha. unfold composite_pixel. destruct p as [[[dr dg] db] da].
  rewrite Ha. reflexivity.
Qed.

Lemma zip_with_nth_error {A B C} (f : A -> B -> C) (a : list A) (b : list B)
      (i : nat) (q : C) :
  nth_error (zip_with f a b) i = Some q ->
  exists x y, nth_error a i = Some x /\ nth_error b i = Some y /\ q = f x y.
Proof.
  revert b i. induction a as [|x a IH]; intros [|y b] [|i] H;
    cbn in H; try discriminate.
  - injection H as <-. exists x, y. repeat split.
  - apply IH in H. exact H.
Qed.

Lemma zip_with_Forall {A B C} (f : A -> B -> C) (P : A -> Prop) (Q : C -> Prop)
      (a : list A) (b : list B) :
  (forall x y, P x -> Q (f x y)) ->
  Forall P a -> Forall Q (zip_with f a b).
Proof.
  intros Hf Ha. revert b. induction Ha as [|x a Hx Ha IH]; intros [|y b];
    cbn; constructor; auto.
Qed.

Lemma zip4_solid_firstn {A} (a b c : A) (n : nat) (l : list A) :
  zip4 (repeat a n) (repeat b n) (repeat c n) l
  = map (fun v => (a, b, c, v)) (firstn n l).
Proof.
  revert l. induction n as [|n IH]; intros [|x l]; cbn; try reflexivity.
  now rewrite IH.
Qed.

Lemma size_eqb_eq (a b : nat * nat) : size_eqb a b = true -> a = b.
Proof.
  destruct a, b. unfold size_eqb. cbn [fst snd]. intros H.
  apply andb_true_iff in H as [H1 H2].
  apply Nat.eqb_eq in H1, H2. now subst.
Qed.

Lemma convert_RGBA_pixels (im : Image) :
  convert_RGBA im = RGBA (size im) (rgba_pixels im).
Proof. destruct im; reflexivity. Qed.

Lemma fromarray_L_is_L (arr : Tensor byte) (img : Image) :
  fromarray_L arr = inr img -> exists s px, img = L s px.
Proof.
  unfold fromarray_L. destruct (shape arr) as [|n [|w [|k rest]]];
    intros H; try discriminate; injection H as <-; eauto.
Qed.

Lemma resize_is_L (bilinear : list byte -> nat * nat -> nat * nat -> list byte)
      (img out : Image) (sz : nat * nat) :
  resize bilinear img sz = inr out -> exists px, out = L sz px.
Proof.
  unfold resize. destruct img as [s px| |]; try discriminate.
  destruct (size_eqb s sz) eqn:E; intros H; injection H as <-.
  - apply size_eqb_eq in E. subst. eauto.
  - eauto.
Qed.

(** A rendering that returns is the base, converted to RGBA, with a solid
    red layer composited over it pixel by pixel. *)
Lemma rgba_overlay_run
      (bilinear : list byte -> nat * nat -> nat * nat -> list byte)
      (base : Image) (hm : Tensor spec_float) (scale : spec_float)
      (out : Image) :
  _rgba_heatmap_overlay bilinear base hm scale = inr out ->
  exists heat : list byte,
    out = RGBA (size base)
               (zip_with composite_pixel (rgba_pixels base)
                  (map (fun v => (xff, x00, x00, alpha_of scale v)) heat)).
Proof.
  unfold _rgba_heatmap_overlay.
  destruct (if dim hm =? 3 then take_channel0 hm else inr hm) as [e|h1];
    cbn [res_bind]; [discriminate|].
  destruct (fromarray_L _) as [e|img1] eqn:E1; cbn [res_bind]; [discriminate|].
  destruct (resize bilinear img1 (size base)) as [e|img2] eqn:E2;
    cbn [res_bind]; [discriminate|].
  apply resize_is_L in E2 as [px ->].
  cbn [point res_bind]. unfold merge_RGBA, new_L.
  rewrite size_eqb_refl. cbn [andb res_bind].
  rewrite zip4_solid_firstn, convert_RGBA_pixels.
  unfold alpha_composite. rewrite size_eqb_refl.
  intros H. injection H as <-.
  exists (firstn (fst (size base) * snd (size base)) px).
  rewrite firstn_map, map_map. reflexivity.
Qed.


Lemma rgba_overlay_facts :
  forall (bilinear : list byte -> nat * nat -> nat * nat -> list byte)
         (base : Image) (hm : Tensor spec_float) (scale : spec_float)
         (out : Image),
    _rgba_heatmap_overlay bilinear base hm scale = inr out ->
    size out = size base /\
    mode out = "RGBA"%string /\
    length (rgba_pixels out) <= length (rgba_pixels base) /\
    (Forall (fun p => px_alpha p = xff) (rgba_pixels base) ->
     Forall (fun p => px_alpha p = xff) (rgba_pixels out)) /\
    (is_rgba base = false ->
     Forall (fun p => px_alpha p = xff) (rgba_pixels out)).
Proof.
  intros bilinear base hm scale out H.
  apply rgba_overlay_run in H as [heat ->].
  assert (Hop : Forall (fun p => px_alpha p = xff) (rgba_pixels base) ->
                Forall (fun p => px_alpha p = xff)
                  (zip_with composite_pixel (rgba_pixels base)
                     (map (fun v => (xff, x00, x00, alpha_of scale v)) heat))).
  { apply zip_with_Forall. intros x y. apply composite_alpha_opaque. }
  repeat split; try reflexivity.
  - cbn [rgba_pixels convert_RGBA]. rewrite zip_with_length. apply Nat.le_min_l.
  - exact Hop.
  - intros Hb. apply Hop. destruct base as [s px|s px|s px];
      try discriminate; unfold rgba_pixels; cbn [convert_RGBA];
      apply Forall_forall; intros p Hp; apply in_map_iff in Hp as [x [<- _]].
    + reflexivity.
    + destruct x as [[r g] b]. reflexivity.
Qed.

(** The rendering has the size of the base image and mode RGBA, and never
    more pixels than the base; wherever the base is opaque so is the
    rendering, so that over an L or RGB image it is opaque everywhere,
    whatever the heatmap and the alpha scale. *)
Theorem overlay_keeps_size_and_opacity :
  forall (bilinear : list byte -> nat * nat -> nat * nat -> list byte)
         (base : Image) (hm : Tensor spec_float) (scale : spec_float)
         (out : Image),
    _rgba_heatmap_overlay bilinear base hm scale = inr out ->
    size out = size base /\
    mode out = "RGBA"%string /\
    length (rgba_pixels out) <= length (rgba_pixels base) /\
    (Forall (fun p => px_alpha p = xff) (rgba_pixels base) ->
     Forall (fun p => px_alpha p = xff) (rgba_pixels out)) /\
    (is_rgba base = false ->
     Forall (fun p => px_alpha p = xff) (rgba_pixels out)).
Proof. exact rgba_overlay_facts. Qed.

Lemma overlay_keeps_size_and_opacity_witness :
  size (RGBA (2, 1) [(x74, x14, x1e, xff); (xc0, x00, x00, xff)]) = (2, 1) /\
  Forall (fun p => px_alpha p = xff)
         (rgba_pixels (RGBA (2, 1) [(x74, x14, x1e, xff); (xc0, x00, x00, xff)])).
Proof.
  pose proof (overlay_keeps_size_and_opacity (fun px _ _ => px)
                (RGB (2, 1) [(x20, x20, x30); (x00, x00, x00)])
                (mkTensor [1; 2] [f32 1 (-1); f32 1 0])
                default_alpha_scale
                (RGBA (2, 1) [(x74, x14, x1e, xff); (xc0, x00, x00, xff)]))
    as H.
  destruct H as (Hs & _ & _ & _ & Ho); [vm_compute; reflexivity|].
  split; [exact Hs|apply Ho; reflexivity].
Defined.


Lemma tint_pixel_facts (a c : byte) :
  (b2z c <= b2z (px_red (composite_pixel (c, c, c, xff) (xff, x00, x00, a))))%Z /\
  (b2z (px_green (composite_pixel (c, c, c, xff) (xff, x00, x00, a))) <= b2z c)%Z /\
  rounded_blend 255 (b2z c) (b2z a)
    (b2z (px_red (composite_pixel (c, c, c, xff) (xff, x00, x00, a)))) = true /\
  rounded_blend 0 (b2z c) (b2z a)
    (b2z (px_green (composite_pixel (c, c, c, xff) (xff, x00, x00, a)))) = true.
Proof.
  pose proof (forall_byte_spec _
                (forall_byte_spec _ tint_pixel_checked a) c) as Hc.
  unfold tint_pixel_ok in Hc. cbv zeta in Hc.
  apply andb_true_iff in Hc as [Hc H4].
  apply andb_true_iff in Hc as [Hc H3].
  apply andb_true_iff in Hc as [H1 H2].
  apply Z.leb_le in H1, H2. auto.
Qed.

(** Over an opaque pixel of the base the rendering only moves towards red:
    red does not fall, green and blue do not rise, and each channel is the
    exact blend with the tint (255, 0, 0) at the pixel's alpha, rounded to
    the nearest integer; the result is opaque, and a pixel whose alpha is 0
    is the base pixel unchanged. *)
Theorem overlay_tints_towards_red :
  forall (bilinear : list byte -> nat * nat -> nat * nat -> list byte)
         (base : Image) (hm : Tensor spec_float) (scale : spec_float)
         (out : Image),
    _rgba_heatmap_overlay bilinear base hm scale = inr out ->
    forall (i : nat) (p q : byte * byte * byte * byte),
      nth_error (rgba_pixels base) i = Some p ->
      nth_error (rgba_pixels out) i = Some q ->
      px_alpha p = xff ->
      exists v : byte,
        (b2z (px_red p) <= b2z (px_red q))%Z /\
        (b2z (px_green q) <= b2z (px_green p))%Z /\
        (b2z (px_blue q) <= b2z (px_blue p))%Z /\
        rounded_blend 255 (b2z (px_red p)) (b2z (alpha_of scale v))
                      (b2z (px_red q)) = true /\
        rounded_blend 0 (b2z (px_green p)) (b2z (alpha_of scale v))
                      (b2z (px_green q)) = true /\
        rounded_blend 0 (b2z (px_blue p)) (b2z (alpha_of scale v))
                      (b2z (px_blue q)) = true /\
        px_alpha q = xff /\
        (b2z (alpha_of scale v) = 0%Z -> q = p).
Proof.
  intros bilinear base hm scale out H i p q Hp Hq Ha.
  apply rgba_overlay_run in H as [heat ->].
  cbn [rgba_pixels convert_RGBA] in Hq.
  apply zip_with_nth_error in Hq as (x & y & Hx & Hy & ->).
  rewrite Hp in Hx. injection Hx as <-.
  rewrite nth_error_map in Hy.
  destruct (nth_error heat i) as [v|]; [|discriminate].
  injection Hy as <-. exists v.
  destruct p as [[[r g] b] a]. unfold px_alpha in Ha. cbn [snd] in Ha. subst a.
  assert (H0 : b2z (alpha_of scale v) = 0%Z ->
               composite_pixel (r, g, b, xff)
                 (xff, x00, x00, alpha_of scale v) = (r, g, b, xff))
    by apply composite_transparent.
  revert H0. rewrite composite_tint_channels.
  destruct (tint_pixel_facts (alpha_of scale v) r) as (Hr1 & _ & Hr2 & _).
  destruct (tint_pixel_facts (alpha_of scale v) g) as (_ & Hg1 & _ & Hg2).
  destruct (tint_pixel_facts (alpha_of scale v) b) as (_ & Hb1 & _ & Hb2).
  revert Hr1 Hr2 Hg1 Hg2 Hb1 Hb2.
  generalize (px_red (composite_pixel (r, r, r, xff)
                        (xff, x00, x00, alpha_of scale v))).
  generalize (px_green (composite_pixel (g, g, g, xff)
                          (xff, x00, x00, alpha_of scale v))).
  generalize (px_green (composite_pixel (b, b, b, xff)
                          (xff, x00, x00, alpha_of scale v))).
  intros B G R Hr1 Hr2 Hg1 Hg2 Hb1 Hb2 H0.
  unfold px_red, px_green, px_blue, px_alpha. cbn [fst snd].
  repeat split; assumption.
Qed.

Lemma overlay_tints_towards_red_witness :
  exists v : byte,
    (b2z x20 <= b2z x74)%Z /\ (b2z x14 <= b2z x20)%Z /\ (b2z x1e <= b2z x30)%Z /\
    rounded_blend 255 (b2z x20) (b2z (alpha_of default_alpha_scale v))
                  (b2z x74) = true.
Proof.
  destruct (overlay_tints_towards_red (fun px _ _ => px)
              (RGB (2, 1) [(x20, x20, x30); (x00, x00, x00)])
              (mkTensor [1; 2] [f32 1 (-1); f32 1 0])
              default_alpha_scale
              (RGBA (2, 1) [(x74, x14, x1e, xff); (xc0, x00, x00, xff)])
              ltac:(vm_compute; reflexivity)
              0 (x20, x20, x30, xff) (x74, x14, x1e, xff)
              eq_refl eq_refl eq_refl)
    as (v & H1 & H2 & H3 & H4 & _).
  exists v. repeat split; assumption.
Defined.


Lemma f32_zero : f32 0 0 = S754_zero false.
Proof. reflexivity. Qed.

Lemma f32_one : f32 1 0 = S754_finite false 8388608 (-23).
Proof. vm_compute. reflexivity. Qed.

Lemma np_clip01_below (x : spec_float) :
  SFltb x (f32 0 0) = true -> np_clip01 x = f32 0 0.
Proof.
  intros H. unfold np_clip01, np_maximum.
  destruct x; try discriminate H; cbn [is_nan]; rewrite H; reflexivity.
Qed.

Lemma np_clip01_above (x : spec_float) :
  SFltb (f32 1 0) x = true -> np_clip01 x = f32 1 0.
Proof.
  rewrite f32_one. intros H. unfold np_clip01, np_maximum, np_minimum.
  rewrite f32_zero, f32_one.
  assert (Hn : is_nan x = false)
    by (destruct x; try reflexivity; discriminate H).
  assert (H0 : SFltb x (S754_zero false) = false).
  { destruct x as [s|s| |s m e]; try discriminate H; destruct s;
      try discriminate H; reflexivity. }
  rewrite Hn, H0. cbn [is_nan]. rewrite Hn, H. reflexivity.
Qed.

Lemma np_clip01_idem (x : spec_float) : np_clip01 (np_clip01 x) = np_clip01 x.
Proof.
  destruct (is_nan x) eqn:Hn.
  { destruct x; try discriminate Hn. reflexivity. }
  destruct (SFltb x (f32 0 0)) eqn:H0.
  { rewrite (np_clip01_below x H0). reflexivity. }
  destruct (SFltb (f32 1 0) x) eqn:H1.
  { rewrite (np_clip01_above x H1). vm_compute. reflexivity. }
  assert (E : np_clip01 x = x).
  { unfold np_clip01, np_maximum, np_minimum.
    rewrite Hn, H0. change (is_nan (f32 0 0)) with false.
    change (is_nan (f32 1 0)) with false. cbv iota.
    rewrite Hn, H1. reflexivity. }
  rewrite !E. reflexivity.
Qed.

Lemma chunks_map {A B} (f : A -> B) (n k : nat) (l : list A) :
  chunks n k (map f l) = map (map f) (chunks n k l).
Proof.
  revert l. induction n as [|n IH]; intros l; cbn [chunks map];
    [reflexivity|].
  now rewrite firstn_map, skipn_map, IH.
Qed.

Lemma take_channel0_map {A B} (f : A -> B) (t : Tensor A) :
  take_channel0 (mkTensor (shape t) (map f (data t)))
  = match take_channel0 t with
    | inl e => inl e
    | inr u => inr (mkTensor (shape u) (map f (data u)))
    end.
Proof.
  unfold take_channel0. cbn [shape data].
  destruct (shape t) as [|h [|w [|k [|? ?]]]]; try reflexivity.
  destruct (k =? 0); [reflexivity|]. cbn [shape data]. f_equal. f_equal.
  rewrite chunks_map, map_map, concat_map, map_map.
  f_equal. apply map_ext. intros c. apply firstn_map.
Qed.

(** Heat values are clamped to [0, 1] before they are quantised: a value
    below 0 renders as intensity 0 and a value above 1 as intensity 255,
    and clamping the heatmap beforehand does not change the rendering. *)
Theorem heat_is_clamped_to_unit_interval :
  (forall x : spec_float,
      SFltb x (f32 0 0) = true -> quantize (np_clip01 x) = x00) /\
  (forall x : spec_float,
      SFltb (f32 1 0) x = true -> quantize (np_clip01 x) = xff) /\
  (forall (bilinear : list byte -> nat * nat -> nat * nat -> list byte)
          (base : Image) (hm : Tensor spec_float) (scale : spec_float),
      _rgba_heatmap_overlay bilinear base
        (mkTensor (shape hm) (map np_clip01 (data hm))) scale
      = _rgba_heatmap_overlay bilinear base hm scale).
Proof.
  split; [|split].
  - intros x H. rewrite (np_clip01_below x H). vm_compute. reflexivity.
  - intros x H. rewrite (np_clip01_above x H). vm_compute. reflexivity.
  - intros bilinear base hm scale. unfold _rgba_heatmap_overlay.
    unfold dim. cbn [shape].
    assert (Hidem : forall l, map np_clip01 (map np_clip01 l)
                              = map np_clip01 l).
    { intros l. rewrite map_map. apply map_ext, np_clip01_idem. }
    destruct (length (shape hm) =? 3).
    + rewrite take_channel0_map.
      destruct (take_channel0 hm) as [e|u]; cbn [res_bind shape data];
        [reflexivity|].
      rewrite Hidem. reflexivity.
    + cbn [res_bind shape data]. rewrite Hidem. reflexivity.
Qed.

Lemma heat_is_clamped_to_unit_interval_witness :
  quantize (np_clip01 (binary_normalize 24 128 (-3) 0 false)) = x00 /\
  quantize (np_clip01 (f32 5 0)) = xff.
Proof.
  split.
  - apply (proj1 heat_is_clamped_to_unit_interval). vm_compute. reflexivity.
  - apply (proj1 (proj2 heat_is_clamped_to_unit_interval)).
    vm_compute. reflexivity.
Defined.

Lemma convert_RGBA_of_RGB (img : Image) :
  Forall (fun p => px_alpha p = xff) (rgba_pixels img) ->
  convert_RGBA (convert_RGB img) = convert_RGBA img.
Proof.
  destruct img as [s px|s px|s px]; unfold rgba_pixels;
    cbn [convert_RGBA convert_RGB]; intros H.
  - now rewrite map_map.
  - reflexivity.
  - f_equal. rewrite map_map. rewrite <- (map_id px) at 2.
    apply map_ext_in. intros [[[r g] b] a] Hin.
    rewrite Forall_forall in H. specialize (H _ Hin).
    unfold px_alpha in H. cbn [snd] in H. now subst.
Qed.

Lemma size_convert_RGB (img : Image) : size (convert_RGB img) = size img.
Proof. destruct img; reflexivity. Qed.

(** The two renderers of [GradCAM.overlay] agree on every image without
    transparency (L, RGB, or RGBA with alpha 255 everywhere) and every
    heatmap that is not 3-dimensional.  On a 3-dimensional heatmap the
    fallback always raises ValueError, where the renderer of [utils]
    takes the first channel. *)
Theorem overlay_fallback_matches_utils :
  forall (bilinear : list byte -> nat * nat -> nat * nat -> list byte)
         (self : GradCAM.t) (pil_img : Image) (hm : Tensor spec_float),
    (Forall (fun p => px_alpha p = xff) (rgba_pixels pil_img) ->
     dim hm <> 3 ->
     GradCAM.overlay bilinear false self pil_img (Some hm)
     = GradCAM.overlay bilinear true self pil_img (Some hm)) /\
    (dim hm = 3 ->
     exists msg,
       GradCAM.overlay bilinear false self pil_img (Some hm)
       = inl (ValueError msg)).
Proof.
  intros bilinear self pil_img hm. split.
  - intros Hop Hd. unfold GradCAM.overlay, _rgba_heatmap_overlay.
    apply Nat.eqb_neq in Hd. rewrite Hd. cbn [res_bind].
    rewrite size_convert_RGB, (convert_RGBA_of_RGB pil_img Hop).
    reflexivity.
  - intros Hd. unfold GradCAM.overlay, fromarray_L. cbn [shape data].
    unfold dim in Hd.
    destruct (shape hm) as [|h [|w [|k [|? ?]]]]; try discriminate Hd.
    eexists. reflexivity.
Qed.

Lemma overlay_fallback_matches_utils_witness :
  GradCAM.overlay (fun px _ _ => px) false engine0
    (L (2, 1) [x20; x00]) (Some (mkTensor [1; 2] [f32 1 (-1); f32 1 0]))
  = GradCAM.overlay (fun px _ _ => px) true engine0
      (L (2, 1) [x20; x00]) (Some (mkTensor [1; 2] [f32 1 (-1); f32 1 0])) /\
  exists msg,
    GradCAM.overlay (fun px _ _ => px) false engine0
      (L (1, 1) [x20]) (Some (mkTensor [1; 1; 1] [f32 1 0]))
    = inl (ValueError msg).
Proof.
  split.
  - apply (proj1 (overlay_fallback_matches_utils (fun px _ _ => px) engine0
                    (L (2, 1) [x20; x00])
                    (mkTensor [1; 2] [f32 1 (-1); f32 1 0]))).
    + repeat constructor.
    + vm_compute. discriminate.
  - apply (proj2 (overlay_fallback_matches_utils (fun px _ _ => px) engine0
                    (L (1, 1) [x20]) (mkTensor [1; 1; 1] [f32 1 0]))).
    reflexivity.
Defined.

End RendererMore.

(* ===================================================================== *)
(** ** The checkpoint loader                                              *)
(* ===================================================================== *)

Section LoaderFacts.

Import ModelLoader.
Local Open Scope string_scope.

Lemma fold_left_pointwise {A B} (f g : A -> B -> A) (l : list B) (a : A) :
  (forall x y, f x y = g x y) -> fold_left f l a = fold_left g l a.
Proof.
  intros H. revert a. induction l as [|y l IH]; intros a; cbn;
    [reflexivity|]. now rewrite H, IH.
Qed.

Lemma strip_as_fold (sd : StateDict) :
  _strip_module_prefix sd
  = fold_left (fun (fixed : StateDict) (kv : string * Obj) =>
                 dict_set (strip_key (fst kv)) (snd kv) fixed)
              sd [].
Proof.
  unfold _strip_module_prefix. apply fold_left_pointwise.
  intros fixed [k v]. unfold strip_key. cbn [fst snd].
  destruct (startswith "module." k); reflexivity.
Qed.

Lemma sd_get_app {V} (k : string) (a b : list (string * V)) :
  sd_get k (a ++ b)%list
  = match sd_get k a with Some v => Some v | None => sd_get k b end.
Proof.
  induction a as [|[k' v'] a IH]; cbn; [reflexivity|].
  destruct (String.eqb k' k); [reflexivity|exact IH].
Qed.

Lemma sd_get_none {V} (k : string) (d : list (string * V)) :
  sd_get k d = None <-> ~ In k (map fst d).
Proof.
  induction d as [|[k' v'] d IH]; cbn.
  - tauto.
  - destruct (String.eqb k' k) eqn:E.
    + apply String.eqb_eq in E. split; [discriminate|]. intros H.
      exfalso. apply H. now left.
    + apply String.eqb_neq in E. rewrite IH. tauto.
Qed.

Lemma sd_get_in {V} (k : string) (v : V) (d : list (string * V)) :
  sd_get k d = Some v -> In (k, v) d.
Proof.
  induction d as [|[k' v'] d IH]; cbn; [discriminate|].
  destruct (String.eqb k' k) eqn:E.
  - apply String.eqb_eq in E. intros H. injection H as ->. subst. now left.
  - intros H. right. auto.
Qed.

Lemma sd_get_nodup {V} (k : string) (v : V) (d : list (string * V)) :
  NoDup (map fst d) -> In (k, v) d -> sd_get k d = Some v.
Proof.
  induction d as [|[k' v'] d IH]; cbn; [tauto|].
  intros Hn [H|H].
  - injection H as -> ->. now rewrite String.eqb_refl.
  - inversion Hn as [|? ? Hnot Hn']. subst.
    destruct (String.eqb k' k) eqn:E.
    + apply String.eqb_eq in E. subst. exfalso. apply Hnot.
      apply (in_map fst) in H. exact H.
    + auto.
Qed.

Lemma sd_get_dict_set {V} (k k' : string) (v : V) (d : list (string * V)) :
  sd_get k (dict_set k' v d)
  = if String.eqb k' k then Some v else sd_get k d.
Proof.
  induction d as [|[k0 v0] d IH]; cbn; [reflexivity|].
  destruct (String.eqb k0 k') eqn:E0; cbn.
  - apply String.eqb_eq in E0. subst k0.
    destruct (String.eqb k' k); reflexivity.
  - rewrite IH. destruct (String.eqb k0 k) eqn:E1; [|reflexivity].
    apply String.eqb_eq in E1. subst k0. now rewrite String.eqb_sym, E0.
Qed.

Lemma dict_set_fresh {V} (k : string) (v : V) (d : list (string * V)) :
  sd_get k d = None -> dict_set k v d = (d ++ [(k, v)])%list.
Proof.
  induction d as [|[k0 v0] d IH]; cbn; [reflexivity|].
  destruct (String.eqb k0 k); [discriminate|]. intros H. now rewrite IH.
Qed.

Lemma dict_set_keys {V} (k : string) (v : V) (d : list (string * V)) :
  map fst (dict_set k v d)
  = match sd_get k d with
    | Some _ => map fst d
    | None => (map fst d ++ [k])%list
    end.
Proof.
  induction d as [|[k0 v0] d IH]; cbn; [reflexivity|].
  destruct (String.eqb k0 k); cbn; [reflexivity|].
  rewrite IH. destruct (sd_get k d); reflexivity.
Qed.

Lemma dict_set_nodup {V} (k : string) (v : V) (d : list (string * V)) :
  NoDup (map fst d) -> NoDup (map fst (dict_set k v d)).
Proof.
  intros H. rewrite dict_set_keys. destruct (sd_get k d) eqn:E; [exact H|].
  apply sd_get_none in E. apply NoDup_app; [exact H|repeat constructor; auto| ].
  intros x Hx [<-|[]]. exact (E Hx).
Qed.

Lemma dict_set_length {V} (k : string) (v : V) (d : list (string * V)) :
  length (dict_set k v d) <= S (length d).
Proof.
  rewrite <- (length_map fst), dict_set_keys.
  destruct (sd_get k d); rewrite ?length_app, length_map; cbn; lia.
Qed.

Section FoldSet.

Variable f : string -> string.

Local Abbreviation step :=
  (fun (fixed : StateDict) (kv : string * Obj) =>
     dict_set (f (fst kv)) (snd kv) fixed).

Lemma fold_set_fresh (items acc : StateDict) :
  NoDup (map f (map fst items)) ->
  (forall k, In k (map fst items) -> sd_get (f k) acc = None) ->
  fold_left step items acc
  = (acc ++ map (fun kv => (f (fst kv), snd kv)) items)%list.
Proof.
  revert acc. induction items as [|[k v] items IH]; intros acc Hn Hf; cbn.
  - now rewrite app_nil_r.
  - cbn in Hn. inversion Hn as [|? ? Hnot Hn']. subst.
    cbn [fst snd].
    rewrite dict_set_fresh by (apply Hf; now left).
    rewrite IH; [now rewrite <- app_assoc|exact Hn'|].
    intros k' Hk'. rewrite sd_get_app, Hf by (now right). cbn.
    destruct (String.eqb (f k) (f k')) eqn:E; [|reflexivity].
    apply String.eqb_eq in E. exfalso. apply Hnot. rewrite E.
    apply in_map. exact Hk'.
Qed.

Lemma fold_set_get (items acc : StateDict) (k : string) :
  sd_get k (fold_left step items acc)
  = match sd_get k (rev (map (fun kv => (f (fst kv), snd kv)) items)) with
    | Some v => Some v
    | None => sd_get k acc
    end.
Proof.
  revert acc. induction items as [|[k0 v0] items IH]; intros acc; cbn;
    [reflexivity|].
  rewrite IH, sd_get_app. cbn [fst snd].
  rewrite sd_get_dict_set. cbn.
  destruct (sd_get k (rev (map (fun kv => (f (fst kv), snd kv)) items)));
    [reflexivity|].
  destruct (String.eqb (f k0) k); reflexivity.
Qed.

Lemma fold_set_nodup (items acc : StateDict) :
  NoDup (map fst acc) -> NoDup (map fst (fold_left step items acc)).
Proof.
  revert acc. induction items as [|kv items IH]; intros acc H; cbn;
    [exact H|]. apply IH. apply dict_set_nodup. exact H.
Qed.

Lemma fold_set_length (items acc : StateDict) :
  length (fold_left step items acc) <= length items + length acc.
Proof.
  revert acc. induction items as [|kv items IH]; intros acc; cbn; [lia|].
  specialize (IH (dict_set (f (fst kv)) (snd kv) acc)).
  pose proof (dict_set_length (f (fst kv)) (snd kv) acc) as H.
  lia.
Qed.

End FoldSet.

Lemma strip_key_data_parallel (k : string) : strip_key ("module." ++ k) = k.
Proof. unfold strip_key, startswith. cbn. destruct k; reflexivity. Qed.

Lemma strip_key_unprefixed (k : string) :
  startswith "module." k = false -> strip_key k = k.
Proof. unfold strip_key. now intros ->. Qed.

Lemma strip_no_collisions (sd : StateDict) :
  NoDup (map strip_key (map fst sd)) ->
  _strip_module_prefix sd = map (fun kv => (strip_key (fst kv), snd kv)) sd.
Proof.
  intros Hn. rewrite strip_as_fold.
  exact (fold_set_fresh strip_key sd [] Hn (fun _ _ => eq_refl)).
Qed.

Lemma strip_data_parallel (sd : StateDict) :
  NoDup (map fst sd) -> _strip_module_prefix (data_parallel sd) = sd.
Proof.
  intros Hn. rewrite strip_no_collisions.
  - unfold data_parallel. rewrite map_map. cbn [fst snd].
    rewrite <- (map_id sd) at 2. apply map_ext. intros [k v].
    cbn [fst snd]. now rewrite strip_key_data_parallel.
  - unfold data_parallel. rewrite !map_map. cbn [fst].
    erewrite map_ext; [exact Hn|]. intros [k v].
    cbn [fst]. apply strip_key_data_parallel.
Qed.

Lemma strip_unprefixed (sd : StateDict) :
  NoDup (map fst sd) ->
  (forall k, In k (map fst sd) -> startswith "module." k = false) ->
  _strip_module_prefix sd = sd.
Proof.
  intros Hn Hp. rewrite strip_no_collisions.
  - rewrite <- (map_id sd) at 2. apply map_ext_in. intros [k v] Hin.
    cbn [fst snd]. rewrite strip_key_unprefixed; [reflexivity|].
    apply Hp. apply (in_map fst) in Hin. exact Hin.
  - erewrite map_ext_in; [rewrite map_id; exact Hn|].
    intros k Hk. apply strip_key_unprefixed, Hp, Hk.
Qed.

(** When no two keys become equal, [_strip_module_prefix] keeps every
    entry, in order, with its value, and strips one leading "module." from
    each key that has it.  So a state dict saved through [nn.DataParallel]
    comes back as the state dict of the wrapped model (also when keys of
    the model themselves begin with "module."), and a state dict without
    the prefix comes back unchanged. *)
Theorem strip_module_prefix_without_collisions :
  (forall sd : StateDict,
      NoDup (map strip_key (map fst sd)) ->
      _strip_module_prefix sd
      = map (fun kv => (strip_key (fst kv), snd kv)) sd) /\
  (forall sd : StateDict,
      NoDup (map fst sd) ->
      _strip_module_prefix (data_parallel sd) = sd) /\
  (forall sd : StateDict,
      NoDup (map fst sd) ->
      (forall k, In k (map fst sd) -> startswith "module." k = false) ->
      _strip_module_prefix sd = sd).
Proof.
  split; [exact strip_no_collisions|split].
  - exact strip_data_parallel.
  - exact strip_unprefixed.
Qed.

Lemma strip_module_prefix_without_collisions_witness :
  _strip_module_prefix
    (data_parallel [("module.conv.weight", OTensor [8; 3]);
                    ("fc.bias", OTensor [14])])
  = [("module.conv.weight", OTensor [8; 3]); ("fc.bias", OTensor [14])] /\
  _strip_module_prefix [("fc.weight", OTensor [14; 8]); ("fc.bias", OTensor [14])]
  = [("fc.weight", OTensor [14; 8]); ("fc.bias", OTensor [14])].
Proof.
  split.
  - apply (proj1 (proj2 strip_module_prefix_without_collisions)).
    repeat constructor; cbn; intuition discriminate.
  - apply (proj2 (proj2 strip_module_prefix_without_collisions)).
    + repeat constructor; cbn; intuition discriminate.
    + cbn. intros k [<-|[<-|[]]]; reflexivity.
Defined.

(** In general the result of [_strip_module_prefix] is a dict (no key
    twice) with at most as many entries as its argument; its keys are the
    stripped keys of the argument, and the value under a key is that of
    the last entry of the argument whose stripped key it is: when a
    prefixed and an unprefixed key collide, the later entry wins. *)
Theorem strip_module_prefix_later_entry_wins :
  forall sd : StateDict,
    NoDup (map fst (_strip_module_prefix sd)) /\
    length (_strip_module_prefix sd) <= length sd /\
    (forall k,
        sd_get k (_strip_module_prefix sd)
        = sd_get k (rev (map (fun kv => (strip_key (fst kv), snd kv)) sd))) /\
    (forall k,
        In k (map fst (_strip_module_prefix sd))
        <-> exists k0, In k0 (map fst sd) /\ strip_key k0 = k).
Proof.
  intros sd. rewrite strip_as_fold.
  pose proof (fold_set_nodup strip_key sd [] (NoDup_nil _)) as Hnd.
  pose proof (fold_set_length strip_key sd []) as Hlen.
  pose proof (fun k => fold_set_get strip_key sd [] k) as Hget0.
  cbn beta in Hnd, Hlen, Hget0.
  set (r := fold_left
              (fun (fixed : StateDict) (kv : string * Obj) =>
                 dict_set (strip_key (fst kv)) (snd kv) fixed) sd []) in *.
  assert (Hget : forall k,
             sd_get k r
             = sd_get k (rev (map (fun kv => (strip_key (fst kv), snd kv)) sd))).
  { intros k. rewrite Hget0. cbn. destruct (sd_get k _); reflexivity. }
  clear Hget0.
  split; [exact Hnd|].
  split; [cbn in Hlen; lia|].
  split; [exact Hget|].
  intros k. split.
  - intros Hin. destruct (sd_get k r) as [v|] eqn:E.
    + rewrite Hget in E. apply sd_get_in in E. apply in_rev in E.
      apply in_map_iff in E as [[k0 v0] [E Hin0]]. injection E as E _.
      exists k0. split; [|exact E]. apply (in_map fst) in Hin0. exact Hin0.
    + apply sd_get_none in E. contradiction.
  - intros [k0 [Hin <-]].
    destruct (sd_get (strip_key k0) r) as [v|] eqn:E.
    + apply sd_get_in in E. apply (in_map fst) in E. exact E.
    + exfalso. rewrite Hget in E. apply sd_get_none in E. apply E.
      rewrite map_rev, <- in_rev, map_map. cbn [fst].
      apply in_map_iff in Hin as [[k1 v1] [<- Hin]].
      apply in_map_iff. exists (k1, v1). split; [reflexivity|exact Hin].
Qed.


Lemma first_container_step (key : string) (keys : list string)
      (items : list (Key * Obj)) :
  first_container (key :: keys) items
  = match container_value items key with
    | Some sd => Some sd
    | None => first_container keys items
    end.
Proof.
  unfold container_value. cbn [first_container].
  destruct (dict_get (KStr key) items) as [[s|maybe|]|]; try reflexivity.
Qed.

Lemma first_container_none (keys : list string) (items : list (Key * Obj)) :
  (forall k, In k keys -> container_value items k = None) ->
  first_container keys items = None.
Proof.
  induction keys as [|key keys IH]; intros H; [reflexivity|].
  rewrite first_container_step, (H key) by now left.
  apply IH. intros k Hk. apply H. now right.
Qed.

Lemma first_container_first (pre post : list string) (key : string)
      (items : list (Key * Obj)) (sd : StateDict) :
  (forall k, In k pre -> container_value items k = None) ->
  container_value items key = Some sd ->
  first_container (pre ++ key :: post) items = Some sd.
Proof.
  induction pre as [|k0 pre IH]; intros Hpre Hkey; cbn [app].
  - now rewrite first_container_step, Hkey.
  - rewrite first_container_step, (Hpre k0) by now left.
    apply IH; [|exact Hkey]. intros k Hk. apply Hpre. now right.
Qed.

Lemma str_items_as_obj (sd : StateDict) :
  str_items (map (fun kv => (KStr (fst kv), snd kv)) sd) = Some sd.
Proof.
  induction sd as [|[k v] sd IH]; cbn; [reflexivity|]. now rewrite IH.
Qed.

Lemma dict_get_as_obj (key : string) (sd : StateDict) :
  dict_get (KStr key) (map (fun kv => (KStr (fst kv), snd kv)) sd)
  = sd_get key sd.
Proof.
  induction sd as [|[k v] sd IH]; cbn; [reflexivity|]. now rewrite IH.
Qed.

Lemma extract_plain_tensors (sd : StateDict) :
  all_tensors sd -> _extract_state_dict (as_obj sd) = inr sd.
Proof.
  intros Ht. unfold as_obj, _extract_state_dict.
  rewrite first_container_none, str_items_as_obj; [reflexivity|].
  intros k _. unfold container_value. rewrite dict_get_as_obj.
  destruct (sd_get k sd) as [v|] eqn:E; [|reflexivity].
  apply sd_get_in in E. unfold all_tensors in Ht.
  rewrite Forall_forall in Ht. destruct (Ht _ E) as [s Hs].
  cbn [snd] in Hs. now subst.
Qed.

(** [_extract_state_dict] returns the value of the first of the keys
    'state_dict', 'model_state_dict', 'model', 'weights', 'params' that
    holds a dict with only string keys, whatever else the checkpoint
    holds; with no such key it returns the checkpoint itself when all its
    keys are strings and raises the RuntimeError otherwise, as it does on
    anything that is not a dict.  A plain dict of tensors is returned as
    it is, whatever its keys are called. *)
Theorem extract_state_dict_cases :
  (forall (items : list (Key * Obj)) (pre post : list string) (key : string)
          (sd : StateDict),
      container_keys = (pre ++ key :: post)%list ->
      (forall k, In k pre -> container_value items k = None) ->
      container_value items key = Some sd ->
      _extract_state_dict (ODict items) = inr sd) /\
  (forall items : list (Key * Obj),
      (forall k, In k container_keys -> container_value items k = None) ->
      _extract_state_dict (ODict items)
      = match str_items items with
        | Some sd => inr sd
        | None => inl (RuntimeError could_not_extract)
        end) /\
  (forall checkpoint : Obj,
      (forall items, checkpoint <> ODict items) ->
      _extract_state_dict checkpoint = inl (RuntimeError could_not_extract)) /\
  (forall sd : StateDict,
      all_tensors sd -> _extract_state_dict (as_obj sd) = inr sd).
Proof.
  split; [|split; [|split]].
  - intros items pre post key sd Hk Hpre Hkey. unfold _extract_state_dict.
    rewrite Hk, (first_container_first pre post key items sd Hpre Hkey).
    reflexivity.
  - intros items H. unfold _extract_state_dict.
    now rewrite (first_container_none container_keys items H).
  - intros [s|items|] H; try reflexivity. now destruct (H items).
  - exact extract_plain_tensors.
Qed.

Lemma extract_state_dict_cases_witness :
  _extract_state_dict
    (ODict [(KOther 0, OOther);
            (KStr "model", ODict [(KStr "fc.bias", OTensor [14])]);
            (KStr "state_dict", ODict [(KOther 1, OOther)])])
  = inr [("fc.bias", OTensor [14])] /\
  _extract_state_dict (ODict [(KStr "epoch", OOther); (KOther 3, OOther)])
  = inl (RuntimeError could_not_extract) /\
  _extract_state_dict OOther = inl (RuntimeError could_not_extract) /\
  _extract_state_dict (as_obj [("model", OTensor [2])])
  = inr [("model", OTensor [2])].
Proof.
  destruct extract_state_dict_cases as (H1 & H2 & H3 & H4).
  split; [|split; [|split]].
  - apply (H1 _ ["state_dict"; "model_state_dict"] ["weights"; "params"]
              "model").
    + reflexivity.
    + intros k [<-|[<-|[]]]; reflexivity.
    + reflexivity.
  - apply (H2 [(KStr "epoch", OOther); (KOther 3, OOther)]).
    intros k [<-|[<-|[<-|[<-|[<-|[]]]]]]; reflexivity.
  - apply H3. discriminate.
  - apply H4. repeat constructor. now exists [2].
Defined.

Lemma shape_eqb_eq (a b : list nat) : shape_eqb a b = true <-> a = b.
Proof.
  unfold shape_eqb. destruct (list_eq_dec Nat.eq_dec a b); split;
    auto; discriminate.
Qed.

Lemma collect_mismatches_spec (model_state : list (string * list nat))
      (ext : StateDict) (acc : list (string * list nat * list nat)) :
  all_tensors ext ->
  collect_mismatches model_state ext acc
  = inr (acc ++ map (mismatch_of model_state)
                    (mismatching model_state ext))%list.
Proof.
  intros Ht. revert acc. induction Ht as [|[k v] ext [s Hs] Ht IH];
    intros acc; cbn [collect_mismatches mismatching filter map].
  - now rewrite app_nil_r.
  - cbn [snd] in Hs. subst v. cbn [fst snd]. fold (mismatching model_state ext).
    destruct (sd_get k model_state) as [ms|] eqn:E; [|apply IH].
    destruct (shape_eqb ms s); cbn [negb]; [apply IH|].
    rewrite IH, <- app_assoc. cbn [map app]. unfold mismatch_of at 2.
    cbn [fst snd]. now rewrite E.
Qed.

Lemma mismatching_nil (model_state : list (string * list nat))
      (ext : StateDict) :
  mismatching model_state ext = [] <-> compatible model_state ext.
Proof.
  unfold compatible. induction ext as [|[k v] ext IH];
    cbn [mismatching filter fst snd].
  - split; [intros _ ? ? ? []|reflexivity].
  - fold (mismatching model_state ext). split.
    + intros H k' s ms [Hin|Hin] Hget.
      * injection Hin as -> ->. rewrite Hget in H.
        destruct (shape_eqb ms s) eqn:E; [|discriminate H].
        now apply shape_eqb_eq.
      * destruct (match sd_get k model_state with
                  | Some model_shape =>
                      match v with
                      | OTensor ext_shape =>
                          negb (shape_eqb model_shape ext_shape)
                      | _ => false
                      end
                  | None => false
                  end); [discriminate H|].
        apply (proj1 IH H k' s ms Hin Hget).
    + intros H.
      assert (Hrest : mismatching model_state ext = []).
      { apply IH. intros k' s ms Hin. apply H. now right. }
      destruct (sd_get k model_state) as [ms|] eqn:E; [|exact Hrest].
      destruct v as [s|d|]; try exact Hrest.
      rewrite (H k s ms (or_introl eq_refl) E).
      rewrite (proj2 (shape_eqb_eq s s) eq_refl). exact Hrest.
Qed.

Lemma collect_mismatches_non_tensor (model_state : list (string * list nat))
      (ext : StateDict) (acc : list (string * list nat * list nat))
      (k : string) (v : Obj) (s : list nat) :
  In (k, v) ext -> (forall s', v <> OTensor s') ->
  sd_get k model_state = Some s ->
  collect_mismatches model_state ext acc = inl AttributeError.
Proof.
  intros Hin Hv Hget. revert acc.
  induction ext as [|[k0 v0] ext IH]; intros acc; [destruct Hin|].
  cbn [collect_mismatches]. destruct Hin as [Hin|Hin].
  - injection Hin as -> ->. rewrite Hget.
    destruct v as [s'|d|]; try reflexivity. now destruct (Hv s').
  - destruct (sd_get k0 model_state) as [ms|]; [|now apply IH].
    destruct v0 as [s'|d|]; try reflexivity.
    destruct (shape_eqb ms s'); now apply IH.
Qed.

Lemma check_shape_run (model_state : list (string * list nat))
      (ext : StateDict) :
  all_tensors ext ->
  _check_shape_compatibility model_state ext
  = match map (mismatch_of model_state) (mismatching model_state ext) with
    | [] => inr tt
    | m :: l =>
        inl (RuntimeError
               (mismatch_header ++ join newline (map mismatch_line (m :: l))))
    end.
Proof.
  intros Ht. unfold _check_shape_compatibility.
  rewrite (collect_mismatches_spec model_state ext [] Ht). cbn [app].
  destruct (map _ _); reflexivity.
Qed.

Lemma check_shape_compatible (model_state : list (string * list nat))
      (ext : StateDict) :
  all_tensors ext ->
  (_check_shape_compatibility model_state ext = inr tt
   <-> compatible model_state ext).
Proof.
  intros Ht. rewrite (check_shape_run model_state ext Ht), <- mismatching_nil.
  destruct (mismatching model_state ext) as [|m l]; cbn [map].
  - tauto.
  - split; discriminate.
Qed.

(** On a checkpoint of tensors [_check_shape_compatibility] returns exactly
    when every tensor whose key the model has too has the model's shape:
    keys that only the checkpoint or only the model has never make it
    fail.  Otherwise it raises the RuntimeError whose message lists, after
    the header, one line per mismatching tensor in the order of the
    checkpoint.  A value that is not a tensor under a key of the model
    makes it raise AttributeError instead of the report. *)
Theorem check_shape_compatibility_reports_mismatches :
  forall (model_state : list (string * list nat)) (ext : StateDict),
    (all_tensors ext ->
     (_check_shape_compatibility model_state ext = inr tt
      <-> compatible model_state ext)) /\
    (all_tensors ext ->
     mismatching model_state ext <> [] ->
     _check_shape_compatibility model_state ext
     = inl (RuntimeError
              (mismatch_header ++
               join newline
                 (map mismatch_line
                    (map (mismatch_of model_state)
                         (mismatching model_state ext)))))) /\
    (forall (k : string) (v : Obj) (s : list nat),
        In (k, v) ext -> (forall s', v <> OTensor s') ->
        sd_get k model_state = Some s ->
        _check_shape_compatibility model_state ext = inl AttributeError).
Proof.
  intros model_state ext. split; [|split].
  - apply check_shape_compatible.
  - intros Ht Hne. rewrite (check_shape_run model_state ext Ht).
    destruct (mismatching model_state ext) as [|m l]; [now destruct Hne|].
    reflexivity.
  - intros k v s Hin Hv Hget. unfold _check_shape_compatibility.
    now rewrite (collect_mismatches_non_tensor model_state ext [] k v s).
Qed.

Lemma check_shape_compatibility_reports_mismatches_witness :
  _check_shape_compatibility
    [("fc.weight", [14; 8]); ("fc.bias", [14])]
    [("fc.weight", OTensor [1000; 8]); ("extra", OTensor [3]);
     ("fc.bias", OTensor [1000])]
  = inl (RuntimeError
           (mismatch_header ++
            " - fc.weight: expected torch.Size([14, 8]) but found torch.Size([1000, 8])" ++
            newline ++
            " - fc.bias: expected torch.Size([14]) but found torch.Size([1000])")) /\
  _check_shape_compatibility
    [("fc.weight", [14; 8]); ("fc.bias", [14])]
    [("fc.bias", OOther)]
  = inl AttributeError.
Proof.
  split.
  - apply (proj1 (proj2 (check_shape_compatibility_reports_mismatches
                           [("fc.weight", [14; 8]); ("fc.bias", [14])]
                           [("fc.weight", OTensor [1000; 8]);
                            ("extra", OTensor [3]);
                            ("fc.bias", OTensor [1000])]))).
    + repeat constructor; cbn; eauto.
    + vm_compute. discriminate.
  - apply (proj2 (proj2 (check_shape_compatibility_reports_mismatches
                           [("fc.weight", [14; 8]); ("fc.bias", [14])]
                           [("fc.bias", OOther)])) "fc.bias" OOther [14]).
    + now left.
    + discriminate.
    + reflexivity.
Defined.

Lemma state_dict_of_keys (model_state : list (string * list nat)) :
  map fst (state_dict_of model_state) = map fst model_state.
Proof. unfold state_dict_of. rewrite map_map. reflexivity. Qed.

Lemma state_dict_of_tensors (model_state : list (string * list nat)) :
  all_tensors (state_dict_of model_state).
Proof.
  unfold all_tensors, state_dict_of. apply Forall_forall. intros kv Hin.
  apply in_map_iff in Hin as [[k s] [<- _]]. now exists s.
Qed.

Lemma state_dict_of_compatible (model_state : list (string * list nat)) :
  NoDup (map fst model_state) ->
  compatible model_state (state_dict_of model_state).
Proof.
  intros Hn k s ms Hin Hget. unfold state_dict_of in Hin.
  apply in_map_iff in Hin as [[k' s'] [E Hin]]. cbn [fst snd] in E.
  injection E as -> ->.
  rewrite (sd_get_nodup k s model_state Hn Hin) in Hget. now injection Hget.
Qed.

Lemma data_parallel_tensors (sd : StateDict) :
  all_tensors sd -> all_tensors (data_parallel sd).
Proof.
  unfold all_tensors, data_parallel. rewrite !Forall_forall.
  intros H kv Hin. apply in_map_iff in Hin as [kv' [<- Hin]].
  cbn [snd]. auto.
Qed.

(** Extraction, stripping and the shape check compose: for a model whose
    state dict has distinct keys, the checkpoint that holds this state dict
    as saved through [nn.DataParallel], either as the checkpoint itself or
    under the key 'state_dict' of a training checkpoint, gives back exactly
    the model's state dict and passes the shape check; so does the state
    dict saved without the wrapper, provided that no key of the model
    begins with "module.". *)
Theorem checkpoint_of_the_model_is_accepted :
  forall model_state : list (string * list nat),
    NoDup (map fst model_state) ->
    (checked_state_dict model_state
       (as_obj (data_parallel (state_dict_of model_state)))
     = inr (state_dict_of model_state)) /\
    (forall items : list (Key * Obj),
        dict_get (KStr "state_dict") items
        = Some (as_obj (data_parallel (state_dict_of model_state))) ->
        checked_state_dict model_state (ODict items)
        = inr (state_dict_of model_state)) /\
    ((forall k, In k (map fst model_state) -> startswith "module." k = false) ->
     checked_state_dict model_state (as_obj (state_dict_of model_state))
     = inr (state_dict_of model_state)).
Proof.
  intros model_state Hn.
  assert (Hn' : NoDup (map fst (state_dict_of model_state)))
    by now rewrite state_dict_of_keys.
  assert (Hcheck : _check_shape_compatibility model_state
                     (state_dict_of model_state) = inr tt).
  { apply check_shape_compatible.
    - apply state_dict_of_tensors.
    - now apply state_dict_of_compatible. }
  split; [|split].
  - unfold checked_state_dict.
    rewrite extract_plain_tensors
      by apply data_parallel_tensors, state_dict_of_tensors.
    rewrite (strip_data_parallel _ Hn'), Hcheck. reflexivity.
  - intros items Hget. unfold checked_state_dict, _extract_state_dict.
    unfold container_keys. rewrite first_container_step.
    unfold container_value. rewrite Hget. unfold as_obj.
    rewrite str_items_as_obj, (strip_data_parallel _ Hn'), Hcheck.
    reflexivity.
  - intros Hp. unfold checked_state_dict.
    rewrite extract_plain_tensors by apply state_dict_of_tensors.
    rewrite (strip_unprefixed _ Hn'), Hcheck; [reflexivity|].
    intros k Hk. apply Hp. now rewrite <- state_dict_of_keys.
Qed.

Lemma checkpoint_of_the_model_is_accepted_witness :
  checked_state_dict [("module.fc.weight", [14; 8]); ("fc.bias", [14])]
    (ODict [(KStr "epoch", OOther);
            (KStr "state_dict",
             as_obj (data_parallel
                       (state_dict_of [("module.fc.weight", [14; 8]);
                                       ("fc.bias", [14])])))])
  = inr (state_dict_of [("module.fc.weight", [14; 8]); ("fc.bias", [14])]) /\
  checked_state_dict [("fc.weight", [14; 8]); ("fc.bias", [14])]
    (as_obj (state_dict_of [("fc.weight", [14; 8]); ("fc.bias", [14])]))
  = inr (state_dict_of [("fc.weight", [14; 8]); ("fc.bias", [14])]).
Proof.
  split.
  - apply (proj1 (proj2 (checkpoint_of_the_model_is_accepted
                           [("module.fc.weight", [14; 8]); ("fc.bias", [14])]
                           ltac:(repeat constructor; cbn;
                                 intuition discriminate)))).
    reflexivity.
  - apply (proj2 (proj2 (checkpoint_of_the_model_is_accepted
                           [("fc.weight", [14; 8]); ("fc.bias", [14])]
                           ltac:(repeat constructor; cbn;
                                 intuition discriminate)))).
    cbn. intros k [<-|[<-|[]]]; reflexivity.
Defined.

End LoaderFacts.

(* ===================================================================== *)
(** ** Scaling pixel data and reading DICOM                               *)
(* ===================================================================== *)

Section ScalerFacts.

Import PIL Utils UtilsDicom.

Lemma zip_with_nth_error_some {A B C} (f : A -> B -> C) (a : list A)
      (b : list B) (i : nat) (x : A) (y : B) :
  nth_error a i = Some x -> nth_error b i = Some y ->
  nth_error (zip_with f a b) i = Some (f x y).
Proof.
  revert b i. induction a as [|x0 a IH]; intros [|y0 b] [|i] Ha Hb;
    cbn in *; try discriminate.
  - now injection Ha as ->; injection Hb as ->.
  - now apply IH.
Qed.

Lemma quantize_zero : quantize (f32 0 0) = x00.
Proof. vm_compute. reflexivity. Qed.

Lemma zeros_uint8_nth (sh : list nat) (i : nat) :
  i < numel sh -> nth_error (data (zeros_uint8 sh)) i = Some x00.
Proof. intros H. unfold zeros_uint8. cbn [data]. now apply nth_error_repeat. Qed.

Lemma zeros_uint8_wf (sh : list nat) : wf_tensor (zeros_uint8 sh).
Proof. unfold wf_tensor, zeros_uint8. cbn [data shape]. apply repeat_length. Qed.

(** The scaled array has the shape and the number of elements of its
    argument, and every element that is not finite (a NaN or an infinity)
    becomes 0, whatever the other elements are. *)
Theorem min_max_scale_keeps_shape_and_zeroes_non_finite :
  forall arr : Tensor spec_float,
    wf_tensor arr ->
    shape (_min_max_scale_to_uint8 arr) = shape arr /\
    wf_tensor (_min_max_scale_to_uint8 arr) /\
    (forall (i : nat) (x : spec_float),
        nth_error (data arr) i = Some x ->
        np_isfinite x = false ->
        nth_error (data (_min_max_scale_to_uint8 arr)) i = Some x00).
Proof.
  intros arr Hwf. unfold wf_tensor in Hwf.
  assert (Hz : shape (zeros_uint8 (shape arr)) = shape arr /\
               wf_tensor (zeros_uint8 (shape arr)) /\
               (forall (i : nat) (x : spec_float),
                   nth_error (data arr) i = Some x ->
                   np_isfinite x = false ->
                   nth_error (data (zeros_uint8 (shape arr))) i = Some x00)).
  { split; [reflexivity|]. split; [apply zeros_uint8_wf|].
    intros i x Hi _. apply zeros_uint8_nth. rewrite <- Hwf.
    apply nth_error_Some. rewrite Hi. discriminate. }
  unfold _min_max_scale_to_uint8.
  destruct (numel (shape arr) =? 0); [exact Hz|].
  destruct (negb (existsb (fun b => b) (map np_isfinite (data arr))));
    [exact Hz|]. clear Hz. cbv zeta.
  set (scaled := if SFleb _ _ then _ else _).
  assert (Hs : exists g, scaled = map g (data arr)).
  { subst scaled. destruct (SFleb _ _); eexists; reflexivity. }
  destruct Hs as [g ->]. cbn [shape data].
  split; [reflexivity|]. split.
  - unfold wf_tensor. cbn [shape data].
    rewrite length_map, zip_with_length, !length_map, Nat.min_id. exact Hwf.
  - intros i x Hi Hx. rewrite nth_error_map.
    rewrite (zip_with_nth_error_some _ _ _ i (np_isfinite x) (g x)).
    + rewrite Hx. cbn [option_map]. now rewrite quantize_zero.
    + now rewrite nth_error_map, Hi.
    + now rewrite nth_error_map, Hi.
Qed.

Lemma min_max_scale_keeps_shape_and_zeroes_non_finite_witness :
  shape (_min_max_scale_to_uint8
           (mkTensor [1; 3] [f32 1 0; S754_nan; f32 3 0])) = [1; 3] /\
  nth_error (data (_min_max_scale_to_uint8
                     (mkTensor [1; 3] [f32 1 0; S754_nan; f32 3 0]))) 1
  = Some x00.
Proof.
  destruct (min_max_scale_keeps_shape_and_zeroes_non_finite
              (mkTensor [1; 3] [f32 1 0; S754_nan; f32 3 0]) eq_refl)
    as (H1 & _ & H3).
  split; [exact H1|]. apply (H3 1 S754_nan); reflexivity.
Defined.

Lemma SFltb_irrefl (v : spec_float) : SFltb v v = false.
Proof.
  unfold SFltb, SFcompare. destruct v as [s|s| |s m e]; try reflexivity.
  - destruct s; reflexivity.
  - destruct s; rewrite Z.compare_refl, Pos.compare_cont_refl; reflexivity.
Qed.

Lemma sub64_diag (v : spec_float) :
  np_isfinite v = true -> sub64 v v = S754_zero false.
Proof.
  destruct v as [s|s| |s m e]; try discriminate; intros _.
  - destruct s; reflexivity.
  - unfold sub64, SFsub. now rewrite Z.sub_diag.
Qed.

Lemma fold_min_const (v : spec_float) (l : list spec_float) :
  Forall (eq v) l ->
  fold_left (fun m y => if SFltb y m then y else m) l v = v /\
  fold_left (fun m y => if SFltb m y then y else m) l v = v.
Proof.
  induction 1 as [|y l <- _ IH]; cbn; [split; reflexivity|].
  now rewrite SFltb_irrefl.
Qed.

Lemma masked_zeros_quantize (d : list spec_float) :
  map quantize
      (zip_with (fun (fin : bool) s => if fin then s else f32 0 0)
                (map np_isfinite d) (map (fun _ => f32 0 0) d))
  = repeat x00 (length d).
Proof.
  induction d as [|x d IH]; cbn [map zip_with repeat length];
    [reflexivity|].
  rewrite IH. f_equal. destruct (np_isfinite x); apply quantize_zero.
Qed.

(** An array with at most one finite value (a constant image, also with
    NaN or infinite elements beside, an array without finite elements, an
    empty array) is scaled to zeros of the same shape. *)
Theorem constant_image_scales_to_black :
  forall arr : Tensor spec_float,
    wf_tensor arr ->
    (forall x y, In x (data arr) -> In y (data arr) ->
                 np_isfinite x = true -> np_isfinite y = true -> x = y) ->
    _min_max_scale_to_uint8 arr = zeros_uint8 (shape arr).
Proof.
  intros arr Hwf Hc. unfold wf_tensor in Hwf. unfold _min_max_scale_to_uint8.
  destruct (numel (shape arr) =? 0); [reflexivity|].
  destruct (negb (existsb (fun b => b) (map np_isfinite (data arr))))
    eqn:Hex; [reflexivity|]. cbv zeta.
  apply negb_false_iff, existsb_exists in Hex as [b [Hb ->]].
  apply in_map_iff in Hb as [x0 [Hx0 Hin0]].
  assert (Hne : In x0 (filter np_isfinite (data arr)))
    by (apply filter_In; split; assumption).
  assert (Hr : SFleb (sub64 (np_max (filter np_isfinite (data arr)))
                            (np_min (filter np_isfinite (data arr))))
                     (f64 0 0) = true).
  { assert (Hall : forall x, In x (filter np_isfinite (data arr)) ->
                             In x (data arr) /\ np_isfinite x = true)
      by (intros x; apply filter_In).
    destruct (filter np_isfinite (data arr)) as [|v l]; [destruct Hne|].
    assert (Hv : In v (data arr) /\ np_isfinite v = true)
      by (apply Hall; now left).
    assert (Hl : Forall (eq v) l).
    { apply Forall_forall. intros y Hy.
      destruct (Hall y (or_intror Hy)) as [Hy1 Hy2].
      apply Hc; tauto. }
    unfold np_max, np_min.
    destruct (fold_min_const v l Hl) as [-> ->].
    rewrite sub64_diag by tauto. reflexivity. }
  rewrite Hr, masked_zeros_quantize, Hwf. reflexivity.
Qed.

Lemma constant_image_scales_to_black_witness :
  _min_max_scale_to_uint8
    (mkTensor [2; 2] [f32 7 0; S754_infinity false; f32 7 0; S754_nan])
  = zeros_uint8 [2; 2].
Proof.
  apply (constant_image_scales_to_black
           (mkTensor [2; 2] [f32 7 0; S754_infinity false; f32 7 0; S754_nan])
           eq_refl).
  cbn [data]. intros x y [<-|[<-|[<-|[<-|[]]]]] [<-|[<-|[<-|[<-|[]]]]];
    try reflexivity; discriminate.
Defined.

Lemma fromarray_L_invert (t : Tensor byte) :
  fromarray_L (invert_uint8 t) = res_map negative (fromarray_L t).
Proof.
  unfold fromarray_L, invert_uint8. cbn [shape data].
  destruct (shape t) as [|n [|w [|k rest]]]; reflexivity.
Qed.

Lemma convert_RGB_negative_L (img : Image) :
  (exists s px, img = L s px) ->
  convert_RGB (negative img) = negative (convert_RGB img).
Proof.
  intros (s & px & ->). cbn [negative convert_RGB]. now rewrite !map_map.
Qed.

Lemma dicom_result_gray (dcmread : list byte -> Res Dataset)
      (b : list byte) (img : Image) :
  dicom_bytes_to_pil dcmread b = inr img -> gray_rgb img.
Proof.
  unfold dicom_bytes_to_pil.
  destruct (dcmread b) as [e|ds]; cbn [res_bind]; [discriminate|].
  destruct (pixel_array ds) as [e|pd]; cbn [res_bind]; [discriminate|].
  destruct (if dim _ =? 3 then _ else _) as [e|u]; cbn [res_bind];
    [discriminate|].
  destruct (fromarray_L u) as [e|im] eqn:E; cbn [res_bind]; [discriminate|].
  apply fromarray_L_is_L in E as (sz & px & ->). intros H.
  injection H as <-. exists sz, px. reflexivity.
Qed.

(** Every image that [dicom_bytes_to_pil] returns is a gray image in mode
    RGB.  Of two files with the same pixel data, one tagged MONOCHROME1
    (in any letter case) and one not, the first is converted to the
    negative of the second: each channel v of the one is 255 - v in the
    other; and the first raises exactly when the second does. *)
Theorem dicom_monochrome1_is_negative :
  forall (dcmread : list byte -> Res Dataset),
    (forall (b : list byte) (img : Image),
        dicom_bytes_to_pil dcmread b = inr img -> gray_rgb img) /\
    (forall (b1 b2 : list byte) (ds1 ds2 : Dataset),
        dcmread b1 = inr ds1 -> dcmread b2 = inr ds2 ->
        pixel_array ds1 = pixel_array ds2 ->
        monochrome1 ds1 = true -> monochrome1 ds2 = false ->
        dicom_bytes_to_pil dcmread b1
        = res_map negative (dicom_bytes_to_pil dcmread b2)).
Proof.
  intros dcmread. split.
  - apply dicom_result_gray.
  - intros b1 b2 ds1 ds2 H1 H2 Hpa Hm1 Hm2. unfold dicom_bytes_to_pil.
    rewrite H1, H2. cbn [res_bind]. rewrite Hpa.
    destruct (pixel_array ds2) as [e|pd]; cbn [res_bind res_map];
      [reflexivity|].
    set (u := _min_max_scale_to_uint8 (asarray_f32 pd)).
    unfold monochrome1 in Hm1, Hm2.
    replace (match PhotometricInterpretation ds1 with
             | Some (AStr photometric) =>
                 if String.eqb (upper photometric) "MONOCHROME1"
                 then invert_uint8 u else u
             | _ => u
             end) with (invert_uint8 u)
      by (destruct (PhotometricInterpretation ds1) as [[p|]|];
          try discriminate Hm1; now rewrite Hm1).
    replace (match PhotometricInterpretation ds2 with
             | Some (AStr photometric) =>
                 if String.eqb (upper photometric) "MONOCHROME1"
                 then invert_uint8 u else u
             | _ => u
             end) with u
      by (destruct (PhotometricInterpretation ds2) as [[p|]|];
          try reflexivity; now rewrite Hm2).
    assert (Hd : dim (invert_uint8 u) = dim u) by reflexivity.
    rewrite Hd.
    assert (Htail : forall w : Tensor byte,
               res_bind (fromarray_L (invert_uint8 w))
                        (fun pil_img => inr (convert_RGB pil_img))
               = res_map negative
                   (res_bind (fromarray_L w)
                             (fun pil_img => inr (convert_RGB pil_img)))).
    { intros w. rewrite fromarray_L_invert.
      destruct (fromarray_L w) as [e|im] eqn:E; cbn [res_bind res_map];
        [reflexivity|].
      f_equal. apply convert_RGB_negative_L.
      apply fromarray_L_is_L in E. exact E. }
    destruct (dim u =? 3).
    + unfold invert_uint8 at 1. rewrite take_channel0_map.
      destruct (take_channel0 u) as [e|w]; cbn [res_bind res_map];
        [reflexivity|].
      apply (Htail w).
    + cbn [res_bind]. apply Htail.
Qed.

Lemma dicom_monochrome1_is_negative_witness :
  dicom_bytes_to_pil
    (fun b => match b with
              | [] => inr (mkDataset (inr (mkTensor [1; 2] [0; 4000]%Z)) None)
              | _ => inr (mkDataset (inr (mkTensor [1; 2] [0; 4000]%Z))
                                    (Some (AStr "Monochrome1")))
              end) [x00]
  = res_map negative
      (dicom_bytes_to_pil
         (fun b => match b with
                   | [] => inr (mkDataset (inr (mkTensor [1; 2] [0; 4000]%Z))
                                          None)
                   | _ => inr (mkDataset (inr (mkTensor [1; 2] [0; 4000]%Z))
                                         (Some (AStr "Monochrome1")))
                   end) []).
Proof.
  apply (proj2 (dicom_monochrome1_is_negative _) [x00] []
               (mkDataset (inr (mkTensor [1; 2] [0; 4000]%Z))
                          (Some (AStr "Monochrome1")))
               (mkDataset (inr (mkTensor [1; 2] [0; 4000]%Z)) None));
    reflexivity.
Defined.

End ScalerFacts.

(* ===================================================================== *)
(** ** The endpoints                                                      *)
(* ===================================================================== *)

Section ApiFacts.

Import PIL Utils UtilsDicom GradCAM Api.
Local Open Scope string_scope.

Variable bilinear : list byte -> nat * nat -> nat * nat -> list byte.
Variable png_bytes : Image -> list byte.
Variable b64encode : list byte -> string.
Variable dcmread : list byte -> Res Dataset.
Variable image_open : list byte -> Res Image.
Variable transforms : Image -> Res (Tensor fnum).
Variable forward : World -> PyVal -> Tensor fnum -> Res (Tensor fnum).
Variable sigmoid : fnum -> fnum.
Variable rt : Runtime.
Variable to_numpy : Tensor fnum -> Tensor spec_float.
Variable str_other : PyExc -> string.

Local Abbreviation read_image :=
  (_read_image_from_upload dcmread image_open str_other).
Local Abbreviation request :=
  (cam_request dcmread image_open transforms forward sigmoid str_other).
Local Abbreviation probs_of :=
  (request_probs dcmread image_open transforms forward sigmoid str_other).
Local Abbreviation run_predict :=
  (predict dcmread image_open transforms forward sigmoid str_other).
Local Abbreviation run_predict_cam :=
  (predict_cam bilinear png_bytes b64encode dcmread image_open transforms
               forward sigmoid rt to_numpy str_other).

Lemma mode_convert_RGB (im : Image) : mode (convert_RGB im) = "RGB".
Proof. destruct im; reflexivity. Qed.

Lemma read_image_mode (upload : UploadFile) (img : Image) :
  read_image upload = inr img -> mode img = "RGB".
Proof.
  unfold _read_image_from_upload.
  destruct (file_read upload) as [e|[|b bs]]; cbn [res_bind];
    try discriminate.
  destruct (_is_dicom upload).
  - destruct (dicom_bytes_to_pil dcmread (b :: bs)) as [e|im] eqn:E;
      [discriminate|].
    intros H. injection H as <-.
    apply dicom_result_gray in E as (sz & px & ->). reflexivity.
  - destruct (image_open (b :: bs)) as [e|im]; cbn [res_bind];
      [discriminate|].
    intros H. injection H as <-. apply mode_convert_RGB.
Qed.

(** A failure of [_read_image_from_upload] is the HTTP 400 that carries the
    text of the exception that stopped the reading, and every such
    exception is answered so. *)
Lemma read_image_failure (upload : UploadFile) (h : HTTPException) :
  read_image upload = inl h <->
  exists e, read_raises dcmread image_open upload e /\
            h = mkHTTPException 400
                  ("Invalid image/DICOM: " ++ str_exc str_other e).
Proof.
  unfold _read_image_from_upload, read_raises. split.
  - destruct (file_read upload) as [e|[|b bs]] eqn:Er; cbn [res_bind].
    + intros H. injection H as <-. exists e. split; [now left|reflexivity].
    + intros H. injection H as <-. exists (ValueError "empty file").
      split; [right; left; auto|reflexivity].
    + destruct (_is_dicom upload) eqn:Ed.
      * destruct (dicom_bytes_to_pil dcmread (b :: bs)) as [e|im] eqn:E;
          [|discriminate].
        intros H. injection H as <-. exists e. split; [|reflexivity].
        right; right. exists (b :: bs). split; [reflexivity|].
        split; [discriminate|]. left. auto.
      * destruct (image_open (b :: bs)) as [e|im] eqn:E; cbn [res_bind];
          [|discriminate].
        intros H. injection H as <-. exists e. split; [|reflexivity].
        right; right. exists (b :: bs). split; [reflexivity|].
        split; [discriminate|]. right. auto.
  - intros (e & [Hr|[(Hr & ->)|(bytes & Hr & Hne & Hd)]] & ->).
    + rewrite Hr. reflexivity.
    + rewrite Hr. reflexivity.
    + rewrite Hr. destruct bytes as [|b bs]; [congruence|]. cbn [res_bind].
      destruct Hd as [(-> & ->)|(-> & ->)]; reflexivity.
Qed.

(** Every image that [_read_image_from_upload] returns is in mode RGB,
    whatever the decoder produced; it fails exactly when reading, decoding
    or the DICOM conversion raises or when there are no bytes, and the
    failure is then the HTTP 400 whose detail is "Invalid image/DICOM: "
    followed by the text of that very exception; an empty upload is
    refused with "Invalid image/DICOM: empty file" before any decoder is
    tried. *)
Theorem read_image_is_rgb_or_400 :
  forall upload : UploadFile,
    (forall img, read_image upload = inr img -> mode img = "RGB") /\
    (forall h,
        read_image upload = inl h <->
        exists e, read_raises dcmread image_open upload e /\
                  h = mkHTTPException 400
                        ("Invalid image/DICOM: " ++ str_exc str_other e)) /\
    (file_read upload = inr [] ->
     read_image upload
     = inl (mkHTTPException 400 "Invalid image/DICOM: empty file")).
Proof.
  intros upload. split; [apply read_image_mode|]. split.
  - apply read_image_failure.
  - intros H. unfold _read_image_from_upload. rewrite H. reflexivity.
Qed.

Lemma request_image (file : UploadFile) (tc : option Z) (st : AppState)
      (pil_img : Image) (x : Tensor fnum) (preds : list Prediction) (k : Z) :
  request file tc st = inr (pil_img, x, preds, k) ->
  read_image file = inr pil_img.
Proof.
  unfold cam_request.
  destruct (read_image file) as [h|im]; cbn [of_http try_bind];
    [discriminate|].
  destruct (preprocess_pil_image transforms im) as [e|x']; cbn [of_res try_bind];
    [discriminate|].
  destruct (class_probabilities forward sigmoid st x') as [e|probs];
    cbn [of_res try_bind]; [discriminate|].
  destruct (tolist probs) as [e|pl]; cbn [of_res try_bind]; [discriminate|].
  destruct (match tc with None => _ | Some _ => _ end) as [e|k'];
    cbn [try_bind]; [discriminate|].
  intros H. now injection H as -> _ _ _.
Qed.

Lemma request_out_of_range (file : UploadFile) (k : Z) (st : AppState) :
  (k < 0 \/ 14 <= k)%Z ->
  (exists r, request file (Some k) st = inl r) /\
  (forall preds, run_predict file st = inr preds ->
                 request file (Some k) st = inl (RHttp out_of_range)).
Proof.
  intros Hk. unfold cam_request, predict.
  assert (Hc : negb ((0 <=? k)%Z && (k <? Z.of_nat (length CHEXNET_LABELS))%Z)
               = true).
  { apply negb_true_iff, andb_false_iff. cbn [length CHEXNET_LABELS].
    destruct Hk; [left; apply Z.leb_gt; lia|right; apply Z.ltb_ge; lia]. }
  rewrite Hc.
  destruct (read_image file) as [h|im]; cbn [of_http try_bind handle];
    [split; [eauto|discriminate]|].
  destruct (preprocess_pil_image transforms im) as [e|x];
    cbn [of_res try_bind handle]; [split; [eauto|discriminate]|].
  destruct (class_probabilities forward sigmoid st x) as [e|probs];
    cbn [of_res try_bind handle]; [split; [eauto|discriminate]|].
  destruct (tolist probs) as [e|pl]; cbn [of_res try_bind handle];
    [split; [eauto|discriminate]|].
  split; eauto.
Qed.

(** A class outside 0..13 never reaches the engine: the request fails and
    [app.state] is exactly as before (no engine is built, the mode of the
    model is not touched, no hook is attached, nothing is printed); and
    whenever /predict answers the same upload, the failure is the HTTP 400
    "target_class out of range [0, 13]".  Negative indices, which
    [get_cam] itself would accept, are refused. *)
Theorem predict_cam_rejects_class_outside_labels :
  forall (file : UploadFile) (k : Z) (st : AppState),
    (k < 0 \/ 14 <= k)%Z ->
    fst (run_predict_cam file (Some k) st) = st /\
    (exists h, snd (run_predict_cam file (Some k) st) = inl h) /\
    (forall preds,
        run_predict file st = inr preds ->
        snd (run_predict_cam file (Some k) st) = inl out_of_range).
Proof.
  intros file k st Hk.
  destruct (request_out_of_range file k st Hk) as [[r Hr] Hp].
  unfold predict_cam. rewrite Hr. cbn [fst snd].
  split; [reflexivity|]. split.
  - unfold handle. destruct r; eauto.
  - intros preds H. specialize (Hp preds H). rewrite Hr in Hp.
    injection Hp as ->. reflexivity.
Qed.

Lemma init_auto_world (w w' : World) (model m' : PyVal) (r : Res t) :
  __init__ rt w model None = (w', m', r) ->
  forward_hooks w' = forward_hooks w /\ next_handle w' = next_handle w /\
  (m' = model \/ m' = eval model) /\
  (is_module model = true -> m' = eval model).
Proof.
  destruct (is_module model) eqn:Hm.
  - rewrite init_auto_run by exact Hm.
    destruct (last_opt (candidates_of rt (eval model))) as [[name module]|].
    + destruct (is_none module); intros H; injection H as <- <- _;
        cbn [print forward_hooks next_handle]; auto.
    + intros H; injection H as <- <- _. auto.
  - unfold __init__. rewrite Hm. cbn [negb]. intros H.
    injection H as <- <- _. repeat split; auto; try discriminate.
Qed.

(** A request to /predict_cam never removes or reorders hooks of the
    shared model: afterwards the hooks are those found before, or those
    with one more appended; a request that is answered leaves them as
    they were.  The model kept in [app.state] is afterwards the model
    found or that model switched to inference mode, so a model loaded in
    inference mode is never changed. *)
Theorem predict_cam_leaves_at_most_one_hook :
  forall (file : UploadFile) (tc : option Z) (st : AppState),
    handles_fresh (fst st) ->
    handles_fresh (fst (fst (run_predict_cam file tc st))) /\
    (forward_hooks (fst (fst (run_predict_cam file tc st)))
     = forward_hooks (fst st) \/
     exists id,
       forward_hooks (fst (fst (run_predict_cam file tc st)))
       = (forward_hooks (fst st) ++ [(next_handle (fst st), id)])%list) /\
    (forall reply,
        snd (run_predict_cam file tc st) = inr reply ->
        forward_hooks (fst (fst (run_predict_cam file tc st)))
        = forward_hooks (fst st)) /\
    (snd (fst (run_predict_cam file tc st)) = snd st \/
     snd (fst (run_predict_cam file tc st)) = eval (snd st)) /\
    (all_eval (snd st) = true ->
     snd (fst (run_predict_cam file tc st)) = snd st).
Proof.
  intros file tc [w model] Hfresh. cbn [fst snd] in *.
  unfold predict_cam.
  destruct (request file tc (w, model)) as [r|[[[pil_img x] preds] k]].
  { cbn [fst snd]. repeat split; auto; try discriminate. }
  cbn [fst snd].
  destruct (__init__ rt w model None) as [[w1 m1] r1] eqn:Hinit.
  destruct (init_auto_world w w1 model m1 r1 Hinit) as (Hh & Hn & Hm & _).
  assert (Hm' : all_eval model = true -> m1 = model).
  { intros He. destruct Hm as [->| ->]; [reflexivity|].
    now apply eval_fixes_eval_mode. }
  assert (Hfresh1 : handles_fresh w1)
    by (unfold handles_fresh in *; now rewrite Hh, Hn).
  destruct r1 as [e|cam].
  { cbn [fst snd]. rewrite Hh. repeat split; auto; try discriminate. }
  pose proof (get_cam_hooks_cases rt x (Some k) (w1, cam) Hfresh1) as Hc.
  pose proof (get_cam_returns_hooks rt x (Some k) (w1, cam)) as Hr.
  cbn [fst snd] in Hc, Hr. rewrite Hh, Hn in Hc. rewrite Hh in Hr.
  destruct (get_cam rt x (Some k) (w1, cam)) as [[w2 cam2] r2].
  cbn [fst snd] in Hc. destruct Hc as [Hf2 Hc2].
  assert (Hok : forall o, r2 = inr o -> forward_hooks w2 = forward_hooks w).
  { intros o ->. exact (Hr (w2, cam2) o Hfresh1 eq_refl). }
  destruct r2 as [e|[hm|]]; cbn [fst snd].
  - repeat split; auto; try discriminate.
  - destruct (tensor_to_base64_overlay _ _ _ _ _) as [e|uri]; cbn [fst snd];
      repeat split; auto; intros; eapply Hok; reflexivity.
  - repeat split; auto. intros. eapply Hok; reflexivity.
Qed.

(** The data URI that /predict_cam returns is the PNG, in base64, of an
    image that has the size of the decoded upload, is in mode RGBA and is
    opaque everywhere: the upload is decoded to mode RGB, so the overlay is
    composited on the upload as decoded. *)
Theorem cam_overlay_has_upload_size :
  forall (file : UploadFile) (tc : option Z) (st st' : AppState)
         (preds : list Prediction) (uri : string),
    run_predict_cam file tc st = (st', inr (preds, Some uri)) ->
    exists pil_img overlay,
      read_image file = inr pil_img /\
      mode pil_img = "RGB" /\
      uri = "data:image/png;base64," ++ b64encode (png_bytes overlay) /\
      size overlay = size pil_img /\
      mode overlay = "RGBA" /\
      Forall (fun p => px_alpha p = xff) (rgba_pixels overlay).
Proof.
  intros file tc st st' preds uri. unfold predict_cam.
  destruct (request file tc st) as [r|[[[pil_img x] preds0] k]] eqn:Hreq.
  { unfold handle. destruct r; discriminate. }
  apply request_image in Hreq.
  pose proof (read_image_mode file pil_img Hreq) as Hmode.
  destruct (__init__ rt (fst st) (snd st) None) as [[w1 m1] [e|cam]];
    [discriminate|].
  destruct (get_cam rt x (Some k) (w1, cam)) as [[w2 cam2] [e|[hm|]]];
    try discriminate.
  unfold tensor_to_base64_overlay. rewrite Hmode.
  change (negb (String.eqb "RGB" "RGB")) with false. cbv beta iota zeta.
  destruct (_rgba_heatmap_overlay bilinear pil_img (to_numpy hm)
              default_alpha_scale) as [e|overlay] eqn:Ho;
    cbn [res_bind]; [discriminate|].
  intros H. injection H as _ _ <-.
  destruct (rgba_overlay_facts bilinear pil_img (to_numpy hm)
              default_alpha_scale overlay Ho) as (Hs & Hm & _ & _ & Hop).
  exists pil_img, overlay. repeat split; auto.
  apply Hop. destruct pil_img; try reflexivity. discriminate Hmode.
Qed.


Lemma insert_desc_in (x p : Prediction) (l : list Prediction) :
  In p (insert_desc x l) -> p = x \/ In p l.
Proof.
  induction l as [|y l IH]; cbn [insert_desc].
  - intros [<-|[]]. now left.
  - destruct (fltb (probability x) (probability y)).
    + intros [<-|H]; [right; now left|].
      destruct (IH H); [now left|right; now right].
    + intros [<-|H]; [now left|now right].
Qed.

Lemma sorted_desc_in (p : Prediction) (l : list Prediction) :
  In p (sorted_desc l) -> In p l.
Proof.
  induction l as [|x l IH]; cbn [sorted_desc fold_right]; [tauto|].
  intros H. apply insert_desc_in in H as [->|H]; [now left|].
  right. now apply IH.
Qed.

Lemma fltb_finite_false (x y : fnum) :
  isfinite x = true -> isfinite y = true ->
  fltb x y = false -> fltb y x = true \/ forall z, fltb z x = fltb z y.
Proof.
  destruct x as [a| | |], y as [b| | |]; try discriminate. intros _ _.
  cbn [fltb]. intros H. apply Qltb_false in H.
  destruct (Qltb b a) eqn:E; [now left|]. right.
  apply Qltb_false in E. assert (Hab : (a == b)%Q) by now apply Qle_antisym.
  intros [c| | |]; cbn [fltb]; try reflexivity.
  destruct (Qltb c a) eqn:E1, (Qltb c b) eqn:E2; try reflexivity.
  - apply Qltb_true in E1. apply Qltb_false in E2. exfalso.
    rewrite Hab in E1. now apply (Qlt_not_le _ _ E1).
  - apply Qltb_false in E1. apply Qltb_true in E2. exfalso.
    rewrite <- Hab in E2. now apply (Qlt_not_le _ _ E2).
Qed.

Lemma fltb_le_lt_trans (x y z : fnum) :
  isfinite x = true -> isfinite y = true -> isfinite z = true ->
  fltb y x = false -> fltb z y = false -> fltb z x = false.
Proof.
  destruct x as [a| | |], y as [b| | |], z as [c| | |]; try discriminate.
  intros _ _ _. cbn [fltb]. rewrite !Qltb_false. intros H1 H2.
  now apply (Qle_trans _ b).
Qed.

Lemma fltb_irrefl (x : fnum) : fltb x x = false.
Proof.
  destruct x as [a| | |]; try reflexivity. cbn [fltb].
  apply Qltb_false. apply Qle_refl.
Qed.

Lemma fltb_lt_le (x y : fnum) : fltb x y = true -> fltb y x = false.
Proof.
  destruct x as [a| | |], y as [b| | |]; try discriminate; try reflexivity.
  cbn [fltb]. rewrite Qltb_true, Qltb_false. apply Qlt_le_weak.
Qed.

(** The head of the sorted predictions: the first entry of largest
    probability. *)
Lemma sorted_head_spec (l : list Prediction) :
  l <> [] ->
  Forall (fun p => isfinite (probability p) = true) l ->
  exists k top rest,
    sorted_desc l = top :: rest /\
    nth_error l k = Some top /\
    (forall j y, nth_error l j = Some y ->
                 fltb (probability top) (probability y) = false) /\
    (forall j y, j < k -> nth_error l j = Some y ->
                 fltb (probability y) (probability top) = true).
Proof.
  induction l as [|x l IH]; [now intros []|]. intros _ Hfin.
  inversion Hfin as [|? ? Hx Hl]. subst.
  destruct l as [|x' l'].
  - exists 0, x, []. repeat split.
    + intros [|j] y H; cbn in H; [|destruct j; discriminate].
      injection H as <-. apply fltb_irrefl.
    + intros j y Hj. lia.
  - destruct (IH ltac:(discriminate) Hl) as (k & top & rest & Hs & Hk & Hmax & Hlt).
    assert (Htop : isfinite (probability top) = true).
    { rewrite Forall_forall in Hl. apply Hl.
      apply nth_error_In in Hk. exact Hk. }
    change (sorted_desc (x :: x' :: l'))
      with (insert_desc x (sorted_desc (x' :: l'))).
    rewrite Hs. cbn [insert_desc].
    destruct (fltb (probability x) (probability top)) eqn:E.
    + exists (S k), top, (insert_desc x rest). repeat split.
      * exact Hk.
      * intros [|j] y H; cbn [nth_error] in H.
        -- injection H as <-. now apply fltb_lt_le.
        -- now apply (Hmax j).
      * intros [|j] y Hj H; cbn [nth_error] in H.
        -- injection H as <-. exact E.
        -- apply (Hlt j); [lia|exact H].
    + exists 0, x, (top :: rest). repeat split.
      * intros [|j] y H; cbn [nth_error] in H.
        -- injection H as <-. apply fltb_irrefl.
        -- apply (fltb_le_lt_trans (probability y) (probability top)
                    (probability x)); auto.
           ++ rewrite Forall_forall in Hl. apply Hl.
              apply nth_error_In in H. exact H.
           ++ now apply (Hmax j).
      * intros j y Hj. lia.
Qed.

Lemma zip_labels_nth (d : list fnum) (j : nat) (p : Prediction) :
  nth_error (zip_with mkPrediction CHEXNET_LABELS d) j = Some p ->
  j < length d /\
  p = mkPrediction (nth j CHEXNET_LABELS "") (nth j d NaN).
Proof.
  intros H. apply zip_with_nth_error in H as (lb & y & Hl & Hy & ->).
  split; [apply nth_error_Some; rewrite Hy; discriminate|].
  f_equal; symmetry; now apply nth_error_nth.
Qed.

Lemma zip_labels_length (d : list fnum) :
  length d <= 14 -> length (zip_with mkPrediction CHEXNET_LABELS d) = length d.
Proof.
  intros H. rewrite zip_with_length. cbn [length CHEXNET_LABELS]. lia.
Qed.

Lemma request_unfold (file : UploadFile) (tc : option Z) (st : AppState) :
  request file tc st
  = try_bind (probs_of file st) (fun t =>
      let '(pil_img, x, probs) := t in
      try_bind (of_res (tolist probs)) (fun probs_list =>
      try_bind
        (match tc with
         | None => of_res (np_argmax probs)
         | Some k =>
             if negb ((0 <=? k)%Z &&
                      (k <? Z.of_nat (length CHEXNET_LABELS))%Z)
             then inl (RHttp out_of_range)
             else inr k
         end) (fun k =>
      inr (pil_img, x, predictions_of probs_list, k)))).
Proof.
  unfold cam_request, request_probs.
  destruct (read_image file) as [h|im]; cbn [of_http try_bind];
    [reflexivity|].
  destruct (preprocess_pil_image transforms im) as [e|x];
    cbn [of_res try_bind]; [reflexivity|].
  destruct (class_probabilities forward sigmoid st x) as [e|probs];
    cbn [of_res try_bind]; reflexivity.
Qed.

Lemma predict_unfold (file : UploadFile) (st : AppState) :
  run_predict file st
  = handle str_other "Prediction failed: "
      (try_bind (probs_of file st) (fun t =>
         let '(pil_img, x, probs) := t in
         try_bind (of_res (tolist probs)) (fun probs_list =>
         inr (predictions_of probs_list)))).
Proof.
  unfold predict, request_probs. f_equal.
  destruct (read_image file) as [h|im]; cbn [of_http try_bind];
    [reflexivity|].
  destruct (preprocess_pil_image transforms im) as [e|x];
    cbn [of_res try_bind]; [reflexivity|].
  destruct (class_probabilities forward sigmoid st x) as [e|probs];
    cbn [of_res try_bind]; reflexivity.
Qed.

(** Without [target_class], /predict_cam explains the class that it lists
    first: on up to 14 finite probabilities the class handed to the engine
    is the index of the label of the first prediction, which has the
    largest probability; /predict lists the same predictions, and the
    request is answered exactly as the request that names this class. *)
Theorem default_class_is_top_prediction :
  forall (file : UploadFile) (st : AppState) (pil_img : Image)
         (x probs : Tensor fnum) (c : nat),
    probs_of file st = inr (pil_img, x, probs) ->
    shape probs = [c] -> wf_tensor probs -> 0 < c <= 14 ->
    forallb isfinite (data probs) = true ->
    exists k top rest,
      request file None st = inr (pil_img, x, top :: rest, Z.of_nat k) /\
      k < c /\
      label top = nth k CHEXNET_LABELS "" /\
      probability top = nth k (data probs) NaN /\
      Forall (fun p => fltb (probability top) (probability p) = false) rest /\
      run_predict file st = inr (top :: rest) /\
      run_predict_cam file None st
      = run_predict_cam file (Some (Z.of_nat k)) st.
Proof.
  intros file st pil_img x probs c Hp Hs Hwf Hc Hfin.
  unfold wf_tensor in Hwf. rewrite Hs in Hwf. cbn [numel fold_right] in Hwf.
  rewrite Nat.mul_1_r in Hwf.
  assert (Htl : tolist probs = inr (data probs))
    by (unfold tolist; now rewrite Hs).
  destruct (data probs) as [|x0 d0] eqn:Ed; [cbn in Hwf; lia|].
  rewrite <- Ed in *.
  set (l := zip_with mkPrediction CHEXNET_LABELS (data probs)).
  assert (Hlen : length l = c)
    by (unfold l; rewrite zip_labels_length; lia).
  assert (Hlfin : Forall (fun p => isfinite (probability p) = true) l).
  { apply Forall_forall. intros p Hin. apply In_nth_error in Hin as [j Hj].
    apply zip_labels_nth in Hj as [Hj ->]. cbn [probability].
    rewrite forallb_forall in Hfin. apply Hfin. now apply nth_In. }
  destruct (sorted_head_spec l) as (ks & top & rest & Hsort & Hks & Hmax & Hlt).
  { intros E. rewrite E in Hlen. cbn in Hlen. lia. }
  { exact Hlfin. }
  (* the index that argmax returns *)
  assert (Hfin0 : forallb isfinite d0 = true /\ exists a, x0 = Fin a).
  { rewrite Ed in Hfin. cbn [forallb] in Hfin.
    apply andb_true_iff in Hfin as [H0 H1]. split; [exact H1|].
    destruct x0; try discriminate. eauto. }
  destruct Hfin0 as [Hfin0 [a ->]].
  destruct (argmax_from_inv d0 [Fin a] 1 a 0 Hfin0 eq_refl)
    as (Hka & m & Hm & Hle & Hlt').
  { lia. }
  { reflexivity. }
  { intros j q Hj Hq. destruct j; [|lia]. inversion Hq. apply Qle_refl. }
  { intros j q Hj. lia. }
  cbn [app] in Hka, Hm, Hle, Hlt'. rewrite <- Ed in Hka, Hm, Hle, Hlt'.
  set (ka := argmax_from d0 1 (Fin a) 0) in *.
  assert (Harg : np_argmax probs = inr (Z.of_nat ka))
    by (unfold np_argmax; now rewrite Ed).
  rewrite Hwf in Hka.
  (* both indices are the first index of a largest probability *)
  pose proof (zip_labels_nth _ _ _ Hks) as [Hksc Htop].
  assert (Hpa : nth_error l ka
                = Some (mkPrediction (nth ka CHEXNET_LABELS "")
                                     (nth ka (data probs) NaN))).
  { destruct (nth_error l ka) as [p|] eqn:E.
    - apply zip_labels_nth in E as [_ ->]. reflexivity.
    - apply nth_error_None in E. lia. }
  assert (Hqs : exists qs, nth ks (data probs) NaN = Fin qs).
  { rewrite forallb_forall in Hfin.
    specialize (Hfin (nth ks (data probs) NaN) (nth_In _ _ Hksc)).
    destruct (nth ks (data probs) NaN); try discriminate. eauto. }
  destruct Hqs as [qs Hqs].
  assert (Hk : ks = ka).
  { destruct (Nat.lt_trichotomy ks ka) as [H|[H|H]]; [|exact H|]; exfalso.
    - pose proof (Hlt' ks qs H Hqs) as H1.
      pose proof (Hmax ka _ Hpa) as H2. rewrite Htop in H2.
      cbn [probability] in H2. rewrite Hqs, Hm in H2. cbn [fltb] in H2.
      apply Qltb_false in H2. now apply (Qlt_not_le _ _ H1).
    - pose proof (Hlt ka _ H Hpa) as H1. rewrite Htop in H1.
      cbn [probability] in H1. rewrite Hqs, Hm in H1. cbn [fltb] in H1.
      apply Qltb_true in H1.
      pose proof (Hle ks qs ltac:(lia) Hqs) as H2.
      now apply (Qlt_not_le _ _ H1). }
  subst ks.
  assert (Hreq : forall tc,
             tc = None \/ tc = Some (Z.of_nat ka) ->
             request file tc st = inr (pil_img, x, top :: rest, Z.of_nat ka)).
  { intros tc Htc. rewrite request_unfold, Hp. cbn [try_bind].
    rewrite Htl. cbn [of_res try_bind].
    unfold predictions_of. fold l. rewrite Hsort.
    destruct Htc as [->| ->].
    - rewrite Harg. reflexivity.
    - replace (negb _) with false; [reflexivity|].
      symmetry. apply negb_false_iff, andb_true_iff.
      cbn [length CHEXNET_LABELS].
      split; [apply Z.leb_le|apply Z.ltb_lt]; lia. }
  exists ka, top, rest.
  split; [apply Hreq; now left|].
  split; [exact Hka|].
  split; [now rewrite Htop|].
  split; [now rewrite Htop|].
  split.
  { apply Forall_forall. intros p Hin.
    assert (Hin' : In p l).
    { apply sorted_desc_in. rewrite Hsort. now right. }
    apply In_nth_error in Hin' as [j Hj]. now apply (Hmax j). }
  split.
  { rewrite predict_unfold, Hp. cbn [try_bind]. rewrite Htl.
    cbn [of_res try_bind handle]. unfold predictions_of. fold l.
    now rewrite Hsort. }
  unfold predict_cam.
  rewrite (Hreq None (or_introl eq_refl)),
          (Hreq (Some (Z.of_nat ka)) (or_intror eq_refl)).
  reflexivity.
Qed.

End ApiFacts.

Section ApiWitnesses.

Import PIL Utils UtilsDicom GradCAM Api ApiSamples.
Local Open Scope string_scope.

Lemma read_image_is_rgb_or_400_witness :
  mode (RGB (2, 2) [(x10, x10, x10); (x20, x20, x20);
                    (x30, x30, x30); (x40, x40, x40)]) = "RGB" /\
  _read_image_from_upload dcmread0 open0 str0
    (mkUploadFile (Some "scan.dcm") None (inr []))
  = inl (mkHTTPException 400 "Invalid image/DICOM: empty file") /\
  _read_image_from_upload dcmread0 open0 str0
    (mkUploadFile (Some "scan.dcm") None (inr [x01]))
  = inl (mkHTTPException 400 "Invalid image/DICOM: error") /\
  (exists e,
      read_raises dcmread0 open0
        (mkUploadFile (Some "chest.png") None (inl TypeError)) e /\
      mkHTTPException 400 "Invalid image/DICOM: error"
      = mkHTTPException 400 ("Invalid image/DICOM: " ++ str_exc str0 e)).
Proof.
  split; [|split; [|split]].
  - apply (proj1 (read_image_is_rgb_or_400 dcmread0 open0 str0 upload0)).
    vm_compute. reflexivity.
  - apply (proj2 (proj2 (read_image_is_rgb_or_400 dcmread0 open0 str0
                           (mkUploadFile (Some "scan.dcm") None (inr []))))).
    reflexivity.
  - apply (proj2 (proj1 (proj2 (read_image_is_rgb_or_400 dcmread0 open0 str0
                           (mkUploadFile (Some "scan.dcm") None (inr [x01]))))
                        _)).
    exists RuntimeError. split; [|reflexivity].
    right; right. exists [x01]. split; [reflexivity|].
    split; [discriminate|]. left. split; reflexivity.
  - apply (proj1 (proj1 (proj2 (read_image_is_rgb_or_400 dcmread0 open0 str0
                           (mkUploadFile (Some "chest.png") None
                                         (inl TypeError))))
                        _)).
    reflexivity.
Defined.

Lemma predict_cam_rejects_class_outside_labels_witness :
  fst (predict_cam bilinear0 png0 b64_0 dcmread0 open0 transforms0 forward0
         sigmoid0 rt14 to_numpy0 str0 upload0 (Some (-1)%Z) app0) = app0 /\
  snd (predict_cam bilinear0 png0 b64_0 dcmread0 open0 transforms0 forward0
         sigmoid0 rt14 to_numpy0 str0 upload0 (Some (-1)%Z) app0)
  = inl out_of_range.
Proof.
  destruct (predict_cam_rejects_class_outside_labels bilinear0 png0 b64_0
              dcmread0 open0 transforms0 forward0 sigmoid0 rt14 to_numpy0
              str0 upload0 (-1)%Z app0) as (H1 & _ & H3); [left; lia|].
  split; [exact H1|]. eapply H3. vm_compute. reflexivity.
Defined.

Lemma predict_cam_leaves_at_most_one_hook_witness :
  handles_fresh
    (fst (fst (predict_cam bilinear0 png0 b64_0 dcmread0 open0 transforms0
                 forward0 sigmoid0 rt14_backward_raises to_numpy0 str0
                 upload0 (Some 3%Z) app0))) /\
  forward_hooks
    (fst (fst (predict_cam bilinear0 png0 b64_0 dcmread0 open0 transforms0
                 forward0 sigmoid0 rt14_backward_raises to_numpy0 str0
                 upload0 (Some 3%Z) app0)))
  = [(0, 6)].
Proof.
  split; [|vm_compute; reflexivity].
  apply (predict_cam_leaves_at_most_one_hook bilinear0 png0 b64_0 dcmread0
           open0 transforms0 forward0 sigmoid0 rt14_backward_raises
           to_numpy0 str0 upload0 (Some 3%Z) app0).
  constructor.
Defined.

Lemma cam_overlay_has_upload_size_witness :
  exists pil_img overlay,
    _read_image_from_upload dcmread0 open0 str0 upload0 = inr pil_img /\
    size overlay = size pil_img /\
    Forall (fun p => px_alpha p = xff) (rgba_pixels overlay).
Proof.
  edestruct (cam_overlay_has_upload_size bilinear0 png0 b64_0 dcmread0 open0
               transforms0 forward0 sigmoid0 rt14 to_numpy0 str0 upload0
               None app0)
    as (pil_img & overlay & H1 & _ & _ & H4 & _ & H6);
    [vm_compute; reflexivity|].
  exists pil_img, overlay. auto.
Defined.

Lemma default_class_is_top_prediction_witness :
  exists k top rest pil_img x,
    cam_request dcmread0 open0 transforms0 forward0 sigmoid0 str0
      upload0 None app0
    = inr (pil_img, x, top :: rest, Z.of_nat k) /\
    k < 14 /\ label top = nth k CHEXNET_LABELS "".
Proof.
  edestruct (default_class_is_top_prediction bilinear0 png0 b64_0 dcmread0
               open0 transforms0 forward0 sigmoid0 rt14 to_numpy0 str0
               upload0 app0)
    as (k & top & rest & H1 & H2 & H3 & _);
    [vm_compute; reflexivity|reflexivity|reflexivity|lia|reflexivity|].
  eauto 10.
Defined.

End ApiWitnesses.
